(** * Chat-export preparation pipeline: a shallow embedding of [prepare_data.py]

    The development follows the Python module function by function:
    [load_chats], [transform_chats], [create_sessions] and
    [combine_consecutive_messages], together with the older, inlined variant
    of [transform_chats] kept under [src/src/prepare_data.py] (module
    [Legacy] below).

    Python objects that the code mutates in place ([Message] instances, whose
    [text] attribute is rewritten by the merger) live in an explicit store and
    are handled through references, so that aliasing is observable exactly as
    in the program. *)

From Stdlib Require Import ZArith List String Ascii Bool Lia DecimalString Sorted Permutation.
Import ListNotations.
Local Open Scope Z_scope.

Local Infix "+++" := String.append (at level 60, right associativity).

(** ** Exceptions and fallible computations *)

Inductive exn : Type :=
| StopIteration
| KeyError (key : string)
| IndexError
| OverflowError
| ValidationError.

Inductive result (A : Type) : Type :=
| Ok (a : A)
| Raise (e : exn).

Arguments Ok {A} a.
Arguments Raise {A} e.

Definition bind {A B : Type} (c : result A) (k : A -> result B) : result B :=
  match c with
  | Ok a => k a
  | Raise e => Raise e
  end.

Notation "'do' x <- c ; k" := (bind c (fun x => k))
  (at level 10, x pattern, c at level 100, k at level 200).

(** ** Instants and durations

    A naive [datetime] is the number of microseconds since
    0001-01-01T00:00:00; [datetime.max] is the last microsecond of year 9999.
    A [timedelta] is kept normalised as Python keeps it: any number of days,
    [0 <= seconds < 86400] and [0 <= microseconds < 10^6]. *)

Definition datetime := Z.

Definition us_per_second : Z := 1000000.
Definition us_per_day : Z := 86400 * us_per_second.
Definition datetime_max_days : Z := 3652059.
Definition timedelta_max_days : Z := 999999999.

Record timedelta : Type := mk_timedelta {
  days : Z;
  seconds : Z;
  microseconds : Z
}.

(** [a - b] on two datetimes. *)
Definition datetime_sub (a b : datetime) : timedelta :=
  let d := a - b in
  {| days := d / us_per_day;
     seconds := (d mod us_per_day) / us_per_second;
     microseconds := d mod us_per_second |}.

(** [timedelta.total_seconds()], kept exact as a count of microseconds. *)
Definition total_microseconds (d : timedelta) : Z :=
  days d * us_per_day + seconds d * us_per_second + microseconds d.

(** [timedelta(days=n)]. *)
Definition timedelta_of_days (n : Z) : result Z :=
  if Z.abs n <=? timedelta_max_days then Ok (n * us_per_day)
  else Raise OverflowError.

(** [d - delta] for a datetime and a duration given in microseconds. *)
Definition datetime_minus (d : datetime) (delta_us : Z) : result datetime :=
  let r := d - delta_us in
  if (0 <=? r) && (r <? datetime_max_days * us_per_day) then Ok r
  else Raise OverflowError.

(** [x / 60 < threshold] for an integer [x] with [0 <= x < 86400] and an
    integer [threshold].  Python divides in floating point and compares the
    quotient with the integer exactly; as the quotient of such an [x] by 60 is
    rounded by far less than 1/60, the test is the same as the integer test
    [x < 60 * threshold]. *)
Definition minutes_lt (x threshold : Z) : bool := x <? 60 * threshold.

(** ** Messages and the object store *)

Record Message : Type := mk_message {
  date : datetime;
  author : string;
  text : string
}.

Definition ref := nat.

Record heap : Type := mk_heap {
  cells : ref -> Message;
  fresh : ref
}.

Definition deref (h : heap) (r : ref) : Message := cells h r.

Definition store (h : heap) (r : ref) (m : Message) : heap :=
  {| cells := fun r' => if Nat.eqb r' r then m else cells h r';
     fresh := fresh h |}.

(** [Message(date=..., author=..., text=...)]: a new object. *)
Definition alloc (h : heap) (m : Message) : heap * ref :=
  ({| cells := fun r' => if Nat.eqb r' (fresh h) then m else cells h r';
      fresh := S (fresh h) |}, fresh h).

(** [r.text = t]. *)
Definition set_text (h : heap) (r : ref) (t : string) : heap :=
  store h r {| date := date (deref h r); author := author (deref h r); text := t |}.

Definition empty_message : Message :=
  {| date := 0; author := EmptyString; text := EmptyString |}.

Definition empty_heap : heap := {| cells := fun _ => empty_message; fresh := O |}.

Definition session := list ref.

Inductive chat_type : Type := personal_chat | private_group | private_supergroup.

Record Chat : Type := mk_chat {
  name : string;
  type : chat_type;
  messages : list ref;
  sessions : list session
}.

(** ** Strings: [str.lstrip()]

    A character of a [string] stands for the code point of the same number;
    the white space of [str.isspace] among the code points below 256 is
    U+0009..U+000D, U+001C..U+0020, U+0085 and U+00A0. *)

Definition py_isspace (c : ascii) : bool :=
  let n := nat_of_ascii c in
  ((9 <=? n) && (n <=? 13) || (28 <=? n) && (n <=? 32)
   || Nat.eqb n 133 || Nat.eqb n 160)%nat.

Fixpoint lstrip (s : string) : string :=
  match s with
  | EmptyString => EmptyString
  | String c s' => if py_isspace c then lstrip s' else s
  end.

(** ** [create_sessions] *)

(** The test of lines 124-125 for a non-empty [current_session] whose last
    element is [prev]. *)
Definition extends_session (h : heap) (prev msg : ref) (threshold : Z) : bool :=
  minutes_lt (seconds (datetime_sub (date (deref h msg)) (date (deref h prev))))
             threshold.

(** The [for msg in messages] loop, with the two variables it updates. *)
Fixpoint sessions_loop (h : heap) (threshold : Z) (msgs : list ref)
    (sessions : list session) (current_session : session) : list session * session :=
  match msgs with
  | [] => (sessions, current_session)
  | msg :: rest =>
      match current_session with
      | [] => sessions_loop h threshold rest sessions (current_session ++ [msg])
      | _ :: _ =>
          if extends_session h (last current_session msg) msg threshold
          then sessions_loop h threshold rest sessions (current_session ++ [msg])
          else sessions_loop h threshold rest (sessions ++ [current_session]) [msg]
      end
  end.

Definition create_sessions (h : heap) (messages : list ref) (threshold : Z)
    : list session :=
  let '(sessions, current_session) := sessions_loop h threshold messages [] [] in
  match current_session with
  | [] => sessions
  | _ :: _ => sessions ++ [current_session]
  end.

(** ** [combine_consecutive_messages] *)

(** The [for msg in session[1:]] loop. *)
Fixpoint merge_loop (delimiter : string) (rest : list ref) (h : heap)
    (current_message : ref) (combined_session : session) : heap * ref * session :=
  match rest with
  | [] => (h, current_message, combined_session)
  | msg :: rest' =>
      if String.eqb (author (deref h msg)) (author (deref h current_message))
      then
        let h1 := set_text h current_message
                    (text (deref h current_message) +++ delimiter +++ text (deref h msg)) in
        merge_loop delimiter rest' h1 current_message combined_session
      else
        let combined_session1 := combined_session ++ [current_message] in
        let h1 := set_text h msg (lstrip delimiter +++ text (deref h msg)) in
        merge_loop delimiter rest' h1 msg combined_session1
  end.

(** The body of the [for session in sessions] loop; [session[0]] raises
    [IndexError] on an empty session. *)
Definition combine_session (delimiter : string) (h : heap) (s : session)
    : result (heap * session) :=
  match s with
  | [] => Raise IndexError
  | first :: rest =>
      let h1 := set_text h first (lstrip delimiter +++ text (deref h first)) in
      let '(h2, current_message, combined_session) :=
        merge_loop delimiter rest h1 first [] in
      Ok (h2, combined_session ++ [current_message])
  end.

Fixpoint combine_loop (delimiter : string) (ss : list session) (h : heap)
    (combined_sessions : list session) : result (heap * list session) :=
  match ss with
  | [] => Ok (h, combined_sessions)
  | s :: ss' =>
      do (h1, combined_session) <- combine_session delimiter h s;
      combine_loop delimiter ss' h1 (combined_sessions ++ [combined_session])
  end.

Definition combine_consecutive_messages (h : heap) (sessions : list session)
    (delimiter : string) : result (heap * list session) :=
  combine_loop delimiter sessions h [].

(** ** The logger *)

Inductive level : Type := INFO | WARNING.

Definition log := list (level * string).

Definition str_of_Z (z : Z) : string := NilZero.string_of_int (Z.to_int z).

Definition str_of_nat (n : nat) : string := str_of_Z (Z.of_nat n).

(** ** [load_chats]

    The export is taken as parsed by [json.load], with the fields the loader
    reads.  A key that the loader tests for presence is optional here; a value
    that may be [null] in an export is an inner option. *)

Record RawTextEntity : Type := mk_entity { entity_text : string }.

Record RawMessage : Type := mk_raw_message {
  raw_date : datetime;
  raw_from : option (option string);
  raw_from_id : option string;
  raw_text_entities : list RawTextEntity;
  raw_sticker_emoji : option string
}.

Record RawChat : Type := mk_raw_chat {
  raw_name : option (option string);
  raw_id : Z;
  raw_type : string;
  raw_messages : list RawMessage
}.

(** [next(msg for msg in msgs if msg["from_id"] == wanted)], with no default. *)
Fixpoint next_from_id (wanted : string) (msgs : list RawMessage) : result RawMessage :=
  match msgs with
  | [] => Raise StopIteration
  | msg :: rest =>
      match raw_from_id msg with
      | None => Raise (KeyError "from_id")
      | Some fid => if String.eqb fid wanted then Ok msg else next_from_id wanted rest
      end
  end.

(** [str(msg["from"])]. *)
Definition str_of_from (msg : RawMessage) : result string :=
  match raw_from msg with
  | None => Raise (KeyError "from")
  | Some None => Ok "None"%string
  | Some (Some s) => Ok s
  end.

Definition is_empty_string (s : string) : bool :=
  match s with EmptyString => true | String _ _ => false end.

(** The filter of the message comprehension (lines 53-55); it yields the
    author when the record is kept. *)
Definition usable_author (msg : RawMessage) : option string :=
  match raw_from msg with
  | Some (Some a) =>
      if is_empty_string a then None
      else
        match raw_text_entities msg, raw_sticker_emoji msg with
        | _ :: _, _ => Some a
        | [], Some _ => Some a
        | [], None => None
        end
  | _ => None
  end.

Definition message_text (msg : RawMessage) : string :=
  String.concat EmptyString (map entity_text (raw_text_entities msg))
  +++ match raw_sticker_emoji msg with Some e => e | None => EmptyString end.

Fixpoint build_messages (h : heap) (msgs : list RawMessage) : heap * list ref :=
  match msgs with
  | [] => (h, [])
  | msg :: rest =>
      match usable_author msg with
      | Some a =>
          let '(h1, r) :=
            alloc h {| date := raw_date msg; author := a; text := message_text msg |} in
          let '(h2, rs) := build_messages h1 rest in
          (h2, r :: rs)
      | None => build_messages h rest
      end
  end.

(** Validation of the [type] field of [Chat]. *)
Definition parse_chat_type (s : string) : result chat_type :=
  if String.eqb s "personal_chat" then Ok personal_chat
  else if String.eqb s "private_group" then Ok private_group
  else if String.eqb s "private_supergroup" then Ok private_supergroup
  else Raise ValidationError.

Record loader_state : Type := mk_loader_state {
  ld_heap : heap;
  ld_chats : list Chat;
  ld_target_id : option Z;
  ld_target_name : option string
}.

(** The body of the [for chat in ...] loop. *)
Definition load_chat (st : loader_state) (chat : RawChat) : result loader_state :=
  match raw_name chat with
  | None =>
      let target_id := raw_id chat in
      do msg <- next_from_id ("user" +++ str_of_Z target_id) (raw_messages chat);
      do target_name <- str_of_from msg;
      Ok {| ld_heap := ld_heap st; ld_chats := ld_chats st;
            ld_target_id := Some target_id; ld_target_name := Some target_name |}
  | Some (Some nm) =>
      if is_empty_string nm then Ok st
      else
        let '(h1, msgs) := build_messages (ld_heap st) (raw_messages chat) in
        match msgs with
        | [] => Ok {| ld_heap := h1; ld_chats := ld_chats st;
                      ld_target_id := ld_target_id st;
                      ld_target_name := ld_target_name st |}
        | _ :: _ =>
            do ty <- parse_chat_type (raw_type chat);
            Ok {| ld_heap := h1;
                  ld_chats := ld_chats st ++
                    [{| name := nm; type := ty; messages := msgs; sessions := [] |}];
                  ld_target_id := ld_target_id st;
                  ld_target_name := ld_target_name st |}
        end
  | Some None => Ok st
  end.

Fixpoint load_loop (st : loader_state) (export : list RawChat) : result loader_state :=
  match export with
  | [] => Ok st
  | chat :: rest => do st1 <- load_chat st chat; load_loop st1 rest
  end.

(** [not target_name] for a value that is [None] or a string. *)
Definition falsy_name (nm : option string) : bool :=
  match nm with
  | None => true
  | Some s => is_empty_string s
  end.

Definition target_warning : string :=
  "Was not able to detect target name from 'Saved Messages'!".

Definition load_chats (path : string) (export : list RawChat) (h : heap)
    : result (heap * list Chat * (option Z * option string) * log) :=
  let log0 := [(INFO, "Loading chats from '" +++ path +++ "'...")] in
  do st <- load_loop {| ld_heap := h; ld_chats := [];
                        ld_target_id := None; ld_target_name := None |} export;
  let log1 := log0 ++ [(INFO, "Found " +++ str_of_nat (List.length (ld_chats st))
                               +++ " chats in file '" +++ path +++ "'")] in
  let log2 := if falsy_name (ld_target_name st)
              then log1 ++ [(WARNING, target_warning)] else log1 in
  Ok (ld_heap st, ld_chats st, (ld_target_id st, ld_target_name st), log2).

(** ** The date filter of [transform_chats] (lines 78-88) *)

(** The two kinds of value the condition of the comprehension can take. *)
Inductive pyval : Type :=
| PyNone
| PyList (l : list ref).

Definition truthy (v : pyval) : bool :=
  match v with
  | PyNone => false
  | PyList [] => false
  | PyList (_ :: _) => true
  end.

(** [a and b], with [b] evaluated only when [a] is true. *)
Definition py_and {S : Type} (a : pyval) (st : S) (b : S -> S * pyval) : S * pyval :=
  if truthy a then b st else (st, a).

(** [setattr(chat, "messages", ms)]: updates the chat and evaluates to [None]. *)
Definition setattr_messages (ms : list ref) (chat : Chat) : Chat * pyval :=
  ({| name := name chat; type := type chat; messages := ms; sessions := sessions chat |},
   PyNone).

Definition newer_than (h : heap) (cutoff_date : datetime) (msg : ref) : bool :=
  cutoff_date <? date (deref h msg).

Fixpoint date_filter (h : heap) (cutoff_date : datetime) (chats : list Chat)
    : list Chat :=
  match chats with
  | [] => []
  | chat :: rest =>
      let filtered_messages := filter (newer_than h cutoff_date) (messages chat) in
      let '(chat1, cond) :=
        py_and (PyList filtered_messages) chat (setattr_messages filtered_messages) in
      if truthy cond then chat1 :: date_filter h cutoff_date rest
      else date_filter h cutoff_date rest
  end.

(** [datetime.now() - timedelta(days=last_x_months * 30)]. *)
Definition cutoff_of (now : datetime) (last_x_months : Z) : result datetime :=
  do delta <- timedelta_of_days (last_x_months * 30);
  datetime_minus now delta.

(** ** Segmentation, merging and the target filter (lines 91-100) *)

(** [msg.author == target_name], where [target_name] may be [None]. *)
Definition author_is (h : heap) (target_name : option string) (msg : ref) : bool :=
  match target_name with
  | None => false
  | Some t => String.eqb (author (deref h msg)) t
  end.

(** [any(msg.author == target_name for msg in session[1:])]. *)
Definition has_target (h : heap) (target_name : option string) (s : session) : bool :=
  existsb (author_is h target_name) (tl s).

Definition set_sessions (chat : Chat) (ss : list session) : Chat :=
  {| name := name chat; type := type chat; messages := messages chat; sessions := ss |}.

Definition process_chat (target_name : option string) (threshold : Z)
    (delimiter : string) (h : heap) (chat : Chat) : result (heap * Chat) :=
  let chat1 := set_sessions chat (create_sessions h (messages chat) threshold) in
  do (h1, merged) <- combine_consecutive_messages h (sessions chat1) delimiter;
  let chat2 := set_sessions chat1 merged in
  Ok (h1, set_sessions chat2 (filter (has_target h1 target_name) (sessions chat2))).

Fixpoint process_chats (target_name : option string) (threshold : Z)
    (delimiter : string) (h : heap) (chats : list Chat) : result (heap * list Chat) :=
  match chats with
  | [] => Ok (h, [])
  | chat :: rest =>
      do (h1, chat') <- process_chat target_name threshold delimiter h chat;
      do (h2, rest') <- process_chats target_name threshold delimiter h1 rest;
      Ok (h2, chat' :: rest')
  end.

(** ** Formatter and writer (lines 102-115) *)

Definition chr (n : nat) : string := String (ascii_of_nat n) EmptyString.
Definition newline : string := chr 10.
Definition dquote : string := chr 34.
Definition backslash : string := chr 92.

Definition format_message (h : heap) (msg : ref) : string :=
  "<|im_start|>" +++ author (deref h msg) +++ newline
  +++ text (deref h msg) +++ "<|im_end|>".

(** The value of the ["text"] key of one record. *)
Definition format_session (h : heap) (s : session) : string :=
  String.concat newline (map (format_message h) s).

Definition hex_digit (n : nat) : string :=
  chr (if (n <? 10)%nat then 48 + n else 87 + n)%nat.

(** The replacement of one character inside a JSON string when
    [ensure_ascii] is off: the two-character escapes, [\u00XX] for the other
    control characters, and every other character as it is. *)
Definition json_escape_char (c : ascii) : string :=
  let n := nat_of_ascii c in
  if Nat.eqb n 34 then backslash +++ dquote
  else if Nat.eqb n 92 then backslash +++ backslash
  else if Nat.eqb n 10 then backslash +++ "n"
  else if Nat.eqb n 13 then backslash +++ "r"
  else if Nat.eqb n 9 then backslash +++ "t"
  else if Nat.eqb n 8 then backslash +++ "b"
  else if Nat.eqb n 12 then backslash +++ "f"
  else if (n <? 32)%nat
       then backslash +++ "u00" +++ hex_digit (n / 16) +++ hex_digit (n mod 16)
  else String c EmptyString.

Fixpoint json_escape (s : string) : string :=
  match s with
  | EmptyString => EmptyString
  | String c s' => json_escape_char c +++ json_escape s'
  end.

(** [json.dumps({"text": s}, ensure_ascii=False)]. *)
Definition json_dump_text (s : string) : string :=
  "{" +++ dquote +++ "text" +++ dquote +++ ": "
  +++ dquote +++ json_escape s +++ dquote +++ "}".

Definition files := string -> option string.

(** [open(path, "w")]: the file is created or truncated. *)
Definition open_w (fs : files) (path : string) : files :=
  fun p => if String.eqb p path then Some EmptyString else fs p.

(** [f.write(s)] on the file opened at [path]. *)
Definition write (fs : files) (path : string) (s : string) : files :=
  fun p =>
    if String.eqb p path
    then Some (match fs p with Some old => old | None => EmptyString end +++ s)
    else fs p.

Fixpoint write_records (fs : files) (path : string) (session_dicts : list string)
    : files :=
  match session_dicts with
  | [] => fs
  | d :: rest =>
      let fs1 := write fs path (json_dump_text d) in
      let fs2 := write fs1 path newline in
      write_records fs2 path rest
  end.

Definition all_sessions (chats : list Chat) : list session :=
  flat_map sessions chats.

Definition write_sessions (fs : files) (output : string) (h : heap)
    (chats : list Chat) : files :=
  let session_dicts := map (format_session h) (all_sessions chats) in
  write_records (open_w fs output) output session_dicts.

(** ** [transform_chats] *)

(** [target_name or extracted_target_name]. *)
Definition name_or (target_name extracted : option string) : option string :=
  if falsy_name target_name then extracted else target_name.

Definition str_of_name (nm : option string) : string :=
  match nm with Some s => s | None => "None"%string end.

Definition transform_chats (input output : string) (export : list RawChat)
    (h : heap) (fs : files) (now : datetime)
    (target_name : option string) (last_x_months session_minutes_threshold : Z)
    (concat_one_user_messages_delimeter : string) : result (heap * files * log) :=
  do (h1, chats, (_, extracted_target_name), log1) <- load_chats input export h;
  let target_name := name_or target_name extracted_target_name in
  let log2 := log1 ++ [(INFO, "Preparing dataset for user with name '"
                               +++ str_of_name target_name +++ "'...")] in
  do cutoff_date <- cutoff_of now last_x_months;
  let chats := date_filter h1 cutoff_date chats in
  let log3 := log2 ++ [(INFO, "After filtering by date, there are "
                               +++ str_of_nat (List.length chats) +++ " chats left")] in
  do (h2, chats) <- process_chats target_name session_minutes_threshold
                      concat_one_user_messages_delimeter h1 chats;
  let fs1 := write_sessions fs output h2 chats in
  let log4 := log3 ++ [(INFO, "Took " +++ str_of_nat (List.length (all_sessions chats))
                               +++ " chat sessions and wrote them to '"
                               +++ output +++ "'.")] in
  Ok (h2, fs1, log4).

(** ** The inlined variant of [src/src/prepare_data.py] *)

Module Legacy.

(** The comprehension of lines 94-98 reads the clock once per message:
    [clock n] is the value of the [n]-th call of [datetime.now()]. *)
Fixpoint filter_messages (h : heap) (clock : nat -> datetime) (last_x_months : Z)
    (tick : nat) (msgs : list ref) : result (nat * list ref) :=
  match msgs with
  | [] => Ok (tick, [])
  | msg :: rest =>
      do cutoff <- cutoff_of (clock tick) last_x_months;
      do (tick1, kept) <- filter_messages h clock last_x_months (S tick) rest;
      Ok (tick1, if newer_than h cutoff msg then msg :: kept else kept)
  end.

(** The [for chat in chats] loop of lines 93-98. *)
Fixpoint filter_chats (h : heap) (clock : nat -> datetime) (last_x_months : Z)
    (tick : nat) (chats : list Chat) : result (nat * list Chat) :=
  match chats with
  | [] => Ok (tick, [])
  | chat :: rest =>
      do (tick1, kept) <- filter_messages h clock last_x_months tick (messages chat);
      do (tick2, rest') <- filter_chats h clock last_x_months tick1 rest;
      Ok (tick2,
          {| name := name chat; type := type chat; messages := kept;
             sessions := sessions chat |} :: rest')
  end.

Definition has_messages (chat : Chat) : bool :=
  match messages chat with [] => false | _ :: _ => true end.

(** Lines 93-99. *)
Definition date_filter (h : heap) (clock : nat -> datetime) (last_x_months : Z)
    (tick : nat) (chats : list Chat) : result (nat * list Chat) :=
  do (tick1, chats1) <- filter_chats h clock last_x_months tick chats;
  Ok (tick1, filter has_messages chats1).

(** Lines 104-119: the loop is, statement for statement, the one of
    [create_sessions]. *)
Definition segment_chats (h : heap) (session_minutes_threshold : Z)
    (chats : list Chat) : list Chat :=
  map (fun chat =>
         set_sessions chat
           (create_sessions h (messages chat) session_minutes_threshold))
      chats.

(** Lines 123-145: the loop over the sessions of a chat is, statement for
    statement, the one of [combine_consecutive_messages]. *)
Fixpoint merge_chats (delimiter : string) (h : heap) (chats : list Chat)
    : result (heap * list Chat) :=
  match chats with
  | [] => Ok (h, [])
  | chat :: rest =>
      do (h1, merged) <- combine_consecutive_messages h (sessions chat) delimiter;
      do (h2, rest') <- merge_chats delimiter h1 rest;
      Ok (h2, set_sessions chat merged :: rest')
  end.

(** Lines 150-155. *)
Definition keep_target_sessions (h : heap) (target_name : option string)
    (chats : list Chat) : list Chat :=
  map (fun chat =>
         set_sessions chat (filter (has_target h target_name) (sessions chat)))
      chats.

(** Lines 158-161: [del msg.date] for the messages of every session, in
    order.  The store keeps the value the attribute had; [dateless] lists the
    messages whose attribute is gone, and deleting it again is the
    [AttributeError] of Python, here [None]. *)
Fixpoint del_dates (dateless : list ref) (msgs : list ref) : option (list ref) :=
  match msgs with
  | [] => Some dateless
  | msg :: rest =>
      if existsb (Nat.eqb msg) dateless then None
      else del_dates (msg :: dateless) rest
  end.

(** Lines 186-188: one [write] for each record. *)
Fixpoint write_lines (fs : files) (path : string) (session_dicts : list string)
    : files :=
  match session_dicts with
  | [] => fs
  | d :: rest => write_lines (write fs path (json_dump_text d +++ newline)) path rest
  end.

Inductive outcome (A : Type) : Type :=
| Done (a : A)
| Failed (e : exn)
| AttributeError.

Arguments Done {A} a.
Arguments Failed {A} e.
Arguments AttributeError {A}.

Definition run {A B : Type} (c : result A) (k : A -> outcome B) : outcome B :=
  match c with
  | Ok a => k a
  | Raise e => Failed e
  end.

(** [transform_chats] of [src/src/prepare_data.py]. *)
Definition transform_chats (input output : string) (export : list RawChat)
    (h : heap) (fs : files) (clock : nat -> datetime) (tick : nat)
    (target_name : option string) (last_x_months session_minutes_threshold : Z)
    (concat_one_user_messages_delimeter : string)
    : outcome (heap * files * list ref * log) :=
  run (load_chats input export h) (fun '(h1, chats, (_, extracted_target_name), log1) =>
  let target_name := name_or target_name extracted_target_name in
  let log2 := log1 ++ [(INFO, "Preparing dataset for user with name '"
                               +++ str_of_name target_name +++ "'...")] in
  run (date_filter h1 clock last_x_months tick chats) (fun '(_, chats) =>
  let log3 := log2 ++ [(INFO, "After filtering by date, there are "
                               +++ str_of_nat (List.length chats) +++ " chats left")] in
  let chats := segment_chats h1 session_minutes_threshold chats in
  let log4 := log3 ++ [(INFO, "Combined messages into sessions"%string)] in
  run (merge_chats concat_one_user_messages_delimeter h1 chats) (fun '(h2, chats) =>
  let log5 := log4 ++ [(INFO, "Combined consecutive messages from single user into one message"%string)] in
  let chats := keep_target_sessions h2 target_name chats in
  match del_dates [] (List.concat (all_sessions chats)) with
  | None => AttributeError
  | Some dateless =>
      let session_dicts := map (format_session h2) (all_sessions chats) in
      let fs1 := write_lines (open_w fs output) output session_dicts in
      let log6 := log5 ++ [(INFO, "Took "
                                   +++ str_of_nat (List.length (all_sessions chats))
                                   +++ " chat sessions and wrote them to '"
                                   +++ output +++ "'.")] in
      Done (h2, fs1, dateless, log6)
  end))).

End Legacy.

(** ** Notions used to state the properties *)

(** The elapsed time between two messages is below [threshold] minutes. *)
Definition elapsed_lt (h : heap) (prev msg : ref) (threshold : Z) : bool :=
  date (deref h msg) - date (deref h prev) <? threshold * 60 * us_per_second.

(** The gap between two messages, in whole minutes. *)
Definition gap_is_minutes (h : heap) (prev msg : ref) (n : Z) : Prop :=
  date (deref h msg) - date (deref h prev) = n * 60 * us_per_second.

Definition author_of (h : heap) (r : ref) : string := author (deref h r).

(** Adjacent messages have different authors. *)
Fixpoint alternating (h : heap) (s : session) : Prop :=
  match s with
  | [] => True
  | a :: s' =>
      match s' with
      | [] => True
      | b :: _ => author_of h a <> author_of h b
      end /\ alternating h s'
  end.

(** The merge-runs of a session: its maximal runs of messages of one author.
    [runs_from h a rest] is the remainder of the run of author [a] that is
    under way, and the runs after it. *)
Fixpoint runs_from (h : heap) (a : string) (rest : list ref)
    : list ref * list (list ref) :=
  match rest with
  | [] => ([], [])
  | msg :: rest' =>
      if String.eqb (author_of h msg) a
      then let '(run, later) := runs_from h a rest' in (msg :: run, later)
      else let '(run, later) := runs_from h (author_of h msg) rest' in
           ([], (msg :: run) :: later)
  end.

Definition merge_runs (h : heap) (s : session) : list (list ref) :=
  match s with
  | [] => []
  | first :: rest =>
      let '(run, later) := runs_from h (author_of h first) rest in
      (first :: run) :: later
  end.

Definition first_of (run : list ref) : ref := hd O run.

(** A run: not empty, and all of the author of its first member. *)
Definition is_run (h : heap) (run : list ref) : Prop :=
  run <> [] /\ Forall (fun r => author_of h r = author_of h (first_of run)) run.

(** [p] prepended [n] times. *)
Definition prepend_times (n : nat) (p s : string) : string :=
  Nat.iter n (String.append p) s.

(** The complete lines of a text, and what follows the last newline. *)
Fixpoint split_lines (s : string) : list string * string :=
  match s with
  | EmptyString => ([], EmptyString)
  | String c s' =>
      let '(ls, rest) := split_lines s' in
      if Nat.eqb (nat_of_ascii c) 10 then (EmptyString :: ls, rest)
      else
        match ls with
        | [] => ([], String c rest)
        | l :: ls' => (String c l :: ls', rest)
        end
  end.

(** The lines the writer produces for a list of sessions. *)
Definition jsonl_lines (h : heap) (ss : list session) : list string :=
  map (fun s => json_dump_text (format_session h s)) ss.

Definition jsonl_text (h : heap) (ss : list session) : string :=
  String.concat EmptyString (map (fun l => l +++ newline) (jsonl_lines h ss)).

(** A store built from a list of messages, the [n]-th at reference [n]. *)
Definition heap_of_list (ms : list Message) : heap :=
  {| cells := fun r => nth r ms empty_message; fresh := List.length ms |}.

(** Two stores that differ in the texts of messages at most. *)
Definition same_but_text (h h' : heap) : Prop :=
  forall r, author (deref h' r) = author (deref h r)
            /\ date (deref h' r) = date (deref h r).

(** The stripped delimiter put in front of the text of each message of a
    list, one after the other. *)
Definition prefix_session (delimiter : string) (h : heap) (s : session) : heap :=
  fold_left (fun h0 r => set_text h0 r (lstrip delimiter +++ text (deref h0 r))) s h.

Definition prefix_sessions (delimiter : string) (h : heap) (ss : list session) : heap :=
  fold_left (prefix_session delimiter) ss h.

(** A newline character occurs in a text. *)
Fixpoint has_newline (s : string) : bool :=
  match s with
  | EmptyString => false
  | String c s' => Nat.eqb (nat_of_ascii c) 10 || has_newline s'
  end.

(** A chat with its messages replaced. *)
Definition with_messages (chat : Chat) (ms : list ref) : Chat :=
  {| name := name chat; type := type chat; messages := ms; sessions := sessions chat |}.

(** What the date filter is to compute for a cutoff. *)
Definition newer_chats (h : heap) (cutoff_date : datetime) (chats : list Chat)
    : list Chat :=
  filter Legacy.has_messages
    (map (fun chat =>
            with_messages chat (filter (newer_than h cutoff_date) (messages chat)))
         chats).

(** ** Concrete inputs used below *)

Definition minutes (n : Z) : Z := n * 60 * us_per_second.

(** 2023-01-01T12:00:00, as an instant. *)
Definition noon : datetime := 738520 * us_per_day + 43200 * us_per_second.

Definition marker : string := newline +++ ">>>".

(** Two messages a day and a minute apart. *)
Definition long_silence : heap :=
  heap_of_list
    [ {| date := noon; author := "Bob"; text := "good night" |};
      {| date := noon + minutes 1441; author := "Alice"; text := "good morning" |} ].

(** Two messages exactly one day apart. *)
Definition one_day_apart : heap :=
  heap_of_list
    [ {| date := noon; author := "Bob"; text := "see you" |};
      {| date := noon + minutes 1440; author := "Alice"; text := "hello again" |} ].

(** The second scenario of the specification. *)
Definition short_talk : heap :=
  heap_of_list
    [ {| date := noon; author := "Bob"; text := "hey" |};
      {| date := noon + minutes 1; author := "Bob"; text := "you there?" |};
      {| date := noon + minutes 2; author := "Alice"; text := "yes" |} ].

(** An entry without a name (the owner's saved messages) whose only message
    bears the sender identifier of someone else. *)
Definition saved_without_own : RawChat :=
  {| raw_name := None;
     raw_id := 42;
     raw_type := "saved_messages";
     raw_messages :=
       [ {| raw_date := noon;
            raw_from := Some (Some "Carol"%string);
            raw_from_id := Some "user7"%string;
            raw_text_entities := [ {| entity_text := "note" |} ];
            raw_sticker_emoji := None |} ] |}.

Definition recent_chat : Chat :=
  {| name := "Bob"; type := personal_chat; messages := [0%nat; 1%nat; 2%nat];
     sessions := [] |}.

Definition no_files : files := fun _ => None.

(** ** The model chooser and the streaming of [src/src/gui.py] and
    [src/src/serve.py]

    What these files compute themselves is embedded; the volumes, the
    directory listing and the remote model are inputs: the paths that [glob]
    returns and the chunks that the remote generator delivers. *)

(** [s.split(sep)] for a separator of one character. *)
Fixpoint split_on (sep : ascii) (s : string) : list string :=
  match s with
  | EmptyString => [EmptyString]
  | String c s' =>
      if Ascii.eqb c sep then EmptyString :: split_on sep s'
      else
        match split_on sep s' with
        | [] => [String c EmptyString]
        | p :: ps => String c p :: ps
        end
  end.

Definition slash : ascii := ascii_of_nat 47.
Definition at_sign : ascii := ascii_of_nat 64.

(** [f"{choice.split('/')[2]}@{choice}"] (gui.py, line 47). *)
Definition model_label (choice : string) : result string :=
  match nth_error (split_on slash choice) 2 with
  | Some dir => Ok (dir +++ String at_sign choice)
  | None => Raise IndexError
  end.

Fixpoint model_labels (choices : list string) : result (list string) :=
  match choices with
  | [] => Ok []
  | choice :: rest =>
      do label <- model_label choice;
      do labels <- model_labels rest;
      Ok (label :: labels)
  end.

(** [sorted] on strings, which Python orders by code points. *)
Fixpoint insert_sorted (x : string) (l : list string) : list string :=
  match l with
  | [] => [x]
  | y :: l' => if String.leb x y then x :: l else y :: insert_sorted x l'
  end.

Fixpoint sorted (l : list string) : list string :=
  match l with
  | [] => []
  | x :: l' => insert_sorted x (sorted l')
  end.

(** [get_model_choices] (gui.py, lines 40-48), for the results of the two
    calls of [glob]. *)
Definition get_model_choices (runs pretrained : list string) : result (list string) :=
  do choices <- model_labels (runs ++ pretrained);
  Ok (rev (sorted choices)).

(** [model.split("@")[-1]], the path that [process_inference] passes on
    (gui.py, line 32). *)
Definition model_path (model : string) : string :=
  last (split_on at_sign model) EmptyString.

(** The texts that [process_inference] yields for the chunks received
    (gui.py, lines 28-38). *)
Fixpoint running_texts (text : string) (chunks : list string) : list string :=
  match chunks with
  | [] => []
  | chunk :: rest => (text +++ chunk) :: running_texts (text +++ chunk) rest
  end.

Definition process_inference (input_text : string) (chunks : list string)
    : list string :=
  (input_text +++ "... (model loading)") :: running_texts input_text chunks.

(** One event of the stream of [completion] (serve.py, line 56). *)
Definition sse_event (chunk : string) : string :=
  "data: " +++ json_dump_text chunk +++ newline +++ newline.

(** The stream of [generate] for the chunks received. *)
Definition sse_stream (chunks : list string) : string :=
  String.concat EmptyString (map sse_event chunks).

(** No character of a text is a control character (a code below 32). *)
Fixpoint no_control (s : string) : bool :=
  match s with
  | EmptyString => true
  | String c s' => negb (nat_of_ascii c <? 32)%nat && no_control s'
  end.

(** A character occurs in a text. *)
Fixpoint occurs (c : ascii) (s : string) : bool :=
  match s with
  | EmptyString => false
  | String x s' => Ascii.eqb x c || occurs c s'
  end.

(** ** Further notions: sessions and merged texts *)

(** Every message of a session but the first passes the gap test of the code
    against the message before it. *)
Fixpoint chained (h : heap) (threshold : Z) (s : session) : Prop :=
  match s with
  | [] => True
  | a :: s' =>
      match s' with
      | [] => True
      | b :: _ => extends_session h a b threshold = true
      end /\ chained h threshold s'
  end.

(** The first message of every session but the first fails the gap test
    against the last message of the session before it. *)
Fixpoint separated (h : heap) (threshold : Z) (ss : list session) : Prop :=
  match ss with
  | [] => True
  | s1 :: ss' =>
      match ss' with
      | [] => True
      | s2 :: _ => extends_session h (last s1 O) (first_of s2) threshold = false
      end /\ separated h threshold ss'
  end.

(** The text the merger gives to the first message of a merge-run: the
    stripped delimiter, then the texts of the run joined by the delimiter. *)
Definition run_text (delimiter : string) (h : heap) (run : list ref) : string :=
  lstrip delimiter +++ String.concat delimiter (map (fun r => text (deref h r)) run).

(** The texts of a list of messages, each after the delimiter. *)
Definition tail_text (delimiter : string) (h : heap) (run : list ref) : string :=
  String.concat EmptyString (map (fun r => delimiter +++ text (deref h r)) run).

(** [l1] is [l2] with some elements left out. *)
Inductive subseq {A : Type} : list A -> list A -> Prop :=
| subseq_nil : subseq [] []
| subseq_skip (x : A) (l1 l2 : list A) : subseq l1 l2 -> subseq l1 (x :: l2)
| subseq_keep (x : A) (l1 l2 : list A) : subseq l1 l2 -> subseq (x :: l1) (x :: l2).

(** ** Further notions: reading a JSON string back

    A reader for the JSON string syntax (RFC 8259, section 7), used to state
    what the writer's lines decode to.  [json_read_string s] reads the inside
    of a string up to its closing quote and returns the decoded text and what
    follows the quote; escapes of code points of 256 and more are outside the
    characters modelled here and are refused. *)

Definition hex_value (c : ascii) : option nat :=
  let n := nat_of_ascii c in
  if ((48 <=? n) && (n <=? 57))%nat then Some (n - 48)%nat
  else if ((97 <=? n) && (n <=? 102))%nat then Some (n - 87)%nat
  else if ((65 <=? n) && (n <=? 70))%nat then Some (n - 55)%nat
  else None.

Definition hex4_value (a b c d : ascii) : option nat :=
  match hex_value a, hex_value b, hex_value c, hex_value d with
  | Some x, Some y, Some z, Some w => Some (((x * 16 + y) * 16 + z) * 16 + w)%nat
  | _, _, _, _ => None
  end.

Definition read_more (c : ascii) (r : option (string * string))
    : option (string * string) :=
  match r with
  | Some (t, rest) => Some (String c t, rest)
  | None => None
  end.

Fixpoint json_read_string (s : string) : option (string * string) :=
  match s with
  | EmptyString => None
  | String c s1 =>
      let n := nat_of_ascii c in
      if Nat.eqb n 34 then Some (EmptyString, s1)
      else if Nat.eqb n 92 then
        match s1 with
        | EmptyString => None
        | String e s2 =>
            let k := nat_of_ascii e in
            if Nat.eqb k 34 then read_more (ascii_of_nat 34) (json_read_string s2)
            else if Nat.eqb k 92 then read_more (ascii_of_nat 92) (json_read_string s2)
            else if Nat.eqb k 47 then read_more (ascii_of_nat 47) (json_read_string s2)
            else if Nat.eqb k 98 then read_more (ascii_of_nat 8) (json_read_string s2)
            else if Nat.eqb k 102 then read_more (ascii_of_nat 12) (json_read_string s2)
            else if Nat.eqb k 110 then read_more (ascii_of_nat 10) (json_read_string s2)
            else if Nat.eqb k 114 then read_more (ascii_of_nat 13) (json_read_string s2)
            else if Nat.eqb k 116 then read_more (ascii_of_nat 9) (json_read_string s2)
            else if Nat.eqb k 117 then
              match s2 with
              | String a (String b (String x (String y s6))) =>
                  match hex4_value a b x y with
                  | Some v =>
                      if (v <? 256)%nat
                      then read_more (ascii_of_nat v) (json_read_string s6)
                      else None
                  | None => None
                  end
              | _ => None
              end
            else None
        end
      else if (n <? 32)%nat then None
      else read_more c (json_read_string s1)
  end.

Fixpoint strip_prefix (p s : string) : option string :=
  match p with
  | EmptyString => Some s
  | String a p' =>
      match s with
      | EmptyString => None
      | String b s' => if Ascii.eqb a b then strip_prefix p' s' else None
      end
  end.

(** The text of a line of the form [{"text": "..."}], as the writer lays it
    out. *)
Definition read_text_record (line : string) : option string :=
  match strip_prefix ("{" +++ dquote +++ "text" +++ dquote +++ ": " +++ dquote) line with
  | Some body =>
      match json_read_string body with
      | Some (t, rest) => if String.eqb rest "}" then Some t else None
      | None => None
      end
  | None => None
  end.

(** ** Further notions: what the loader reads from an export *)

(** The message a record of the export gives, when it gives one. *)
Definition message_of_raw (msg : RawMessage) : option Message :=
  match usable_author msg with
  | Some a => Some {| date := raw_date msg; author := a; text := message_text msg |}
  | None => None
  end.

Fixpoint usable_messages (msgs : list RawMessage) : list Message :=
  match msgs with
  | [] => []
  | msg :: rest =>
      match message_of_raw msg with
      | Some m => m :: usable_messages rest
      | None => usable_messages rest
      end
  end.

Definition chat_type_name (ty : chat_type) : string :=
  match ty with
  | personal_chat => "personal_chat"
  | private_group => "private_group"
  | private_supergroup => "private_supergroup"
  end.

(** The chat an entry of the export gives, as name, type and messages; no
    chat for the entry without a name, for a deleted account, and for an
    entry without a usable message. *)
Definition loaded_chat (chat : RawChat) : list (string * string * list Message) :=
  match raw_name chat with
  | Some (Some nm) =>
      if is_empty_string nm then []
      else
        match usable_messages (raw_messages chat) with
        | [] => []
        | m :: ms => [(nm, raw_type chat, m :: ms)]
        end
  | _ => []
  end.

(** A chat of the loader seen through the store. *)
Definition chat_view (h : heap) (chat : Chat) : string * string * list Message :=
  (name chat, chat_type_name (type chat), map (deref h) (messages chat)).

(** The first message of an entry whose sender identifier is the owner's. *)
Definition own_message (chat : RawChat) : option RawMessage :=
  find (fun m =>
          match raw_from_id m with
          | Some fid => String.eqb fid ("user" +++ str_of_Z (raw_id chat))
          | None => false
          end)
       (raw_messages chat).

(** An entry the loader passes over: a deleted account, or a chat none of
    whose records is usable. *)
Definition passed_over (chat : RawChat) : Prop :=
  match raw_name chat with
  | None => False
  | Some None => True
  | Some (Some nm) => nm = EmptyString \/ usable_messages (raw_messages chat) = []
  end.

Definition initial_state (h : heap) : loader_state :=
  {| ld_heap := h; ld_chats := []; ld_target_id := None; ld_target_name := None |}.

(** What the loader has built after a part of the export. *)
Record loaded (h0 : heap) (done : list RawChat) (st : loader_state) : Prop := {
  loaded_views :
    map (chat_view (ld_heap st)) (ld_chats st) = flat_map loaded_chat done;
  loaded_refs :
    List.concat (map messages (ld_chats st)) =
    seq (fresh h0) (fresh (ld_heap st) - fresh h0);
  loaded_fresh : (fresh h0 <= fresh (ld_heap st))%nat;
  loaded_frame : forall r, (r < fresh h0)%nat -> deref (ld_heap st) r = deref h0 r;
  loaded_sessions : Forall (fun c => sessions c = []) (ld_chats st)
}.

(** ** Further concrete inputs *)

Definition raw_text_message (d : datetime) (sender sender_id body : string)
    : RawMessage :=
  {| raw_date := d;
     raw_from := Some (Some sender);
     raw_from_id := Some sender_id;
     raw_text_entities := [ {| entity_text := body |} ];
     raw_sticker_emoji := None |}.

(** The owner's saved messages, with a note of the owner. *)
Definition saved_messages : RawChat :=
  {| raw_name := None;
     raw_id := 42;
     raw_type := "saved_messages";
     raw_messages := [ raw_text_message noon "Alice" "user42" "note" ] |}.

Definition bob_chat : RawChat :=
  {| raw_name := Some (Some "Bob"%string);
     raw_id := 7;
     raw_type := "personal_chat";
     raw_messages :=
       [ raw_text_message noon "Bob" "user7" "hey";
         raw_text_message (noon + minutes 1) "Bob" "user7" "you there?";
         raw_text_message (noon + minutes 2) "Alice" "user42" "yes" ] |}.

Definition deleted_account : RawChat :=
  {| raw_name := Some None;
     raw_id := 9;
     raw_type := "personal_chat";
     raw_messages := [ raw_text_message noon "Alice" "user42" "hello?" ] |}.

Definition bot_chat : RawChat :=
  {| raw_name := Some (Some "Weather"%string);
     raw_id := 11;
     raw_type := "bot_chat";
     raw_messages := [ raw_text_message noon "Weather" "user11" "sunny" ] |}.

(** Saved messages that begin with a service record, which has no sender
    identifier. *)
Definition saved_with_service : RawChat :=
  {| raw_name := None;
     raw_id := 42;
     raw_type := "saved_messages";
     raw_messages :=
       [ {| raw_date := noon; raw_from := None; raw_from_id := None;
            raw_text_entities := []; raw_sticker_emoji := None |};
         raw_text_message noon "Alice" "user42" "note" ] |}.

Definition small_export : list RawChat := [saved_messages; bob_chat].

(** ** Further notions: the loader's result, written out

    What the loader is to read from an export, stated on the records
    themselves and without the functions the loader is built from: a record
    is kept when its sender is a text that is not empty and it has a text
    fragment or a sticker emoji; its text is its fragments put end to end
    followed by the emoji. *)

Definition record_sender (msg : RawMessage) : option string :=
  match raw_from msg with
  | Some (Some (String c a)) => Some (String c a)
  | _ => None
  end.

Definition record_has_content (msg : RawMessage) : bool :=
  match raw_text_entities msg, raw_sticker_emoji msg with
  | [], None => false
  | _, _ => true
  end.

Fixpoint fragments_text (fragments : list RawTextEntity) : string :=
  match fragments with
  | [] => EmptyString
  | fragment :: rest => entity_text fragment +++ fragments_text rest
  end.

Definition record_text (msg : RawMessage) : string :=
  match raw_sticker_emoji msg with
  | Some emoji => fragments_text (raw_text_entities msg) +++ emoji
  | None => fragments_text (raw_text_entities msg)
  end.

Fixpoint expected_messages (msgs : list RawMessage) : list Message :=
  match msgs with
  | [] => []
  | msg :: rest =>
      match record_sender msg with
      | Some sender =>
          if record_has_content msg
          then {| date := raw_date msg; author := sender; text := record_text msg |}
               :: expected_messages rest
          else expected_messages rest
      | None => expected_messages rest
      end
  end.

Fixpoint expected_chats (export : list RawChat)
    : list (string * string * list Message) :=
  match export with
  | [] => []
  | chat :: rest =>
      match raw_name chat with
      | Some (Some (String c nm)) =>
          match expected_messages (raw_messages chat) with
          | [] => expected_chats rest
          | m :: ms => (String c nm, raw_type chat, m :: ms) :: expected_chats rest
          end
      | _ => expected_chats rest
      end
  end.

(** * Properties *)

(** ** The store *)

Lemma deref_set_text_author h r t x :
  author (deref (set_text h r t) x) = author (deref h x).
Proof.
  unfold set_text, store, deref; simpl.
  destruct (Nat.eqb_spec x r) as [-> | _]; reflexivity.
Qed.

Lemma deref_set_text_date h r t x :
  date (deref (set_text h r t) x) = date (deref h x).
Proof.
  unfold set_text, store, deref; simpl.
  destruct (Nat.eqb_spec x r) as [-> | _]; reflexivity.
Qed.

Lemma deref_set_text_same h r t : text (deref (set_text h r t) r) = t.
Proof.
  unfold set_text, store, deref; simpl. now rewrite Nat.eqb_refl.
Qed.

Lemma deref_set_text_other h r t x :
  x <> r -> text (deref (set_text h r t) x) = text (deref h x).
Proof.
  intros Hx. unfold set_text, store, deref; simpl.
  destruct (Nat.eqb_spec x r); [contradiction | reflexivity].
Qed.

(** ** The gap test of the segmenter *)

Lemma us_per_day_pos : 0 < us_per_day.
Proof. reflexivity. Qed.

Lemma seconds_range a b : 0 <= seconds (datetime_sub a b) < 86400.
Proof.
  unfold datetime_sub; simpl.
  pose proof (Z.mod_pos_bound (a - b) us_per_day us_per_day_pos) as Hm.
  unfold us_per_day, us_per_second in *.
  split.
  - apply Z.div_pos; lia.
  - apply Z.div_lt_upper_bound; lia.
Qed.

(** The duration is the difference of the instants: nothing is lost by the
    normalisation itself. *)
Lemma total_microseconds_sub a b : total_microseconds (datetime_sub a b) = a - b.
Proof.
  unfold total_microseconds, datetime_sub; simpl.
  assert (Hd : us_per_day = 86400 * us_per_second) by reflexivity.
  assert (Hs : 0 < us_per_second) by reflexivity.
  pose proof (Z.div_mod (a - b) us_per_day ltac:(discriminate)) as H1.
  pose proof (Z.div_mod ((a - b) mod us_per_day) us_per_second ltac:(discriminate)) as H2.
  assert (H3 : ((a - b) mod us_per_day) mod us_per_second = (a - b) mod us_per_second).
  { apply Z.mod_mod_divide. exists 86400. reflexivity. }
  rewrite H3 in H2. lia.
Qed.

(** For a gap of less than a day the test of the code is the comparison of
    the elapsed time with the threshold. *)
Lemma extends_session_within_day h prev msg threshold :
  0 <= date (deref h msg) - date (deref h prev) < us_per_day ->
  extends_session h prev msg threshold = elapsed_lt h prev msg threshold.
Proof.
  intros Hgap. unfold extends_session, elapsed_lt, minutes_lt, datetime_sub.
  cbn [seconds].
  set (g := date (deref h msg) - date (deref h prev)) in *.
  rewrite Z.mod_small by exact Hgap.
  assert (Hs : 0 < us_per_second) by reflexivity.
  pose proof (Z.div_mod g us_per_second ltac:(discriminate)) as Hdm.
  pose proof (Z.mod_pos_bound g us_per_second Hs) as Hb.
  unfold us_per_second in *.
  apply eq_true_iff_eq. rewrite !Z.ltb_lt. lia.
Qed.

(** Whole days of silence are invisible to the test of the code. *)
Lemma extends_session_ignores_days h prev msg msg' threshold k :
  date (deref h msg') = date (deref h msg) + k * us_per_day ->
  extends_session h prev msg' threshold = extends_session h prev msg threshold.
Proof.
  intros Hk. unfold extends_session, datetime_sub. cbn [seconds]. rewrite Hk.
  replace (date (deref h msg) + k * us_per_day - date (deref h prev))
    with (date (deref h msg) - date (deref h prev) + k * us_per_day) by ring.
  rewrite Z.mod_add by discriminate. reflexivity.
Qed.

(** With a threshold of a day or more every message extends the session. *)
Lemma extends_session_large_threshold h prev msg threshold :
  1440 <= threshold -> extends_session h prev msg threshold = true.
Proof.
  intros Ht. unfold extends_session, minutes_lt.
  pose proof (seconds_range (date (deref h msg)) (date (deref h prev))).
  apply Z.ltb_lt. lia.
Qed.

(** ** The segmentation loop *)

Lemma sessions_loop_concat h threshold msgs :
  forall ss cur ss' cur',
    sessions_loop h threshold msgs ss cur = (ss', cur') ->
    List.concat ss' ++ cur' = List.concat ss ++ cur ++ msgs.
Proof.
  induction msgs as [| msg rest IH]; intros ss cur ss' cur' Hrun; simpl in Hrun.
  - inversion Hrun; subst. now rewrite app_nil_r.
  - destruct cur as [| c cur0].
    + apply IH in Hrun. exact Hrun.
    + destruct (extends_session h (last (c :: cur0) msg) msg threshold).
      * apply IH in Hrun. rewrite Hrun. now rewrite <- app_assoc.
      * apply IH in Hrun. rewrite Hrun.
        rewrite concat_app. simpl. now rewrite app_nil_r, <- app_assoc.
Qed.

Lemma sessions_loop_nonempty h threshold msgs :
  forall ss cur ss' cur',
    sessions_loop h threshold msgs ss cur = (ss', cur') ->
    Forall (fun s => s <> []) ss ->
    Forall (fun s => s <> []) ss' /\ (cur <> [] \/ msgs <> [] -> cur' <> []).
Proof.
  induction msgs as [| msg rest IH]; intros ss cur ss' cur' Hrun Hss; simpl in Hrun.
  - inversion Hrun; subst. split; [exact Hss |]. intros [H | H]; congruence.
  - destruct cur as [| c cur0].
    + apply IH in Hrun; [| exact Hss]. destruct Hrun as [H1 H2].
      split; [exact H1 |]. intros _. apply H2. left. discriminate.
    + destruct (extends_session h (last (c :: cur0) msg) msg threshold).
      * apply IH in Hrun; [| exact Hss]. destruct Hrun as [H1 H2].
        split; [exact H1 |]. intros _. apply H2. left. discriminate.
      * apply IH in Hrun.
        -- destruct Hrun as [H1 H2].
           split; [exact H1 |]. intros _. apply H2. left. discriminate.
        -- apply Forall_app. split; [exact Hss |].
           constructor; [discriminate | constructor].
Qed.

Lemma create_sessions_concat h msgs threshold :
  List.concat (create_sessions h msgs threshold) = msgs.
Proof.
  unfold create_sessions.
  destruct (sessions_loop h threshold msgs [] []) as [ss cur] eqn:Hrun.
  apply sessions_loop_concat in Hrun. simpl in Hrun.
  destruct cur as [| c cur0].
  - now rewrite app_nil_r in Hrun.
  - rewrite concat_app. simpl. now rewrite app_nil_r.
Qed.

Lemma create_sessions_nonempty h msgs threshold :
  Forall (fun s => s <> []) (create_sessions h msgs threshold).
Proof.
  unfold create_sessions.
  destruct (sessions_loop h threshold msgs [] []) as [ss cur] eqn:Hrun.
  apply sessions_loop_nonempty in Hrun; [| constructor].
  destruct Hrun as [Hss _].
  destruct cur as [| c cur0]; [exact Hss |].
  apply Forall_app. split; [exact Hss |]. constructor; [discriminate | constructor].
Qed.

(** One round of the loop, for a session under way whose last message is
    [prev]: the decision is the test [extends_session] on [prev] and [msg]. *)
Lemma sessions_loop_step h threshold msg rest ss cur prev :
  sessions_loop h threshold (msg :: rest) ss (cur ++ [prev]) =
  if extends_session h prev msg threshold
  then sessions_loop h threshold rest ss ((cur ++ [prev]) ++ [msg])
  else sessions_loop h threshold rest (ss ++ [cur ++ [prev]]) [msg].
Proof.
  simpl. destruct (cur ++ [prev]) as [| c cur0] eqn:Hcur.
  - destruct cur; discriminate.
  - rewrite <- Hcur. rewrite last_last. reflexivity.
Qed.

Lemma create_sessions_pair h a b threshold :
  create_sessions h [a; b] threshold =
  if extends_session h a b threshold then [[a; b]] else [[a]; [b]].
Proof.
  unfold create_sessions. simpl.
  destruct (extends_session h a b threshold); reflexivity.
Qed.

(** Where the boundary is the one of the specification: a gap of exactly
    [threshold] minutes closes the session for every threshold below a day,
    and a gap one minute shorter keeps it open for every threshold of a
    minute or more. *)
Lemma gap_of_threshold_closes h prev msg threshold :
  threshold < 1440 ->
  gap_is_minutes h prev msg threshold ->
  extends_session h prev msg threshold = false.
Proof.
  unfold gap_is_minutes. intros Ht Hgap.
  destruct (Z.le_gt_cases 0 threshold) as [Hpos | Hneg].
  - rewrite extends_session_within_day.
    + unfold elapsed_lt. rewrite Hgap. apply Z.ltb_irrefl.
    + rewrite Hgap. unfold us_per_day, us_per_second. lia.
  - unfold extends_session, minutes_lt.
    pose proof (seconds_range (date (deref h msg)) (date (deref h prev))).
    apply Z.ltb_ge. lia.
Qed.

Lemma gap_below_threshold_extends h prev msg threshold :
  1 <= threshold ->
  gap_is_minutes h prev msg (threshold - 1) ->
  extends_session h prev msg threshold = true.
Proof.
  unfold gap_is_minutes. intros Ht Hgap.
  unfold extends_session, minutes_lt, datetime_sub. cbn [seconds]. rewrite Hgap.
  apply Z.ltb_lt.
  assert (Hle : ((threshold - 1) * 60 * us_per_second) mod us_per_day
                <= (threshold - 1) * 60 * us_per_second).
  { apply Z.mod_le; unfold us_per_day, us_per_second; lia. }
  assert (Hdiv : ((threshold - 1) * 60 * us_per_second) mod us_per_day / us_per_second
                 <= (threshold - 1) * 60).
  { apply Z.div_le_upper_bound; [reflexivity |].
    unfold us_per_second in *. lia. }
  lia.
Qed.

(** ** Lists of sessions *)

Lemma NoDup_app_disjoint {A : Type} (l1 l2 : list A) (x : A) :
  NoDup (l1 ++ l2) -> In x l1 -> In x l2 -> False.
Proof.
  induction l1 as [| a l1 IH]; simpl; intros Hnd H1 H2.
  - exact H1.
  - inversion Hnd as [| ? ? Hnot Hnd']; subst.
    destruct H1 as [-> | H1].
    + apply Hnot. apply in_or_app. now right.
    + now apply IH.
Qed.

Lemma in_concat_nth {A : Type} (ss : list (list A)) (i : nat) (s : list A) (x : A) :
  nth_error ss i = Some s -> In x s -> In x (List.concat ss).
Proof.
  intros Hnth Hin. apply in_concat. exists s. split; [| exact Hin].
  eapply nth_error_In; eassumption.
Qed.

(** In a list of sessions without a repeated message, a message lies in one
    session only. *)
Lemma concat_NoDup_unique {A : Type} (ss : list (list A)) :
  NoDup (List.concat ss) ->
  forall i j si sj x,
    nth_error ss i = Some si -> nth_error ss j = Some sj ->
    In x si -> In x sj -> i = j.
Proof.
  induction ss as [| s ss IH]; intros Hnd i j si sj x Hi Hj Hxi Hxj.
  - destruct i; discriminate.
  - simpl in Hnd. destruct i as [| i]; destruct j as [| j]; simpl in Hi, Hj.
    + reflexivity.
    + inversion Hi; subst. exfalso.
      eapply NoDup_app_disjoint; [exact Hnd | exact Hxi |].
      eapply in_concat_nth; eassumption.
    + inversion Hj; subst. exfalso.
      eapply NoDup_app_disjoint; [exact Hnd | exact Hxj |].
      eapply in_concat_nth; eassumption.
    + f_equal. eapply IH; eauto. eapply NoDup_app_remove_l; eassumption.
Qed.

Lemma StronglySorted_app_r {A : Type} (R : A -> A -> Prop) (l1 l2 : list A) :
  StronglySorted R (l1 ++ l2) -> StronglySorted R l2.
Proof.
  induction l1 as [| a l1 IH]; simpl; intros H; [exact H |].
  apply StronglySorted_inv in H. apply IH. apply H.
Qed.

(** The first messages of the sessions of a sorted list are sorted. *)
Lemma heads_sorted (R : ref -> ref -> Prop) (ss : list session) :
  Forall (fun s => s <> []) ss ->
  StronglySorted R (List.concat ss) ->
  StronglySorted R (map first_of ss).
Proof.
  induction ss as [| s ss IH]; intros Hne Hsorted; simpl.
  - constructor.
  - inversion Hne as [| ? ? Hs Hne']; subst.
    destruct s as [| a s']; [congruence |].
    simpl in Hsorted. apply StronglySorted_inv in Hsorted.
    destruct Hsorted as [Hrest Hall].
    constructor.
    + apply IH; [exact Hne' |]. eapply StronglySorted_app_r; exact Hrest.
    + apply Forall_forall. intros x Hx.
      apply in_map_iff in Hx. destruct Hx as [t [<- Ht]].
      rewrite Forall_forall in Hall. apply Hall.
      apply in_or_app. right. apply in_concat. exists t. split; [exact Ht |].
      rewrite Forall_forall in Hne'. specialize (Hne' t Ht).
      destruct t; [congruence | now left].
Qed.

(** ** The segmenter: claims *)

(** C1 (found false on the code).  The segmenter is to compare the elapsed
    time between a message and the previous one with the threshold, so that a
    silence of more than a day is never taken for a short one.  The code
    compares the [seconds] field of the difference, which leaves whole days
    out: two messages one day and one minute apart, with a threshold of ten
    minutes, show a field of 60 seconds and are put in one session, although
    1441 minutes went by. *)
Theorem create_sessions_joins_across_days :
  create_sessions long_silence [0%nat; 1%nat] 10 = [[0%nat; 1%nat]]
  /\ gap_is_minutes long_silence 0%nat 1%nat 1441
  /\ elapsed_lt long_silence 0%nat 1%nat 10 = false
  /\ extends_session long_silence 0%nat 1%nat 10 = true
  /\ seconds (datetime_sub (date (deref long_silence 1%nat))
                           (date (deref long_silence 0%nat))) = 60.
Proof. repeat split; vm_compute; reflexivity. Qed.

(** C7.  [create_sessions] returns a partition of its input: the sessions,
    put end to end, are the input list; none is empty; when no message is
    repeated in the input, a message lies in one session only; the first
    messages of the sessions come in the order of the input (chronological
    when the input is); and a lone message makes a session that is kept. *)
Theorem create_sessions_partition (h : heap) (msgs : list ref) (threshold : Z) :
  List.concat (create_sessions h msgs threshold) = msgs
  /\ Forall (fun s => s <> []) (create_sessions h msgs threshold)
  /\ (NoDup msgs ->
      forall i j si sj msg,
        nth_error (create_sessions h msgs threshold) i = Some si ->
        nth_error (create_sessions h msgs threshold) j = Some sj ->
        In msg si -> In msg sj -> i = j)
  /\ (StronglySorted (fun a b => date (deref h a) <= date (deref h b)) msgs ->
      StronglySorted (fun a b => date (deref h a) <= date (deref h b))
        (map first_of (create_sessions h msgs threshold)))
  /\ (forall msg, create_sessions h [msg] threshold = [[msg]]).
Proof.
  pose proof (create_sessions_concat h msgs threshold) as Hcat.
  pose proof (create_sessions_nonempty h msgs threshold) as Hne.
  repeat split.
  - exact Hcat.
  - exact Hne.
  - intros Hnd. apply concat_NoDup_unique. now rewrite Hcat.
  - intros Hsorted. apply heads_sorted; [exact Hne | now rewrite Hcat].
Qed.

(** C8 (found false on the code).  A gap of exactly the threshold is to start
    a new session.  With a threshold of 1440 minutes and two messages exactly
    1440 minutes apart, the [seconds] field of the difference is 0 and the
    code keeps both messages in one session.  The defect is the one of C1. *)
Theorem create_sessions_misses_day_boundary :
  gap_is_minutes one_day_apart 0%nat 1%nat 1440
  /\ extends_session one_day_apart 0%nat 1%nat 1440 = true
  /\ create_sessions one_day_apart [0%nat; 1%nat] 1440 = [[0%nat; 1%nat]].
Proof. repeat split; vm_compute; reflexivity. Qed.

(** ** The merger: what it keeps and what it rewrites *)

Lemma same_but_text_refl h : same_but_text h h.
Proof. intros r. split; reflexivity. Qed.

Lemma same_but_text_trans h1 h2 h3 :
  same_but_text h1 h2 -> same_but_text h2 h3 -> same_but_text h1 h3.
Proof.
  intros H12 H23 r. destruct (H12 r) as [Ha Hd]. destruct (H23 r) as [Ha' Hd'].
  split; congruence.
Qed.

Lemma same_but_text_set_text h r t : same_but_text h (set_text h r t).
Proof.
  intros x. split; [apply deref_set_text_author | apply deref_set_text_date].
Qed.

Lemma same_but_text_author h h' r :
  same_but_text h h' -> author_of h' r = author_of h r.
Proof. intros H. unfold author_of. apply H. Qed.

Lemma author_of_set_text h r t x : author_of (set_text h r t) x = author_of h x.
Proof. apply deref_set_text_author. Qed.

Lemma merge_loop_same_but_text d rest :
  forall h cur acc h' cur' acc',
    merge_loop d rest h cur acc = (h', cur', acc') -> same_but_text h h'.
Proof.
  induction rest as [| msg rest IH]; intros h cur acc h' cur' acc' Hrun; simpl in Hrun.
  - inversion Hrun; subst. apply same_but_text_refl.
  - destruct (String.eqb (author (deref h msg)) (author (deref h cur)));
      apply IH in Hrun;
      (eapply same_but_text_trans; [apply same_but_text_set_text | exact Hrun]).
Qed.

Lemma runs_from_ext h h' a rest :
  same_but_text h h' -> runs_from h' a rest = runs_from h a rest.
Proof.
  intros Hsame. revert a. induction rest as [| msg rest IH]; intros a; simpl.
  - reflexivity.
  - rewrite (same_but_text_author h h' msg Hsame).
    rewrite IH. rewrite IH. reflexivity.
Qed.

(** The messages the loop keeps are the first members of the merge-runs. *)
Lemma merge_loop_heads d rest :
  forall h cur acc h' cur' acc',
    merge_loop d rest h cur acc = (h', cur', acc') ->
    acc' ++ [cur'] =
    acc ++ cur :: map first_of (snd (runs_from h (author_of h cur) rest)).
Proof.
  induction rest as [| msg rest IH]; intros h cur acc h' cur' acc' Hrun; simpl in Hrun.
  - inversion Hrun; subst. reflexivity.
  - simpl. unfold author_of at 1 2.
    destruct (String.eqb (author (deref h msg)) (author (deref h cur))) eqn:Heq.
    + apply IH in Hrun. rewrite Hrun.
      rewrite author_of_set_text.
      rewrite (runs_from_ext h _ _ _ (same_but_text_set_text h cur _)).
      destruct (runs_from h (author_of h cur) rest) as [run later]. reflexivity.
    + apply IH in Hrun. rewrite Hrun.
      rewrite author_of_set_text.
      rewrite (runs_from_ext h _ _ _ (same_but_text_set_text h msg _)).
      fold (author_of h msg).
      destruct (runs_from h (author_of h msg) rest) as [run later]. simpl.
      rewrite <- app_assoc. reflexivity.
Qed.

Lemma combine_session_ok d h first rest :
  exists h',
    combine_session d h (first :: rest) =
      Ok (h', map first_of (merge_runs h (first :: rest)))
    /\ same_but_text h h'.
Proof.
  unfold combine_session.
  set (h1 := set_text h first (lstrip d +++ text (deref h first))).
  destruct (merge_loop d rest h1 first []) as [[h2 cur] acc] eqn:Hrun.
  exists h2. split.
  - f_equal. f_equal.
    apply merge_loop_heads in Hrun. rewrite Hrun. simpl.
    unfold h1. rewrite author_of_set_text.
    rewrite (runs_from_ext h _ _ _ (same_but_text_set_text h first _)).
    destruct (runs_from h (author_of h first) rest) as [run later]. reflexivity.
  - eapply same_but_text_trans; [apply same_but_text_set_text |].
    eapply merge_loop_same_but_text. exact Hrun.
Qed.

Lemma merge_runs_ext h h' s :
  same_but_text h h' -> merge_runs h' s = merge_runs h s.
Proof.
  intros Hsame. destruct s as [| first rest]; simpl; [reflexivity |].
  rewrite (same_but_text_author h h' first Hsame).
  rewrite (runs_from_ext h h' _ _ Hsame). reflexivity.
Qed.

Lemma combine_loop_ok d ss :
  Forall (fun s => s <> []) ss ->
  forall h acc,
  exists h',
    combine_loop d ss h acc =
      Ok (h', acc ++ map (fun s => map first_of (merge_runs h s)) ss)
    /\ same_but_text h h'.
Proof.
  induction 1 as [| s ss Hs Hss IH]; intros h acc; simpl.
  - exists h. rewrite app_nil_r. split; [reflexivity | apply same_but_text_refl].
  - destruct s as [| first rest]; [congruence |].
    destruct (combine_session_ok d h first rest) as [h1 [Hone Hsame1]].
    rewrite Hone. cbn [bind].
    destruct (IH h1 (acc ++ [map first_of (merge_runs h (first :: rest))]))
      as [h2 [Hrest Hsame2]].
    exists h2. split.
    + etransitivity; [exact Hrest |].
      f_equal. f_equal. rewrite <- app_assoc. simpl. f_equal. f_equal.
      apply map_ext. intros s. now rewrite (merge_runs_ext h h1 s Hsame1).
    + eapply same_but_text_trans; eassumption.
Qed.

Lemma combine_loop_raises d ss :
  In [] ss -> forall h acc, combine_loop d ss h acc = Raise IndexError.
Proof.
  induction ss as [| s ss IH]; intros Hin h acc; [destruct Hin |].
  destruct s as [| first rest]; [reflexivity |].
  destruct Hin as [Hin | Hin]; [discriminate |].
  cbn [combine_loop].
  destruct (combine_session_ok d h first rest) as [h1 [Hone _]].
  rewrite Hone. cbn [bind]. now apply IH.
Qed.

(** ** Merge-runs *)

Lemma runs_from_spec h rest :
  forall a,
    fst (runs_from h a rest) ++ List.concat (snd (runs_from h a rest)) = rest
    /\ Forall (fun r => author_of h r = a) (fst (runs_from h a rest))
    /\ Forall (is_run h) (snd (runs_from h a rest))
    /\ match snd (runs_from h a rest) with
       | [] => True
       | run :: _ => a <> author_of h (first_of run)
       end
    /\ alternating h (map first_of (snd (runs_from h a rest))).
Proof.
  induction rest as [| msg rest IH]; intros a; simpl.
  - repeat split; constructor.
  - destruct (String.eqb_spec (author_of h msg) a) as [Heq | Hneq].
    + specialize (IH a).
      destruct (runs_from h a rest) as [run later]. simpl in *.
      destruct IH as (Hcat & Hrun & Hlater & Hfirst & Halt).
      repeat split; try assumption.
      * now rewrite Hcat.
      * constructor; assumption.
    + specialize (IH (author_of h msg)).
      destruct (runs_from h (author_of h msg) rest) as [run later]. simpl in *.
      destruct IH as (Hcat & Hrun & Hlater & Hfirst & Halt).
      repeat split; try assumption.
      * now rewrite Hcat.
      * constructor.
      * constructor; [| exact Hlater]. split; [discriminate |].
        constructor; [reflexivity | exact Hrun].
      * intros Heq. apply Hneq. now symmetry.
      * destruct later as [| run' later']; simpl in *; [exact I | exact Hfirst].
Qed.

Lemma merge_runs_concat h s : List.concat (merge_runs h s) = s.
Proof.
  destruct s as [| first rest]; [reflexivity |]. unfold merge_runs.
  pose proof (runs_from_spec h rest (author_of h first)) as (Hcat & _).
  destruct (runs_from h (author_of h first) rest) as [run later]. simpl in *.
  now rewrite Hcat.
Qed.

Lemma merge_runs_are_runs h s : Forall (is_run h) (merge_runs h s).
Proof.
  destruct s as [| first rest]; [constructor |]. unfold merge_runs.
  pose proof (runs_from_spec h rest (author_of h first)) as (_ & Hrun & Hlater & _).
  destruct (runs_from h (author_of h first) rest) as [run later]. simpl in *.
  constructor; [| exact Hlater]. split; [discriminate |].
  constructor; [reflexivity | exact Hrun].
Qed.

Lemma merge_runs_alternating h s : alternating h (map first_of (merge_runs h s)).
Proof.
  destruct s as [| first rest]; [exact I |]. unfold merge_runs.
  pose proof (runs_from_spec h rest (author_of h first)) as (_ & _ & _ & Hfirst & Halt).
  destruct (runs_from h (author_of h first) rest) as [run later]. simpl in *.
  split; [| exact Halt].
  destruct later as [| run' later']; simpl in *; [exact I | exact Hfirst].
Qed.

Lemma merge_runs_nonempty h s : s <> [] -> map first_of (merge_runs h s) <> [].
Proof.
  destruct s as [| first rest]; [congruence |]. intros _. unfold merge_runs.
  destruct (runs_from h (author_of h first) rest) as [run later]. discriminate.
Qed.

Lemma runs_from_one_author h a rest :
  Forall (fun r => author_of h r = a) rest -> runs_from h a rest = (rest, []).
Proof.
  induction 1 as [| msg rest Hmsg Hrest IH]; simpl; [reflexivity |].
  rewrite Hmsg, String.eqb_refl, IH. reflexivity.
Qed.

Lemma merge_runs_one_author h s :
  (forall r, In r s -> author_of h r = author_of h (first_of s)) ->
  map first_of (merge_runs h s) = match s with [] => [] | _ :: _ => [first_of s] end.
Proof.
  destruct s as [| first rest]; [reflexivity |]. intros Hall. unfold merge_runs.
  rewrite runs_from_one_author; [reflexivity |].
  apply Forall_forall. intros r Hr. apply Hall. now right.
Qed.

Lemma alternating_ext h h' s :
  same_but_text h h' -> alternating h s -> alternating h' s.
Proof.
  intros Hsame. induction s as [| a s IH]; simpl; [trivial |].
  intros [Hhead Htail]. split; [| now apply IH].
  destruct s as [| b s']; [exact I |].
  now rewrite !(same_but_text_author h h' _ Hsame).
Qed.

(** ** The merger: claims *)

(** C6.  When no session of the input is empty, [combine_consecutive_messages]
    returns normally, one session for each session of the input and in the
    same order; authors are not touched; and for each session the result is
    not empty, has no two adjacent messages of one author, and consists of
    the first members of the merge-runs of the input session (runs that, put
    end to end, are the input session, each of a single author), so that it
    is the first message alone when the whole session has one author. *)
Theorem combine_consecutive_messages_alternates
    (h : heap) (ss : list session) (delimiter : string) :
  Forall (fun s => s <> []) ss ->
  exists h' outs,
    combine_consecutive_messages h ss delimiter = Ok (h', outs)
    /\ (forall r, author_of h' r = author_of h r)
    /\ Forall2
         (fun s out =>
            out <> []
            /\ alternating h' out
            /\ out = map first_of (merge_runs h s)
            /\ List.concat (merge_runs h s) = s
            /\ Forall (is_run h) (merge_runs h s)
            /\ ((forall r, In r s -> author_of h r = author_of h (first_of s)) ->
                out = [first_of s]))
         ss outs.
Proof.
  intros Hne. unfold combine_consecutive_messages.
  destruct (combine_loop_ok delimiter ss Hne h []) as [h' [Hrun Hsame]].
  exists h', (map (fun s => map first_of (merge_runs h s)) ss).
  split; [exact Hrun |].
  split; [intros r; now apply same_but_text_author |].
  clear Hrun. induction Hne as [| s ss Hs Hss IH]; simpl; constructor.
  - split; [now apply merge_runs_nonempty |].
    split; [eapply alternating_ext; [exact Hsame | apply merge_runs_alternating] |].
    split; [reflexivity |].
    split; [apply merge_runs_concat |].
    split; [apply merge_runs_are_runs |].
    intros Hall. rewrite (merge_runs_one_author h s Hall).
    destruct s; [congruence | reflexivity].
  - exact IH.
Qed.

Lemma combine_consecutive_messages_alternates_witness :
  exists h' outs,
    combine_consecutive_messages short_talk [[0%nat; 1%nat; 2%nat]] marker
      = Ok (h', outs)
    /\ (forall r, author_of h' r = author_of short_talk r)
    /\ Forall2
         (fun s out =>
            out <> []
            /\ alternating h' out
            /\ out = map first_of (merge_runs short_talk s)
            /\ List.concat (merge_runs short_talk s) = s
            /\ Forall (is_run short_talk) (merge_runs short_talk s)
            /\ ((forall r, In r s ->
                   author_of short_talk r = author_of short_talk (first_of s)) ->
                out = [first_of s]))
         [[0%nat; 1%nat; 2%nat]] outs.
Proof.
  apply (combine_consecutive_messages_alternates short_talk [[0%nat; 1%nat; 2%nat]] marker).
  constructor; [discriminate | constructor].
Defined.

(** C10.  [combine_consecutive_messages] reads [session[0]] of every session
    and raises [IndexError] as soon as one is empty; [create_sessions] never
    returns an empty session (an empty input gives an empty list of
    sessions), so that on the sessions of [create_sessions] the merger always
    returns normally. *)
Theorem combine_after_create_sessions_in_bounds
    (h : heap) (msgs : list ref) (threshold : Z) (delimiter : string) :
  combine_session delimiter h [] = Raise IndexError
  /\ (forall ss, In [] ss ->
        combine_consecutive_messages h ss delimiter = Raise IndexError)
  /\ Forall (fun s => s <> []) (create_sessions h msgs threshold)
  /\ create_sessions h [] threshold = []
  /\ exists h' outs,
       combine_consecutive_messages h (create_sessions h msgs threshold) delimiter
       = Ok (h', outs).
Proof.
  split; [reflexivity |].
  split; [intros ss Hin; now apply combine_loop_raises |].
  split; [apply create_sessions_nonempty |].
  split; [reflexivity |].
  destruct (combine_loop_ok delimiter _ (create_sessions_nonempty h msgs threshold) h [])
    as [h' [Hrun _]].
  eexists; eexists; exact Hrun.
Qed.

(** ** The merger applied to its own result *)

Lemma prefix_session_same_but_text d s : forall h, same_but_text h (prefix_session d h s).
Proof.
  induction s as [| a s IH]; intros h; simpl.
  - apply same_but_text_refl.
  - eapply same_but_text_trans; [apply same_but_text_set_text | apply IH].
Qed.

Lemma prefix_sessions_same_but_text d ss :
  forall h, same_but_text h (prefix_sessions d h ss).
Proof.
  induction ss as [| s ss IH]; intros h; simpl.
  - apply same_but_text_refl.
  - eapply same_but_text_trans; [apply prefix_session_same_but_text | apply IH].
Qed.

(** On a session whose adjacent authors differ the loop merges nothing: it
    keeps every message and prefixes each of them. *)
Lemma merge_loop_alternating d rest :
  forall h cur acc h' cur' acc',
    alternating h (cur :: rest) ->
    merge_loop d rest h cur acc = (h', cur', acc') ->
    acc' ++ [cur'] = acc ++ cur :: rest /\ h' = prefix_session d h rest.
Proof.
  induction rest as [| msg rest IH]; intros h cur acc h' cur' acc' Halt Hrun;
    simpl in Hrun.
  - inversion Hrun; subst. split; reflexivity.
  - destruct Halt as [Hhead Htail]. unfold author_of in Hhead.
    destruct (String.eqb_spec (author (deref h msg)) (author (deref h cur)))
      as [Heq | _]; [symmetry in Heq; contradiction |].
    apply IH in Hrun.
    + destruct Hrun as [Hacc Hheap]. split; [| exact Hheap].
      rewrite Hacc, <- app_assoc. reflexivity.
    + eapply alternating_ext; [apply same_but_text_set_text | exact Htail].
Qed.

Lemma combine_session_alternating d h s :
  s <> [] -> alternating h s ->
  combine_session d h s = Ok (prefix_session d h s, s).
Proof.
  destruct s as [| first rest]; [congruence |]. intros _ Halt.
  unfold combine_session.
  set (h1 := set_text h first (lstrip d +++ text (deref h first))).
  destruct (merge_loop d rest h1 first []) as [[h2 cur] acc] eqn:Hrun.
  apply merge_loop_alternating in Hrun.
  - destruct Hrun as [Hacc Hheap]. rewrite Hacc, Hheap. reflexivity.
  - eapply alternating_ext; [apply same_but_text_set_text | exact Halt].
Qed.

Lemma combine_loop_alternating d outs :
  forall h acc,
    Forall (fun o => o <> [] /\ alternating h o) outs ->
    combine_loop d outs h acc = Ok (prefix_sessions d h outs, acc ++ outs).
Proof.
  induction outs as [| o outs IH]; intros h acc Hall; simpl.
  - now rewrite app_nil_r.
  - inversion Hall as [| ? ? [Hne Halt] Hrest]; subst.
    fold (combine_session d h o).
    rewrite (combine_session_alternating d h o Hne Halt). cbn [bind].
    rewrite IH.
    + rewrite <- app_assoc. reflexivity.
    + eapply Forall_impl; [| exact Hrest]. intros o' [Hne' Halt'].
      split; [exact Hne' |].
      eapply alternating_ext; [apply prefix_session_same_but_text | exact Halt'].
Qed.

Lemma prepend_times_shift n p t :
  prepend_times n p (p +++ t) = p +++ prepend_times n p t.
Proof.
  unfold prepend_times. induction n as [| n IH]; simpl; [reflexivity |].
  now rewrite IH.
Qed.

Lemma prepend_times_add n m p t :
  prepend_times (n + m) p t = prepend_times m p (prepend_times n p t).
Proof.
  unfold prepend_times. rewrite Nat.add_comm. apply Nat.iter_add.
Qed.

Lemma prepend_times_empty n t : prepend_times n EmptyString t = t.
Proof.
  unfold prepend_times. induction n as [| n IH]; simpl; [reflexivity | exact IH].
Qed.

Lemma prefix_session_text d s :
  forall h r,
    text (deref (prefix_session d h s) r) =
    prepend_times (count_occ Nat.eq_dec s r) (lstrip d) (text (deref h r)).
Proof.
  induction s as [| a s IH]; intros h r; simpl; [reflexivity |].
  fold (prefix_session d (set_text h a (lstrip d +++ text (deref h a))) s).
  rewrite IH. destruct (Nat.eq_dec a r) as [-> | Hneq].
  - rewrite deref_set_text_same. rewrite prepend_times_shift. reflexivity.
  - rewrite deref_set_text_other by congruence. reflexivity.
Qed.

Lemma prefix_sessions_text d ss :
  forall h r,
    text (deref (prefix_sessions d h ss) r) =
    prepend_times (count_occ Nat.eq_dec (List.concat ss) r) (lstrip d)
                  (text (deref h r)).
Proof.
  induction ss as [| s ss IH]; intros h r; simpl; [reflexivity |].
  fold (prefix_sessions d (prefix_session d h s) ss).
  rewrite IH, prefix_session_text, count_occ_app, prepend_times_add. reflexivity.
Qed.

Lemma nonempty_or_in_nil (ss : list session) :
  Forall (fun s => s <> []) ss \/ In [] ss.
Proof.
  induction ss as [| s ss [IH | IH]].
  - left. constructor.
  - destruct s as [| a s].
    + right. now left.
    + left. constructor; [discriminate | exact IH].
  - right. now right.
Qed.

(** What a normal return of the merger says of its result. *)
Lemma combine_consecutive_messages_inv h ss d h' outs :
  combine_consecutive_messages h ss d = Ok (h', outs) ->
  Forall (fun s => s <> []) ss
  /\ outs = map (fun s => map first_of (merge_runs h s)) ss
  /\ same_but_text h h'.
Proof.
  unfold combine_consecutive_messages. intros Hrun.
  destruct (nonempty_or_in_nil ss) as [Hne | Hin].
  - destruct (combine_loop_ok d ss Hne h []) as [h2 [Hrun2 Hsame]].
    rewrite Hrun2 in Hrun. inversion Hrun; subst.
    split; [exact Hne |]. split; [reflexivity | exact Hsame].
  - rewrite (combine_loop_raises d ss Hin h []) in Hrun. discriminate.
Qed.

(** C5 (refuted as stated).  The merger is not idempotent: applied to its own
    result for the second scenario of the specification, it returns the same
    sessions but the text of the first message has changed, the marker being
    there twice. *)
Lemma combine_twice_changes_text :
  exists h1 out1 h2 out2,
    combine_consecutive_messages short_talk [[0%nat; 1%nat; 2%nat]] marker
      = Ok (h1, out1)
    /\ combine_consecutive_messages h1 out1 marker = Ok (h2, out2)
    /\ out2 = out1
    /\ text (deref h1 0%nat) = ">>>hey" +++ marker +++ "you there?"
    /\ text (deref h2 0%nat) = ">>>>>>hey" +++ marker +++ "you there?"
    /\ text (deref h2 0%nat) <> text (deref h1 0%nat).
Proof.
  do 4 eexists.
  split; [reflexivity |].
  split; [reflexivity |].
  split; [reflexivity |].
  split; [vm_compute; reflexivity |].
  split; [vm_compute; reflexivity |].
  vm_compute. discriminate.
Qed.

(** ** The date filter *)

Lemma write_sessions_nothing fs output h chats :
  all_sessions chats = [] ->
  write_sessions fs output h chats output = Some EmptyString.
Proof.
  intros Hnone. unfold write_sessions. rewrite Hnone. simpl.
  unfold open_w. now rewrite String.eqb_refl.
Qed.

(** The condition of the comprehension of lines 79-88 is never true: when
    some message is kept it is the value of [setattr], which is [None]. *)
Lemma date_filter_condition_false (ms : list ref) (chat : Chat) :
  truthy (snd (py_and (PyList ms) chat (setattr_messages ms))) = false.
Proof.
  unfold py_and. destruct ms as [| m ms]; reflexivity.
Qed.

Lemma date_filter_nil h cutoff_date chats : date_filter h cutoff_date chats = [].
Proof.
  induction chats as [| chat rest IH]; simpl; [reflexivity |].
  pose proof (date_filter_condition_false
                (filter (newer_than h cutoff_date) (messages chat)) chat) as Hcond.
  destruct (py_and _ chat _) as [chat1 cond]. simpl in Hcond.
  rewrite Hcond. exact IH.
Qed.

(** The inlined variant, with a clock that stands still during the run,
    computes the filter of the specification. *)
Lemma legacy_filter_messages_spec h now last_x_months cutoff msgs :
  cutoff_of now last_x_months = Ok cutoff ->
  forall tick,
    Legacy.filter_messages h (fun _ => now) last_x_months tick msgs =
    Ok ((tick + List.length msgs)%nat, filter (newer_than h cutoff) msgs).
Proof.
  intros Hcut. induction msgs as [| msg rest IH]; intros tick; simpl.
  - now rewrite Nat.add_0_r.
  - rewrite Hcut. cbn [bind]. rewrite IH. cbn [bind].
    rewrite Nat.add_succ_r. simpl. reflexivity.
Qed.

Lemma legacy_filter_chats_spec h now last_x_months cutoff chats :
  cutoff_of now last_x_months = Ok cutoff ->
  forall tick, exists tick',
    Legacy.filter_chats h (fun _ => now) last_x_months tick chats =
    Ok (tick',
        map (fun chat =>
               with_messages chat (filter (newer_than h cutoff) (messages chat)))
            chats).
Proof.
  intros Hcut. induction chats as [| chat rest IH]; intros tick; simpl.
  - exists tick. reflexivity.
  - rewrite (legacy_filter_messages_spec h now last_x_months cutoff _ Hcut).
    cbn [bind].
    destruct (IH (tick + List.length (messages chat))%nat) as [tick' Hrest].
    rewrite Hrest. cbn [bind]. exists tick'. reflexivity.
Qed.

Lemma legacy_date_filter_spec h now last_x_months cutoff chats tick :
  cutoff_of now last_x_months = Ok cutoff ->
  exists tick',
    Legacy.date_filter h (fun _ => now) last_x_months tick chats =
    Ok (tick', newer_chats h cutoff chats).
Proof.
  intros Hcut. unfold Legacy.date_filter.
  destruct (legacy_filter_chats_spec h now last_x_months cutoff chats Hcut tick)
    as [tick' Hrun].
  rewrite Hrun. cbn [bind]. exists tick'. reflexivity.
Qed.

(** C2 (found false on the code).  The date filter is to keep the chats that
    still have a message newer than the cutoff.  The filter of
    [transform_chats] keeps no chat at all, whatever the store, the cutoff and
    the chats: for the chat of the second scenario and a cutoff 1800 days
    before its messages it returns the empty list, where the specification
    (and the inlined variant of the function) keep the chat with its three
    messages.  As a result every normal run of [transform_chats] leaves an
    empty output file. *)
Theorem date_filter_keeps_no_chat :
  (forall h cutoff_date chats, date_filter h cutoff_date chats = [])
  /\ cutoff_of (noon + minutes 10) 60 = Ok (noon + minutes 10 - 1800 * us_per_day)
  /\ date_filter short_talk (noon + minutes 10 - 1800 * us_per_day) [recent_chat] = []
  /\ newer_chats short_talk (noon + minutes 10 - 1800 * us_per_day) [recent_chat]
     = [recent_chat]
  /\ Legacy.date_filter short_talk (fun _ => noon + minutes 10) 60 0 [recent_chat]
     = Ok (3%nat, [recent_chat])
  /\ (forall input output export h fs now target months threshold delimiter
             h2 fs' lg,
        transform_chats input output export h fs now target months threshold delimiter
          = Ok (h2, fs', lg) ->
        fs' output = Some EmptyString).
Proof.
  split; [intros h c chats; apply date_filter_nil |].
  do 4 (split; [vm_compute; reflexivity |]).
  intros input output export h fs now target months threshold delimiter h2 fs' lg.
  unfold transform_chats.
  destruct (load_chats input export h)
    as [[[[h1 chats0] [target_id extracted]] lg1] | e]; [| discriminate].
  cbn [bind].
  destruct (cutoff_of now months) as [cutoff | e]; [| discriminate].
  cbn [bind]. rewrite date_filter_nil. cbn [process_chats bind].
  intros Hrun. inversion Hrun; subst.
  apply write_sessions_nothing. reflexivity.
Qed.

(** ** The target filter *)

Lemma author_is_spec h target msg :
  author_is h target msg = true <-> target = Some (author_of h msg).
Proof.
  unfold author_is, author_of. destruct target as [t |].
  - rewrite String.eqb_eq. split; [intros -> | intros [= ->]]; reflexivity.
  - split; discriminate.
Qed.

Lemma in_tl_nth (s : session) (msg : ref) :
  In msg (tl s) <-> exists i, (1 <= i)%nat /\ nth_error s i = Some msg.
Proof.
  destruct s as [| a s]; simpl.
  - split; [intros [] | intros [i [Hi Hnth]]]. destruct i; discriminate.
  - split.
    + intros Hin. apply In_nth_error in Hin. destruct Hin as [n Hn].
      exists (S n). split; [lia | exact Hn].
    + intros [i [Hi Hnth]]. destruct i as [| n]; [lia |].
      eapply nth_error_In. exact Hnth.
Qed.

(** The test of the filter: some message after the first is by the target. *)
Lemma has_target_spec h target s :
  has_target h target s = true <->
  exists i msg,
    (1 <= i)%nat /\ nth_error s i = Some msg /\ target = Some (author_of h msg).
Proof.
  unfold has_target. rewrite existsb_exists. split.
  - intros [msg [Hin His]]. apply in_tl_nth in Hin. destruct Hin as [i [Hi Hnth]].
    exists i, msg. repeat split; try assumption. now apply author_is_spec.
  - intros [i [msg (Hi & Hnth & His)]]. exists msg. split.
    + apply in_tl_nth. now exists i.
    + now apply author_is_spec.
Qed.

Lemma has_target_none h s : has_target h None s = false.
Proof. unfold has_target. induction (tl s); simpl; auto. Qed.

Lemma has_target_ext h h' target s :
  same_but_text h h' -> has_target h' target s = has_target h target s.
Proof.
  intros Hsame. unfold has_target.
  induction (tl s) as [| msg rest IH]; simpl; [reflexivity |].
  rewrite IH. f_equal.
  unfold author_is. destruct target; [| reflexivity].
  now destruct (Hsame msg) as [-> _].
Qed.

(** ** The loop over the chats *)

Lemma process_chat_ok target threshold d h chat :
  exists h' chat',
    process_chat target threshold d h chat = Ok (h', chat')
    /\ same_but_text h h'
    /\ sessions chat' =
       filter (has_target h' target)
         (map (fun s => map first_of (merge_runs h s))
              (create_sessions h (messages chat) threshold)).
Proof.
  unfold process_chat. cbn [sessions set_sessions].
  destruct (combine_loop_ok d _ (create_sessions_nonempty h (messages chat) threshold)
              h []) as [h1 [Hrun Hsame]].
  unfold combine_consecutive_messages. rewrite Hrun. cbn [bind app].
  eexists; eexists. split; [reflexivity |]. split; [exact Hsame | reflexivity].
Qed.

Lemma process_chats_ok target threshold d chats :
  forall h,
  exists h' chats',
    process_chats target threshold d h chats = Ok (h', chats')
    /\ same_but_text h h'
    /\ List.length chats' = List.length chats
    /\ Forall (fun s => has_target h' target s = true) (all_sessions chats').
Proof.
  induction chats as [| chat rest IH]; intros h; simpl.
  - exists h, []. split; [reflexivity |]. split; [apply same_but_text_refl |].
    split; [reflexivity | constructor].
  - destruct (process_chat_ok target threshold d h chat)
      as [h1 [chat' (Hone & Hsame1 & Hsess)]].
    rewrite Hone. cbn [bind].
    destruct (IH h1) as [h2 [rest' (Hrest & Hsame2 & Hlen & Hall)]].
    rewrite Hrest. cbn [bind].
    exists h2, (chat' :: rest'). split; [reflexivity |].
    split; [eapply same_but_text_trans; eassumption |].
    split; [simpl; now rewrite Hlen |].
    unfold all_sessions. simpl. apply Forall_app. split; [| exact Hall].
    rewrite Hsess. apply Forall_forall. intros s Hs.
    apply filter_In in Hs. destruct Hs as [_ Hs].
    now rewrite (has_target_ext h1 h2 target s Hsame2).
Qed.

Lemma process_chats_no_target threshold d chats h :
  exists h' chats',
    process_chats None threshold d h chats = Ok (h', chats')
    /\ all_sessions chats' = [].
Proof.
  destruct (process_chats_ok None threshold d chats h)
    as [h' [chats' (Hrun & _ & _ & Hall)]].
  exists h', chats'. split; [exact Hrun |].
  destruct (all_sessions chats') as [| s rest]; [reflexivity |].
  inversion Hall as [| ? ? Hs _]; subst. rewrite has_target_none in Hs. discriminate.
Qed.

(** ** The loader *)

Lemma next_from_id_stops wanted msgs :
  Forall (fun msg => exists fid, raw_from_id msg = Some fid /\ fid <> wanted) msgs ->
  next_from_id wanted msgs = Raise StopIteration.
Proof.
  induction 1 as [| msg rest [fid [Hfid Hneq]] _ IH]; simpl; [reflexivity |].
  rewrite Hfid. destruct (String.eqb_spec fid wanted); [contradiction | exact IH].
Qed.

Lemma load_loop_app before after :
  forall st,
    load_loop st (before ++ after) =
    do st1 <- load_loop st before; load_loop st1 after.
Proof.
  induction before as [| chat before IH]; intros st; simpl; [reflexivity |].
  destruct (load_chat st chat) as [st1 | e]; cbn [bind]; [apply IH | reflexivity].
Qed.

(** Whatever comes before and after it, an entry without a name none of whose
    messages bears the owner's identifier makes the loader raise
    [StopIteration]. *)
Lemma load_chats_raises_without_own path before self after h st :
  load_loop {| ld_heap := h; ld_chats := [];
               ld_target_id := None; ld_target_name := None |} before = Ok st ->
  raw_name self = None ->
  Forall (fun msg => exists fid, raw_from_id msg = Some fid
                                 /\ fid <> "user" +++ str_of_Z (raw_id self))
         (raw_messages self) ->
  load_chats path (before ++ self :: after) h = Raise StopIteration.
Proof.
  intros Hbefore Hname Hmsgs. unfold load_chats.
  rewrite load_loop_app, Hbefore. cbn [bind load_loop].
  unfold load_chat. rewrite Hname.
  rewrite (next_from_id_stops _ _ Hmsgs). reflexivity.
Qed.

(** C4 (found false on the code).  When the entry without a name holds no
    message of the owner, the loader is to return with the target name unset
    and a warning.  On such an export the code raises [StopIteration] from
    [next], with no default, before it reaches the warning; the warning is
    only reached when the export has no entry without a name at all. *)
Theorem load_chats_raises_on_saved_messages_without_own :
  load_chats "result.json" [saved_without_own] empty_heap = Raise StopIteration
  /\ load_chats "result.json" [] empty_heap =
     Ok (empty_heap, [], (None, None),
         [ (INFO, "Loading chats from 'result.json'..."%string);
           (INFO, "Found 0 chats in file 'result.json'"%string);
           (WARNING, target_warning) ]).
Proof. split; reflexivity. Qed.

(** ** The writer *)

Lemma append_nil_r s : s +++ EmptyString = s.
Proof. induction s as [| c s IH]; simpl; [reflexivity | now rewrite IH]. Qed.

Lemma append_assoc a b c : (a +++ b) +++ c = a +++ b +++ c.
Proof. induction a as [| x a IH]; simpl; [reflexivity | now rewrite IH]. Qed.

Lemma concat_empty_cons (x : string) (l : list string) :
  String.concat EmptyString (x :: l) = x +++ String.concat EmptyString l.
Proof.
  destruct l as [| y l]; simpl; [now rewrite append_nil_r | reflexivity].
Qed.

Lemma has_newline_app a b : has_newline (a +++ b) = has_newline a || has_newline b.
Proof.
  induction a as [| c a IH]; simpl; [reflexivity |].
  now rewrite IH, orb_assoc.
Qed.

Lemma json_escape_char_no_newline c : has_newline (json_escape_char c) = false.
Proof.
  destruct c as [[] [] [] [] [] [] [] []]; reflexivity.
Qed.

Lemma json_escape_no_newline s : has_newline (json_escape s) = false.
Proof.
  induction s as [| c s IH]; simpl; [reflexivity |].
  now rewrite has_newline_app, json_escape_char_no_newline, IH.
Qed.

(** A record takes one line: the newlines of the text are escaped. *)
Lemma json_dump_text_no_newline s : has_newline (json_dump_text s) = false.
Proof.
  unfold json_dump_text.
  rewrite !has_newline_app, json_escape_no_newline. reflexivity.
Qed.

Lemma split_lines_line x rest :
  has_newline x = false ->
  split_lines (x +++ newline +++ rest) =
  (x :: fst (split_lines rest), snd (split_lines rest)).
Proof.
  induction x as [| c x IH]; intros Hx.
  - simpl. destruct (split_lines rest) as [ls r]. reflexivity.
  - simpl in Hx. apply orb_false_iff in Hx. destruct Hx as [Hc Hx].
    change (String c x +++ newline +++ rest) with (String c (x +++ newline +++ rest)).
    cbn [split_lines]. rewrite (IH Hx), Hc. reflexivity.
Qed.

Lemma split_lines_jsonl (ls : list string) :
  Forall (fun l => has_newline l = false) ls ->
  split_lines (String.concat EmptyString (map (fun l => l +++ newline) ls)) =
  (ls, EmptyString).
Proof.
  induction 1 as [| l ls Hl _ IH]; [reflexivity |].
  cbn [map]. rewrite concat_empty_cons, append_assoc.
  rewrite (split_lines_line _ _ Hl), IH. reflexivity.
Qed.

Lemma write_records_content path ds :
  forall fs old,
    fs path = Some old ->
    write_records fs path ds path =
    Some (old +++ String.concat EmptyString
                    (map (fun l => l +++ newline) (map json_dump_text ds))).
Proof.
  induction ds as [| d ds IH]; intros fs old Hold; cbn [write_records map].
  - rewrite Hold. simpl. now rewrite append_nil_r.
  - erewrite IH.
    2:{ unfold write. rewrite String.eqb_refl, Hold. reflexivity. }
    rewrite concat_empty_cons, !append_assoc. reflexivity.
Qed.

Lemma write_records_elsewhere path ds p :
  p <> path -> forall fs, write_records fs path ds p = fs p.
Proof.
  intros Hp. induction ds as [| d ds IH]; intros fs; simpl; [reflexivity |].
  rewrite IH. unfold write.
  destruct (String.eqb_spec p path); [contradiction | reflexivity].
Qed.

Lemma write_sessions_content fs output h chats :
  write_sessions fs output h chats output = Some (jsonl_text h (all_sessions chats)).
Proof.
  unfold write_sessions, jsonl_text, jsonl_lines.
  erewrite write_records_content.
  2:{ unfold open_w. rewrite String.eqb_refl. reflexivity. }
  cbn [String.append]. rewrite !map_map. reflexivity.
Qed.

Lemma write_sessions_elsewhere fs output h chats p :
  p <> output -> write_sessions fs output h chats p = fs p.
Proof.
  intros Hp. unfold write_sessions. rewrite write_records_elsewhere by exact Hp.
  unfold open_w. destruct (String.eqb_spec p output); [contradiction | reflexivity].
Qed.

Lemma jsonl_lines_no_newline h ss :
  Forall (fun l => has_newline l = false) (jsonl_lines h ss).
Proof.
  unfold jsonl_lines. apply Forall_forall. intros l Hl.
  apply in_map_iff in Hl. destruct Hl as [s [<- _]]. apply json_dump_text_no_newline.
Qed.

(** A normal return of [transform_chats], stage by stage. *)
Lemma transform_chats_inv input output export h fs now target months threshold d
    h2 fs' lg :
  transform_chats input output export h fs now target months threshold d
    = Ok (h2, fs', lg) ->
  exists h1 chats0 target_id extracted lg1 cutoff chats',
    load_chats input export h = Ok (h1, chats0, (target_id, extracted), lg1)
    /\ cutoff_of now months = Ok cutoff
    /\ process_chats (name_or target extracted) threshold d h1
         (date_filter h1 cutoff chats0) = Ok (h2, chats')
    /\ fs' = write_sessions fs output h2 chats'.
Proof.
  unfold transform_chats. intros Hrun.
  destruct (load_chats input export h)
    as [[[[h1 chats0] [target_id extracted]] lg1] | e]; [| discriminate].
  cbn [bind] in Hrun.
  destruct (cutoff_of now months) as [cutoff | e]; [| discriminate].
  cbn [bind] in Hrun.
  destruct (process_chats (name_or target extracted) threshold d h1
              (date_filter h1 cutoff chats0)) as [[h3 chats'] | e] eqn:Hproc;
    [| discriminate].
  cbn [bind] in Hrun. inversion Hrun; subst.
  exists h1, chats0, target_id, extracted, lg1, cutoff, chats'.
  repeat split; assumption || reflexivity.
Qed.

(** ** The scenarios of the specification, run on the model *)

(** Three messages within two minutes, the first two by one author: one
    session, merged into two messages, kept for the target "Alice". *)
Example short_talk_run :
  exists h' chats',
    process_chats (Some "Alice"%string) 10 marker short_talk [recent_chat]
      = Ok (h', chats')
    /\ all_sessions chats' = [[0%nat; 2%nat]]
    /\ text (deref h' 0%nat) = ">>>hey" +++ newline +++ ">>>you there?"
    /\ text (deref h' 2%nat) = ">>>yes"%string
    /\ format_session h' [0%nat; 2%nat] =
       "<|im_start|>Bob" +++ newline +++ ">>>hey" +++ newline
       +++ ">>>you there?<|im_end|>" +++ newline
       +++ "<|im_start|>Alice" +++ newline +++ ">>>yes<|im_end|>".
Proof.
  do 2 eexists. split; [reflexivity |].
  repeat split; vm_compute; reflexivity.
Qed.

(** The same chat through [Legacy.segment_chats]: one session of three
    messages. *)
Example short_talk_segments :
  map sessions (Legacy.segment_chats short_talk 10 [recent_chat])
  = [[[0%nat; 1%nat; 2%nat]]].
Proof. reflexivity. Qed.

(** * Further properties of the code *)

(** ** The segmenter: shape of the sessions *)

Lemma last_default {A : Type} (l : list A) (d d' : A) :
  l <> [] -> last l d = last l d'.
Proof.
  induction l as [| a l IH]; [congruence |]. intros _.
  destruct l as [| b l]; [reflexivity |]. simpl in *. apply IH. discriminate.
Qed.

Lemma last_app_nonempty {A : Type} (l1 l2 : list A) (d : A) :
  l2 <> [] -> last (l1 ++ l2) d = last l2 d.
Proof.
  intros Hne. induction l1 as [| a l1 IH]; [reflexivity |].
  simpl. destruct (l1 ++ l2) as [| b l] eqn:Happ.
  - apply app_eq_nil in Happ. destruct Happ; contradiction.
  - exact IH.
Qed.

Lemma first_of_app (s : session) (msg : ref) :
  s <> [] -> first_of (s ++ [msg]) = first_of s.
Proof. destruct s; [congruence | reflexivity]. Qed.

Lemma chained_snoc h threshold cur msg :
  cur <> [] ->
  chained h threshold cur ->
  extends_session h (last cur msg) msg threshold = true ->
  chained h threshold (cur ++ [msg]).
Proof.
  induction cur as [| a cur IH]; [congruence |]. intros _ [Hhead Htail] Hext.
  destruct cur as [| b cur].
  - simpl in *. repeat split. exact Hext.
  - split; [exact Hhead |]. apply IH; [discriminate | exact Htail | exact Hext].
Qed.

Lemma separated_snoc_same_first h threshold ss c c' :
  first_of c' = first_of c ->
  separated h threshold (ss ++ [c]) -> separated h threshold (ss ++ [c']).
Proof.
  intros Hfirst. induction ss as [| s1 ss IH]; simpl.
  - intros _. split; exact I.
  - intros [Hhead Htail]. split; [| now apply IH].
    destruct ss as [| s2 ss]; simpl in *; [now rewrite Hfirst | exact Hhead].
Qed.

Lemma separated_snoc_new h threshold ss c n :
  separated h threshold (ss ++ [c]) ->
  extends_session h (last c O) (first_of n) threshold = false ->
  separated h threshold ((ss ++ [c]) ++ [n]).
Proof.
  intros Hsep Hnew. induction ss as [| s1 ss IH]; simpl in *.
  - repeat split. exact Hnew.
  - destruct Hsep as [Hhead Htail]. split; [| now apply IH].
    destruct ss as [| s2 ss]; simpl in *; exact Hhead.
Qed.

Lemma sessions_loop_chained h threshold msgs :
  forall ss cur ss' cur',
    cur <> [] ->
    sessions_loop h threshold msgs ss cur = (ss', cur') ->
    Forall (chained h threshold) (ss ++ [cur]) ->
    separated h threshold (ss ++ [cur]) ->
    Forall (chained h threshold) (ss' ++ [cur']) /\ separated h threshold (ss' ++ [cur']).
Proof.
  induction msgs as [| msg rest IH]; intros ss cur ss' cur' Hne Hrun Hch Hsep;
    simpl in Hrun.
  - inversion Hrun; subst. split; assumption.
  - destruct cur as [| c cur0]; [congruence |].
    apply Forall_app in Hch. destruct Hch as [Hss Hcur].
    inversion Hcur as [| ? ? Hc _]; subst.
    destruct (extends_session h (last (c :: cur0) msg) msg threshold) eqn:Hext.
    + apply IH in Hrun; [exact Hrun | destruct cur0; discriminate | |].
      * apply Forall_app. split; [exact Hss |]. constructor; [| constructor].
        apply chained_snoc; [discriminate | exact Hc | exact Hext].
      * eapply separated_snoc_same_first; [| exact Hsep].
        apply first_of_app. discriminate.
    + apply IH in Hrun; [exact Hrun | discriminate | |].
      * apply Forall_app. split.
        -- apply Forall_app. split; [exact Hss | constructor; [exact Hc | constructor]].
        -- constructor; [| constructor]. simpl. split; exact I.
      * apply separated_snoc_new; [exact Hsep |]. simpl first_of.
        rewrite (last_default (c :: cur0) O msg) by discriminate. exact Hext.
Qed.

Lemma create_sessions_cons h msg rest threshold :
  exists ss cur,
    sessions_loop h threshold rest [] [msg] = (ss, cur)
    /\ cur <> []
    /\ create_sessions h (msg :: rest) threshold = ss ++ [cur].
Proof.
  unfold create_sessions. simpl.
  destruct (sessions_loop h threshold rest [] [msg]) as [ss cur] eqn:Hrun.
  exists ss, cur. split; [reflexivity |].
  pose proof (sessions_loop_nonempty h threshold rest _ _ _ _ Hrun (Forall_nil _))
    as [_ Hcur].
  assert (Hne : cur <> []) by (apply Hcur; left; discriminate).
  split; [exact Hne |]. destruct cur; [congruence | reflexivity].
Qed.

(** X1.  The sessions of [create_sessions] are the maximal runs of the gap
    test of the code: inside a session every message passes the test against
    the message before it, and the first message of a session fails it
    against the last message of the session before. *)
Theorem create_sessions_maximal_runs (h : heap) (msgs : list ref) (threshold : Z) :
  Forall (chained h threshold) (create_sessions h msgs threshold)
  /\ separated h threshold (create_sessions h msgs threshold).
Proof.
  destruct msgs as [| msg rest]; [split; [constructor | exact I] |].
  destruct (create_sessions_cons h msg rest threshold) as [ss [cur (Hrun & _ & ->)]].
  apply (sessions_loop_chained h threshold rest [] [msg] ss cur);
    [discriminate | exact Hrun | |].
  - constructor; [| constructor]. simpl. split; exact I.
  - simpl. split; exact I.
Qed.

Lemma extends_session_nonpositive h prev msg threshold :
  threshold <= 0 -> extends_session h prev msg threshold = false.
Proof.
  intros Ht. unfold extends_session, minutes_lt.
  pose proof (seconds_range (date (deref h msg)) (date (deref h prev))).
  apply Z.ltb_ge. lia.
Qed.

Lemma sessions_loop_singletons h threshold msgs :
  threshold <= 0 ->
  forall ss c ss' cur',
    sessions_loop h threshold msgs ss [c] = (ss', cur') ->
    ss' ++ [cur'] = ss ++ map (fun m => [m]) (c :: msgs).
Proof.
  intros Ht. induction msgs as [| msg rest IH]; intros ss c ss' cur' Hrun;
    simpl in Hrun.
  - inversion Hrun; subst. reflexivity.
  - rewrite extends_session_nonpositive in Hrun by exact Ht.
    apply IH in Hrun. rewrite Hrun, <- app_assoc. reflexivity.
Qed.

(** X2.  With a threshold of zero or less no message ever extends a session:
    every message is a session of its own. *)
Theorem create_sessions_nonpositive_threshold
    (h : heap) (msgs : list ref) (threshold : Z) :
  threshold <= 0 ->
  create_sessions h msgs threshold = map (fun m => [m]) msgs.
Proof.
  intros Ht. destruct msgs as [| msg rest]; [reflexivity |].
  destruct (create_sessions_cons h msg rest threshold) as [ss [cur (Hrun & _ & ->)]].
  apply (sessions_loop_singletons h threshold rest Ht) in Hrun. exact Hrun.
Qed.

Lemma create_sessions_nonpositive_threshold_witness :
  create_sessions short_talk [0%nat; 1%nat; 2%nat] 0 = [[0%nat]; [1%nat]; [2%nat]].
Proof.
  apply (create_sessions_nonpositive_threshold short_talk [0%nat; 1%nat; 2%nat] 0).
  lia.
Defined.

Lemma sessions_loop_one_session h threshold msgs :
  1440 <= threshold ->
  forall ss cur,
    cur <> [] ->
    sessions_loop h threshold msgs ss cur = (ss, cur ++ msgs).
Proof.
  intros Ht. induction msgs as [| msg rest IH]; intros ss cur Hne; simpl.
  - now rewrite app_nil_r.
  - destruct cur as [| c cur0]; [congruence |].
    rewrite extends_session_large_threshold by exact Ht.
    rewrite IH by (destruct cur0; discriminate).
    now rewrite <- app_assoc.
Qed.

(** With a threshold of 1440 minutes or more the segmenter never starts
    a second session, whatever the dates: a list of messages that is not
    empty comes back as one session. *)
Theorem create_sessions_day_threshold_one_session
    (h : heap) (msgs : list ref) (threshold : Z) :
  1440 <= threshold -> msgs <> [] ->
  create_sessions h msgs threshold = [msgs].
Proof.
  intros Ht Hne. destruct msgs as [| msg rest]; [congruence |].
  unfold create_sessions. simpl.
  rewrite (sessions_loop_one_session h threshold rest Ht [] [msg]) by discriminate.
  reflexivity.
Qed.

Lemma create_sessions_day_threshold_one_session_witness :
  create_sessions long_silence [0%nat; 1%nat] 1440 = [[0%nat; 1%nat]].
Proof.
  apply (create_sessions_day_threshold_one_session long_silence [0%nat; 1%nat] 1440).
  - lia.
  - discriminate.
Defined.

Lemma sessions_loop_app h threshold a b :
  forall ss cur,
    sessions_loop h threshold (a ++ b) ss cur =
    sessions_loop h threshold b (fst (sessions_loop h threshold a ss cur))
                                (snd (sessions_loop h threshold a ss cur)).
Proof.
  induction a as [| msg a IH]; intros ss cur; simpl; [reflexivity |].
  destruct cur as [| c cur0]; [apply IH |].
  destruct (extends_session h (last (c :: cur0) msg) msg threshold); apply IH.
Qed.

Lemma sessions_loop_prefix h threshold msgs pre :
  forall ss cur,
    sessions_loop h threshold msgs (pre ++ ss) cur =
    (pre ++ fst (sessions_loop h threshold msgs ss cur),
     snd (sessions_loop h threshold msgs ss cur)).
Proof.
  induction msgs as [| msg rest IH]; intros ss cur; simpl; [reflexivity |].
  destruct cur as [| c cur0]; [apply IH |].
  destruct (extends_session h (last (c :: cur0) msg) msg threshold); [apply IH |].
  rewrite <- app_assoc. apply IH.
Qed.

Lemma sessions_loop_last h threshold msgs ss cur ss' cur' d :
  cur' <> [] ->
  sessions_loop h threshold msgs ss cur = (ss', cur') ->
  last cur' d = last (cur ++ msgs) d.
Proof.
  intros Hne Hrun.
  assert (Hcm : cur ++ msgs <> []).
  { intros Hnil. apply app_eq_nil in Hnil. destruct Hnil as [-> ->].
    simpl in Hrun. inversion Hrun; subst. congruence. }
  apply sessions_loop_concat in Hrun.
  rewrite <- (last_app_nonempty (List.concat ss') cur' d Hne).
  rewrite Hrun. apply last_app_nonempty. exact Hcm.
Qed.

(** X3.  Segmentation composes over a gap that closes a session: when the
    first message of [l2] fails the gap test against the last message of
    [l1], the sessions of [l1 ++ l2] are the sessions of [l1] followed by
    the sessions of [l2]. *)
Theorem create_sessions_app (h : heap) (l1 l2 : list ref) (threshold : Z) :
  l1 <> [] -> l2 <> [] ->
  extends_session h (last l1 O) (first_of l2) threshold = false ->
  create_sessions h (l1 ++ l2) threshold =
  create_sessions h l1 threshold ++ create_sessions h l2 threshold.
Proof.
  intros Hne1 Hne2 Hgap.
  destruct l1 as [| m1 r1]; [congruence |].
  destruct l2 as [| m2 r2]; [congruence |].
  destruct (create_sessions_cons h m1 r1 threshold) as [ss1 [cur1 (Hrun1 & Hcur1 & ->)]].
  destruct (create_sessions_cons h m2 r2 threshold) as [ss2 [cur2 (Hrun2 & Hcur2 & ->)]].
  assert (Hlast : last cur1 m2 = last (m1 :: r1) O).
  { rewrite (sessions_loop_last h threshold r1 [] [m1] ss1 cur1 m2 Hcur1 Hrun1).
    apply last_default. discriminate. }
  unfold create_sessions. cbn [app sessions_loop].
  rewrite sessions_loop_app, Hrun1. cbn [fst snd sessions_loop].
  destruct cur1 as [| c cur0]; [congruence |].
  rewrite Hlast. simpl first_of in Hgap. rewrite Hgap.
  rewrite <- (app_nil_r (ss1 ++ [c :: cur0])) at 1.
  rewrite sessions_loop_prefix, Hrun2. cbn [fst snd].
  destruct cur2 as [| c2 cur2']; [congruence |].
  now rewrite app_assoc.
Qed.

Lemma create_sessions_app_witness :
  create_sessions long_silence ([0%nat] ++ [1%nat]) 1 =
  create_sessions long_silence [0%nat] 1 ++ create_sessions long_silence [1%nat] 1.
Proof.
  apply (create_sessions_app long_silence [0%nat] [1%nat] 1).
  - discriminate.
  - discriminate.
  - vm_compute. reflexivity.
Defined.

(** ** The merger: the texts it writes *)

Lemma concat_delimiter (d t : string) (ts : list string) :
  String.concat d (t :: ts) =
  t +++ String.concat EmptyString (map (fun x => d +++ x) ts).
Proof.
  revert t. induction ts as [| t' ts IH]; intros t.
  - simpl. now rewrite append_nil_r.
  - change (String.concat d (t :: t' :: ts)) with (t +++ d +++ String.concat d (t' :: ts)).
    rewrite IH. cbn [map]. rewrite concat_empty_cons, append_assoc. reflexivity.
Qed.

Lemma run_text_cons d h r run :
  run_text d h (r :: run) = lstrip d +++ text (deref h r) +++ tail_text d h run.
Proof.
  unfold run_text, tail_text. cbn [map]. rewrite concat_delimiter, map_map. reflexivity.
Qed.

Lemma tail_text_cons d h r run :
  tail_text d h (r :: run) = (d +++ text (deref h r)) +++ tail_text d h run.
Proof. unfold tail_text. cbn [map]. apply concat_empty_cons. Qed.

Lemma tail_text_ext d h h' run :
  (forall r, In r run -> text (deref h' r) = text (deref h r)) ->
  tail_text d h' run = tail_text d h run.
Proof.
  intros Hsame. unfold tail_text. f_equal. apply map_ext_in.
  intros r Hr. now rewrite Hsame.
Qed.

Lemma run_text_ext d h h' run :
  (forall r, In r run -> text (deref h' r) = text (deref h r)) ->
  run_text d h' run = run_text d h run.
Proof.
  intros Hsame. unfold run_text. f_equal. f_equal. apply map_ext_in.
  intros r Hr. now rewrite Hsame.
Qed.

Lemma runs_from_members h a rest :
  (forall x, In x (fst (runs_from h a rest)) -> In x rest)
  /\ (forall L x, In L (snd (runs_from h a rest)) -> In x L -> In x rest)
  /\ (forall x, In x (map first_of (snd (runs_from h a rest))) -> In x rest).
Proof.
  pose proof (runs_from_spec h rest a) as (Hcat & _ & Hruns & _).
  assert (H2 : forall L x, In L (snd (runs_from h a rest)) -> In x L -> In x rest).
  { intros L x HL Hx. rewrite <- Hcat. apply in_or_app. right.
    apply in_concat. exists L. split; assumption. }
  split; [| split; [exact H2 |]].
  - intros x Hx. rewrite <- Hcat. apply in_or_app. now left.
  - intros x Hx. apply in_map_iff in Hx. destruct Hx as [L [<- HL]].
    apply (H2 L); [exact HL |].
    rewrite Forall_forall in Hruns. destruct (Hruns L HL) as [Hne _].
    destruct L; [congruence | now left].
Qed.

Lemma merge_loop_texts d rest :
  forall h cur acc h' cur' acc',
    ~ In cur rest -> NoDup rest ->
    merge_loop d rest h cur acc = (h', cur', acc') ->
    text (deref h' cur) =
      text (deref h cur) +++ tail_text d h (fst (runs_from h (author_of h cur) rest))
    /\ Forall (fun L => text (deref h' (first_of L)) = run_text d h L)
              (snd (runs_from h (author_of h cur) rest))
    /\ (forall r, r <> cur ->
          ~ In r (map first_of (snd (runs_from h (author_of h cur) rest))) ->
          text (deref h' r) = text (deref h r)).
Proof.
  induction rest as [| msg rest IH]; intros h cur acc h' cur' acc' Hcur Hnd Hrun;
    simpl in Hrun.
  - inversion Hrun; subst. simpl. unfold tail_text. simpl.
    rewrite append_nil_r. split; [reflexivity |]. split; [constructor |].
    intros r _ _. reflexivity.
  - inversion Hnd as [| ? ? Hmsg Hnd']; subst.
    assert (Hcur' : ~ In cur rest) by (intros Hin; apply Hcur; now right).
    assert (Hcm : cur <> msg) by (intros ->; apply Hcur; now left).
    cbn [runs_from]. fold (author_of h msg) in Hrun. fold (author_of h cur) in Hrun.
    destruct (String.eqb (author_of h msg) (author_of h cur)) eqn:Heq.
    + set (X := text (deref h cur) +++ d +++ text (deref h msg)) in *.
      pose proof (IH _ _ _ _ _ _ Hcur' Hnd' Hrun) as HI. clear Hrun.
      rewrite author_of_set_text in HI.
      rewrite !(runs_from_ext h _ _ _ (same_but_text_set_text h cur X)) in HI.
      pose proof (runs_from_members h (author_of h cur) rest) as (Hm1 & Hm2 & Hm3).
      destruct (runs_from h (author_of h cur) rest) as [run later].
      cbn [fst snd] in *. destruct HI as (H1 & H2 & H3).
      assert (Hother : forall r, r <> cur ->
                text (deref (set_text h cur X) r) = text (deref h r)).
      { intros r Hr. now apply deref_set_text_other. }
      split; [| split].
      * rewrite H1, deref_set_text_same.
        rewrite (tail_text_ext d h (set_text h cur X) run).
        -- unfold X. rewrite tail_text_cons, !append_assoc. reflexivity.
        -- intros r Hr. apply Hother. intros ->. apply Hcur'. now apply Hm1.
      * rewrite Forall_forall in *. intros L HL. rewrite (H2 L HL).
        apply run_text_ext. intros r Hr. apply Hother.
        intros ->. apply Hcur'. now apply (Hm2 L).
      * intros r Hr Hnot. rewrite (H3 r Hr Hnot). now apply Hother.
    + set (X := lstrip d +++ text (deref h msg)) in *.
      pose proof (IH _ _ _ _ _ _ Hmsg Hnd' Hrun) as HI. clear Hrun.
      rewrite author_of_set_text in HI.
      rewrite !(runs_from_ext h _ _ _ (same_but_text_set_text h msg X)) in HI.
      pose proof (runs_from_members h (author_of h msg) rest) as (Hm1 & Hm2 & Hm3).
      destruct (runs_from h (author_of h msg) rest) as [run later].
      cbn [fst snd map] in *. destruct HI as (H1 & H2 & H3).
      assert (Hother : forall r, r <> msg ->
                text (deref (set_text h msg X) r) = text (deref h r)).
      { intros r Hr. now apply deref_set_text_other. }
      split; [| split].
      * unfold tail_text. cbn [map String.concat]. rewrite append_nil_r.
        rewrite H3; [now apply Hother | exact Hcm |].
        intros Hin. apply Hcur'. now apply Hm3.
      * constructor.
        -- cbn [first_of hd]. rewrite H1, deref_set_text_same.
           rewrite (tail_text_ext d h (set_text h msg X) run).
           ++ unfold X. rewrite run_text_cons, !append_assoc. reflexivity.
           ++ intros r Hr. apply Hother. intros ->. apply Hmsg. now apply Hm1.
        -- rewrite Forall_forall in *. intros L HL. rewrite (H2 L HL).
           apply run_text_ext. intros r Hr. apply Hother.
           intros ->. apply Hmsg. now apply (Hm2 L).
      * intros r Hr Hnot. rewrite H3.
        -- apply Hother. intros ->. apply Hnot. now left.
        -- intros ->. apply Hnot. now left.
        -- intros Hin. apply Hnot. now right.
Qed.

Lemma merge_runs_members h s :
  (forall L x, In L (merge_runs h s) -> In x L -> In x s)
  /\ (forall x, In x (map first_of (merge_runs h s)) -> In x s).
Proof.
  assert (H1 : forall L x, In L (merge_runs h s) -> In x L -> In x s).
  { intros L x HL Hx. rewrite <- (merge_runs_concat h s).
    apply in_concat. exists L. split; assumption. }
  split; [exact H1 |].
  intros x Hx. apply in_map_iff in Hx. destruct Hx as [L [<- HL]].
  apply (H1 L); [exact HL |].
  pose proof (merge_runs_are_runs h s) as Hruns. rewrite Forall_forall in Hruns.
  destruct (Hruns L HL) as [Hne _]. destruct L; [congruence | now left].
Qed.

Lemma combine_session_texts d h s h' out :
  NoDup s ->
  combine_session d h s = Ok (h', out) ->
  Forall (fun L => text (deref h' (first_of L)) = run_text d h L) (merge_runs h s)
  /\ (forall r, ~ In r (map first_of (merge_runs h s)) ->
        text (deref h' r) = text (deref h r)).
Proof.
  intros Hnd Hrun. destruct s as [| first rest]; [discriminate |].
  inversion Hnd as [| ? ? Hfirst Hnd']; subst.
  unfold combine_session in Hrun.
  set (X := lstrip d +++ text (deref h first)) in *.
  destruct (merge_loop d rest (set_text h first X) first []) as [[h2 cur] acc] eqn:Hloop.
  inversion Hrun; subst h2 out. clear Hrun.
  pose proof (merge_loop_texts d rest _ _ _ _ _ _ Hfirst Hnd' Hloop) as HI.
  rewrite author_of_set_text in HI.
  rewrite !(runs_from_ext h _ _ _ (same_but_text_set_text h first X)) in HI.
  unfold merge_runs.
  pose proof (runs_from_members h (author_of h first) rest) as (Hm1 & Hm2 & Hm3).
  destruct (runs_from h (author_of h first) rest) as [run later].
  cbn [fst snd map] in *. destruct HI as (H1 & H2 & H3).
  assert (Hother : forall r, r <> first ->
            text (deref (set_text h first X) r) = text (deref h r)).
  { intros r Hr. now apply deref_set_text_other. }
  split.
  - constructor.
    + cbn [first_of hd]. rewrite H1, deref_set_text_same.
      rewrite (tail_text_ext d h (set_text h first X) run).
      * unfold X. rewrite run_text_cons, !append_assoc. reflexivity.
      * intros r Hr. apply Hother. intros ->. apply Hfirst. now apply Hm1.
    + rewrite Forall_forall in *. intros L HL. rewrite (H2 L HL).
      apply run_text_ext. intros r Hr. apply Hother.
      intros ->. apply Hfirst. now apply (Hm2 L).
  - intros r Hnot. rewrite H3.
    + apply Hother. intros ->. apply Hnot. now left.
    + intros ->. apply Hnot. now left.
    + intros Hin. apply Hnot. now right.
Qed.

Lemma combine_loop_texts d ss :
  forall h acc h' outs,
    NoDup (List.concat ss) ->
    combine_loop d ss h acc = Ok (h', outs) ->
    (forall s L, In s ss -> In L (merge_runs h s) ->
       text (deref h' (first_of L)) = run_text d h L)
    /\ (forall r, (forall s, In s ss -> ~ In r (map first_of (merge_runs h s))) ->
          text (deref h' r) = text (deref h r)).
Proof.
  induction ss as [| s ss IH]; intros h acc h' outs Hnd Hrun.
  - simpl in Hrun. inversion Hrun; subst. split; [intros s L [] | reflexivity].
  - cbn [combine_loop] in Hrun.
    destruct (combine_session d h s) as [[h1 out] | e] eqn:Hone; [| discriminate].
    cbn [bind] in Hrun. simpl in Hnd.
    assert (Hsame : same_but_text h h1).
    { destruct s as [| first rest]; [discriminate |].
      destruct (combine_session_ok d h first rest) as [h1' [Hok Hs]].
      rewrite Hok in Hone. inversion Hone; subst. exact Hs. }
    pose proof (combine_session_texts d h s h1 out
                  (NoDup_app_remove_r _ _ Hnd) Hone) as [Hs1 Hs2].
    pose proof (IH h1 _ h' outs (NoDup_app_remove_l _ _ Hnd) Hrun) as [Ht1 Ht2].
    assert (Hdisj : forall x s', In x s -> In s' ss -> ~ In x s').
    { intros x s' Hx Hs' Hx'. eapply NoDup_app_disjoint; [exact Hnd | exact Hx |].
      apply in_concat. exists s'. split; assumption. }
    assert (Hkeep : forall r, In r s ->
              text (deref h' r) = text (deref h1 r)).
    { intros r Hr. apply Ht2. intros s' Hs' Hin.
      rewrite (merge_runs_ext h h1 s' Hsame) in Hin.
      apply (proj2 (merge_runs_members h s')) in Hin. exact (Hdisj r s' Hr Hs' Hin). }
    split.
    + intros s0 L [<- | Hs0] HL.
      * rewrite Hkeep.
        -- rewrite Forall_forall in Hs1. now apply Hs1.
        -- apply (proj2 (merge_runs_members h s)). apply in_map. exact HL.
      * rewrite (Ht1 s0 L Hs0) by (now rewrite (merge_runs_ext h h1 s0 Hsame)).
        apply run_text_ext. intros r Hr. apply Hs2. intros Hin.
        apply (proj2 (merge_runs_members h s)) in Hin.
        apply (Hdisj r s0 Hin Hs0).
        exact (proj1 (merge_runs_members h s0) L r HL Hr).
    + intros r Hnot. rewrite Ht2.
      * apply Hs2. apply Hnot. now left.
      * intros s' Hs'. rewrite (merge_runs_ext h h1 s' Hsame). apply Hnot. now right.
Qed.

Lemma message_eq (m m' : Message) :
  date m = date m' -> author m = author m' -> text m = text m' -> m = m'.
Proof. destruct m, m'; simpl; congruence. Qed.

(** X4.  On sessions that share no message object, the merger leaves in the
    first message of every merge-run the stripped delimiter followed by the
    texts of the run joined by the delimiter, and leaves every other message
    (the ones merged into a run and the ones outside the sessions) exactly as
    it was. *)
Theorem combine_consecutive_messages_texts
    (h : heap) (ss : list session) (delimiter : string)
    (h' : heap) (outs : list session) :
  NoDup (List.concat ss) ->
  combine_consecutive_messages h ss delimiter = Ok (h', outs) ->
  (forall s run, In s ss -> In run (merge_runs h s) ->
     text (deref h' (first_of run)) = run_text delimiter h run)
  /\ (forall r, (forall s, In s ss -> ~ In r (map first_of (merge_runs h s))) ->
        deref h' r = deref h r).
Proof.
  intros Hnd Hrun.
  pose proof (combine_loop_texts delimiter ss h [] h' outs Hnd Hrun) as [H1 H2].
  apply combine_consecutive_messages_inv in Hrun. destruct Hrun as (_ & _ & Hsame).
  split; [exact H1 |].
  intros r Hnot. destruct (Hsame r) as [Ha Hd].
  apply message_eq; [exact Hd | exact Ha | now apply H2].
Qed.

Lemma combine_consecutive_messages_texts_witness :
  exists h' outs,
    combine_consecutive_messages short_talk [[0%nat; 1%nat; 2%nat]] marker
      = Ok (h', outs)
    /\ (forall s run, In s [[0%nat; 1%nat; 2%nat]] -> In run (merge_runs short_talk s) ->
          text (deref h' (first_of run)) = run_text marker short_talk run)
    /\ (forall r,
          (forall s, In s [[0%nat; 1%nat; 2%nat]] ->
                     ~ In r (map first_of (merge_runs short_talk s))) ->
          deref h' r = deref short_talk r).
Proof.
  destruct (combine_consecutive_messages short_talk [[0%nat; 1%nat; 2%nat]] marker)
    as [[h' outs] | e] eqn:Hrun; [| vm_compute in Hrun; discriminate Hrun].
  exists h', outs. split; [reflexivity |].
  apply (combine_consecutive_messages_texts short_talk [[0%nat; 1%nat; 2%nat]] marker
           h' outs); [| exact Hrun].
  simpl. repeat constructor; simpl; intuition discriminate.
Defined.

(** ** The loop over the chats: what a kept session looks like *)

Lemma alternating_adjacent h s :
  forall i a b,
    alternating h s ->
    nth_error s i = Some a -> nth_error s (S i) = Some b ->
    author_of h a <> author_of h b.
Proof.
  induction s as [| x s IH]; intros i a b Halt Ha Hb.
  - destruct i; discriminate.
  - destruct Halt as [Hhead Htail]. destruct i as [| i].
    + simpl in Ha, Hb. inversion Ha; subst.
      destruct s as [| y s]; [discriminate |]. simpl in Hb. inversion Hb; subst.
      exact Hhead.
    + simpl in Ha. apply (IH i a b Htail Ha). exact Hb.
Qed.

Lemma process_chats_sessions target threshold d chats :
  forall h h' chats',
    process_chats target threshold d h chats = Ok (h', chats') ->
    Forall (fun s => s <> [] /\ alternating h' s /\ has_target h' target s = true)
           (all_sessions chats').
Proof.
  induction chats as [| chat rest IH]; intros h h' chats' Hrun; simpl in Hrun.
  - inversion Hrun; subst. constructor.
  - destruct (process_chat_ok target threshold d h chat)
      as [h1 [chat1 (Hone & Hsame1 & Hsess)]].
    rewrite Hone in Hrun. cbn [bind] in Hrun.
    destruct (process_chats target threshold d h1 rest) as [[h2 rest'] | e] eqn:Hrest;
      [| discriminate].
    cbn [bind] in Hrun. inversion Hrun; subst h2 chats'. clear Hrun.
    destruct (process_chats_ok target threshold d rest h1)
      as [h2 [rest2 (Hrest2 & Hsame2 & _)]].
    rewrite Hrest in Hrest2. inversion Hrest2; subst h2 rest2. clear Hrest2.
    unfold all_sessions. simpl. apply Forall_app. split; [| exact (IH _ _ _ Hrest)].
    rewrite Hsess. apply Forall_forall. intros s Hs.
    apply filter_In in Hs. destruct Hs as [Hin Htarget].
    apply in_map_iff in Hin. destruct Hin as [s0 [<- Hs0]].
    pose proof (create_sessions_nonempty h (messages chat) threshold) as Hne.
    rewrite Forall_forall in Hne.
    split; [apply merge_runs_nonempty; now apply Hne |].
    split.
    + eapply alternating_ext; [| apply merge_runs_alternating].
      eapply same_but_text_trans; eassumption.
    + now rewrite (has_target_ext h1 h' target _ Hsame2).
Qed.

(** X5.  Every session that the loop over the chats keeps for a target holds
    a reply of the target: a message of the target at a position of 1 or
    more whose predecessor is by someone else; it has at least two messages,
    and no two adjacent messages of one author. *)
Theorem process_chats_keeps_replies
    (target : string) (threshold : Z) (delimiter : string)
    (h : heap) (chats : list Chat) (h' : heap) (chats' : list Chat) :
  process_chats (Some target) threshold delimiter h chats = Ok (h', chats') ->
  forall s, In s (all_sessions chats') ->
    (2 <= List.length s)%nat
    /\ alternating h' s
    /\ exists i prev msg,
         nth_error s i = Some prev /\ nth_error s (S i) = Some msg
         /\ author_of h' msg = target /\ author_of h' prev <> target.
Proof.
  intros Hrun s Hs.
  pose proof (process_chats_sessions _ _ _ _ _ _ _ Hrun) as Hall.
  rewrite Forall_forall in Hall. destruct (Hall s Hs) as (_ & Halt & Htarget).
  apply has_target_spec in Htarget.
  destruct Htarget as [i [msg (Hi & Hnth & Heq)]]. injection Heq as Hmsg.
  destruct i as [| j]; [lia |].
  assert (Hlen : (S j < List.length s)%nat).
  { apply nth_error_Some. rewrite Hnth. discriminate. }
  destruct (nth_error s j) as [prev |] eqn:Hprev.
  2:{ apply nth_error_None in Hprev. lia. }
  split; [lia |]. split; [exact Halt |].
  exists j, prev, msg.
  split; [exact Hprev |]. split; [exact Hnth |]. split; [now symmetry |].
  rewrite Hmsg. exact (alternating_adjacent h' s j prev msg Halt Hprev Hnth).
Qed.

Lemma process_chats_keeps_replies_witness :
  exists h' chats',
    process_chats (Some "Alice"%string) 10 marker short_talk [recent_chat]
      = Ok (h', chats')
    /\ forall s, In s (all_sessions chats') ->
         (2 <= List.length s)%nat
         /\ alternating h' s
         /\ exists i prev msg,
              nth_error s i = Some prev /\ nth_error s (S i) = Some msg
              /\ author_of h' msg = "Alice"%string
              /\ author_of h' prev <> "Alice"%string.
Proof.
  destruct (process_chats (Some "Alice"%string) 10 marker short_talk [recent_chat])
    as [[h' chats'] | e] eqn:Hrun; [| vm_compute in Hrun; discriminate Hrun].
  exists h', chats'. split; [reflexivity |].
  exact (process_chats_keeps_replies "Alice" 10 marker short_talk [recent_chat]
           h' chats' Hrun).
Defined.

(** ** The writer: reading the lines back *)

Lemma json_read_escape_char c rest :
  json_read_string (json_escape_char c +++ rest) = read_more c (json_read_string rest).
Proof.
  destruct c as [[] [] [] [] [] [] [] []]; reflexivity.
Qed.

Lemma json_read_escape s rest :
  json_read_string (json_escape s +++ dquote +++ rest) = Some (s, rest).
Proof.
  induction s as [| c s IH]; [reflexivity |].
  cbn [json_escape]. rewrite append_assoc, json_read_escape_char, IH. reflexivity.
Qed.

Lemma strip_prefix_app p x : strip_prefix p (p +++ x) = Some x.
Proof.
  induction p as [| c p IH]; simpl; [reflexivity |].
  now rewrite Ascii.eqb_refl.
Qed.

Lemma read_text_record_dump s : read_text_record (json_dump_text s) = Some s.
Proof.
  assert (Hd : json_dump_text s =
               ("{" +++ dquote +++ "text" +++ dquote +++ ": " +++ dquote)
               +++ (json_escape s +++ dquote +++ "}")) by reflexivity.
  unfold read_text_record. rewrite Hd, strip_prefix_app, json_read_escape.
  reflexivity.
Qed.

(** X7.  What the writer puts on a line can be read back: the JSON string
    of a text decodes to that text (quotes, backslashes and control
    characters included), so that every line of the output file decodes to
    the markup of its session. *)
Theorem written_lines_read_back (h : heap) (ss : list session) :
  (forall s rest, json_read_string (json_escape s +++ dquote +++ rest) = Some (s, rest))
  /\ (forall s, read_text_record (json_dump_text s) = Some s)
  /\ map read_text_record (jsonl_lines h ss)
     = map (fun s => Some (format_session h s)) ss.
Proof.
  split; [apply json_read_escape |].
  split; [apply read_text_record_dump |].
  unfold jsonl_lines. rewrite map_map. apply map_ext.
  intros s. apply read_text_record_dump.
Qed.

(** ** The loader: what it allocates and what it reads *)

Lemma build_messages_spec msgs :
  forall h h' refs,
    build_messages h msgs = (h', refs) ->
    refs = seq (fresh h) (List.length refs)
    /\ fresh h' = (fresh h + List.length refs)%nat
    /\ map (deref h') refs = usable_messages msgs
    /\ (forall r, (r < fresh h)%nat -> deref h' r = deref h r).
Proof.
  induction msgs as [| msg rest IH]; intros h h' refs Hrun; simpl in Hrun.
  - inversion Hrun; subst. simpl. rewrite Nat.add_0_r. repeat split; reflexivity.
  - unfold message_of_raw, usable_messages. fold usable_messages.
    unfold message_of_raw.
    destruct (usable_author msg) as [a |] eqn:Ha.
    + set (m := {| date := raw_date msg; author := a; text := message_text msg |}) in *.
      unfold alloc in Hrun.
      set (h1 := {| cells := fun r' => if Nat.eqb r' (fresh h) then m else cells h r';
                    fresh := S (fresh h) |}) in *.
      destruct (build_messages h1 rest) as [h2 rs] eqn:Hrest.
      inversion Hrun; subst h' refs. clear Hrun.
      apply IH in Hrest. destruct Hrest as (Hseq & Hfresh & Hmap & Hframe).
      change (fresh h1) with (S (fresh h)) in *.
      split; [simpl; now rewrite <- Hseq |].
      split; [simpl; lia |].
      split.
      * simpl. rewrite Hmap. f_equal.
        rewrite Hframe by lia. unfold deref, h1. simpl. now rewrite Nat.eqb_refl.
      * intros r Hr. rewrite Hframe by lia. unfold deref, h1. simpl.
        destruct (Nat.eqb_spec r (fresh h)); [lia | reflexivity].
    + apply IH in Hrun. exact Hrun.
Qed.

Lemma chat_type_name_parse s ty : parse_chat_type s = Ok ty -> chat_type_name ty = s.
Proof.
  unfold parse_chat_type.
  destruct (String.eqb_spec s "personal_chat") as [-> | _]; [now intros [= <-] |].
  destruct (String.eqb_spec s "private_group") as [-> | _]; [now intros [= <-] |].
  destruct (String.eqb_spec s "private_supergroup") as [-> | _]; [now intros [= <-] |].
  discriminate.
Qed.

Lemma usable_author_nonempty msg a : usable_author msg = Some a -> a <> EmptyString.
Proof.
  unfold usable_author. destruct (raw_from msg) as [[a' |] |]; try discriminate.
  destruct a' as [| c a'']; simpl; [discriminate |].
  destruct (raw_text_entities msg), (raw_sticker_emoji msg);
    intros [= <-]; discriminate.
Qed.

Lemma usable_messages_authors msgs :
  Forall (fun m => author m <> EmptyString) (usable_messages msgs).
Proof.
  induction msgs as [| msg rest IH]; simpl; [constructor |].
  unfold message_of_raw. destruct (usable_author msg) as [a |] eqn:Ha; [| exact IH].
  constructor; [| exact IH]. simpl. eapply usable_author_nonempty. exact Ha.
Qed.

Lemma chat_view_frame h h' chat :
  (forall r, In r (messages chat) -> deref h' r = deref h r) ->
  chat_view h' chat = chat_view h chat.
Proof.
  intros Hsame. unfold chat_view. f_equal. apply map_ext_in. exact Hsame.
Qed.

Lemma flat_map_snoc {A B : Type} (f : A -> list B) (l : list A) (x : A) :
  flat_map f (l ++ [x]) = flat_map f l ++ f x.
Proof. rewrite flat_map_app. simpl. now rewrite app_nil_r. Qed.

Lemma loaded_step h0 done st chat st' :
  loaded h0 done st ->
  load_chat st chat = Ok st' ->
  loaded h0 (done ++ [chat]) st'.
Proof.
  intros [Hviews Hrefs Hfresh Hframe Hsess] Hstep.
  unfold load_chat in Hstep.
  assert (Hnone : loaded_chat chat = [] ->
                  loaded h0 (done ++ [chat])
                    {| ld_heap := ld_heap st; ld_chats := ld_chats st;
                       ld_target_id := ld_target_id st';
                       ld_target_name := ld_target_name st' |}).
  { intros Hc. constructor; simpl; try assumption.
    rewrite flat_map_snoc, Hc. now rewrite app_nil_r. }
  destruct (raw_name chat) as [[nm |] |] eqn:Hname.
  - destruct (is_empty_string nm) eqn:Hnm.
    + inversion Hstep; subst st'. destruct st. apply Hnone.
      unfold loaded_chat. now rewrite Hname, Hnm.
    + destruct (build_messages (ld_heap st) (raw_messages chat)) as [h1 msgs] eqn:Hb.
      apply build_messages_spec in Hb. destruct Hb as (Hseq & Hf1 & Hmap & Hfr1).
      destruct msgs as [| r0 msgs].
      * inversion Hstep; subst st'. clear Hstep. simpl in Hf1.
        assert (Hsame : forall r, (r < fresh (ld_heap st))%nat ->
                          deref h1 r = deref (ld_heap st) r) by exact Hfr1.
        assert (Hin : forall r, In r (List.concat (map messages (ld_chats st))) ->
                        (r < fresh (ld_heap st))%nat).
        { intros r Hr. rewrite Hrefs in Hr. apply in_seq in Hr. lia. }
        constructor; simpl.
        -- rewrite flat_map_snoc. unfold loaded_chat at 2.
           rewrite Hname, Hnm, <- Hmap. cbn [map]. rewrite app_nil_r, <- Hviews.
           apply map_ext_in. intros c Hc. apply chat_view_frame.
           intros r Hr. apply Hsame, Hin. apply in_concat.
           exists (messages c). split; [now apply in_map | exact Hr].
        -- rewrite Hrefs. f_equal. lia.
        -- lia.
        -- intros r Hr. rewrite Hfr1 by lia. now apply Hframe.
        -- exact Hsess.
      * destruct (parse_chat_type (raw_type chat)) as [ty | e] eqn:Hty;
          [| discriminate].
        cbn [bind] in Hstep. inversion Hstep; subst st'. clear Hstep.
        assert (Hin : forall r, In r (List.concat (map messages (ld_chats st))) ->
                        (r < fresh (ld_heap st))%nat).
        { intros r Hr. rewrite Hrefs in Hr. apply in_seq in Hr. lia. }
        constructor; simpl.
        -- rewrite flat_map_snoc, map_app. unfold loaded_chat at 2.
           rewrite Hname, Hnm, <- Hmap. cbn [map]. f_equal.
           ++ rewrite <- Hviews. apply map_ext_in. intros c Hc. apply chat_view_frame.
              intros r Hr. apply Hfr1, Hin. apply in_concat.
              exists (messages c). split; [now apply in_map | exact Hr].
           ++ unfold chat_view. simpl. now rewrite (chat_type_name_parse _ _ Hty).
        -- rewrite map_app, concat_app. cbn [map List.concat messages].
           rewrite app_nil_r, Hrefs, Hf1.
           set (refs := r0 :: msgs) in *.
           replace (fresh (ld_heap st) + List.length refs - fresh h0)%nat
             with ((fresh (ld_heap st) - fresh h0) + List.length refs)%nat by lia.
           rewrite seq_app. f_equal.
           replace (fresh h0 + (fresh (ld_heap st) - fresh h0))%nat
             with (fresh (ld_heap st)) by lia.
           exact Hseq.
        -- lia.
        -- intros r Hr. rewrite Hfr1 by lia. now apply Hframe.
        -- apply Forall_app. split; [exact Hsess | constructor; [reflexivity | constructor]].
  - inversion Hstep; subst st'. destruct st. apply Hnone.
    unfold loaded_chat. now rewrite Hname.
  - destruct (next_from_id _ (raw_messages chat)) as [msg | e]; [| discriminate].
    cbn [bind] in Hstep.
    destruct (str_of_from msg) as [nm | e]; [| discriminate].
    cbn [bind] in Hstep. inversion Hstep; subst st'. simpl.
    constructor; simpl; try assumption.
    rewrite flat_map_snoc. unfold loaded_chat at 2.
    now rewrite Hname, app_nil_r.
Qed.

Lemma loaded_loop h0 export :
  forall done st st',
    loaded h0 done st ->
    load_loop st export = Ok st' ->
    loaded h0 (done ++ export) st'.
Proof.
  induction export as [| chat rest IH]; intros done st st' Hinv Hrun; simpl in Hrun.
  - inversion Hrun; subst. now rewrite app_nil_r.
  - destruct (load_chat st chat) as [st1 | e] eqn:Hstep; [| discriminate].
    cbn [bind] in Hrun.
    replace (done ++ chat :: rest) with ((done ++ [chat]) ++ rest)
      by (now rewrite <- app_assoc).
    eapply IH; [| exact Hrun]. eapply loaded_step; eassumption.
Qed.

Lemma loaded_initial h : loaded h [] (initial_state h).
Proof.
  constructor; simpl; try reflexivity; try constructor.
  now rewrite Nat.sub_diag.
Qed.

Lemma load_chats_inv path export h h' chats target lg :
  load_chats path export h = Ok (h', chats, target, lg) ->
  exists st,
    load_loop (initial_state h) export = Ok st
    /\ h' = ld_heap st /\ chats = ld_chats st
    /\ target = (ld_target_id st, ld_target_name st)
    /\ lg = [(INFO, "Loading chats from '" +++ path +++ "'...")]
            ++ [(INFO, "Found " +++ str_of_nat (List.length (ld_chats st))
                       +++ " chats in file '" +++ path +++ "'")]
            ++ (if falsy_name (ld_target_name st)
                then [(WARNING, target_warning)] else []).
Proof.
  unfold load_chats. fold (initial_state h). intros Hrun.
  destruct (load_loop (initial_state h) export) as [st | e]; [| discriminate].
  cbn [bind] in Hrun. inversion Hrun; subst. exists st.
  repeat split; try reflexivity.
  destruct (falsy_name (ld_target_name st)); simpl; reflexivity.
Qed.

(** X9.  The loader builds every message as a new object: the messages of
    the chats it returns, taken in order, are the references from the first
    free one of the store it was given up to the first free one of the store
    it returns, each once, and the objects that were in the store before are
    left as they were. *)
Theorem load_chats_allocates_fresh
    (path : string) (export : list RawChat) (h h' : heap) (chats : list Chat)
    (target : option Z * option string) (lg : log) :
  load_chats path export h = Ok (h', chats, target, lg) ->
  List.concat (map messages chats) = seq (fresh h) (fresh h' - fresh h)
  /\ NoDup (List.concat (map messages chats))
  /\ (fresh h <= fresh h')%nat
  /\ (forall r, (r < fresh h)%nat -> deref h' r = deref h r).
Proof.
  intros Hrun. apply load_chats_inv in Hrun.
  destruct Hrun as [st (Hloop & -> & -> & _ & _)].
  pose proof (loaded_loop h export [] _ _ (loaded_initial h) Hloop)
    as [_ Hrefs Hfresh Hframe _].
  split; [exact Hrefs |]. split; [rewrite Hrefs; apply seq_NoDup |].
  split; assumption.
Qed.

Lemma load_chats_allocates_fresh_witness :
  exists h' chats target lg,
    load_chats "result.json" small_export short_talk = Ok (h', chats, target, lg)
    /\ List.concat (map messages chats) = seq (fresh short_talk) (fresh h' - fresh short_talk)
    /\ NoDup (List.concat (map messages chats))
    /\ (fresh short_talk <= fresh h')%nat
    /\ (forall r, (r < fresh short_talk)%nat -> deref h' r = deref short_talk r).
Proof.
  destruct (load_chats "result.json" small_export short_talk)
    as [[[[h' chats] target] lg] | e] eqn:Hrun; [| vm_compute in Hrun; discriminate Hrun].
  exists h', chats, target, lg. split; [reflexivity |].
  exact (load_chats_allocates_fresh "result.json" small_export short_talk
           h' chats target lg Hrun).
Defined.

(** ** The loader: the target and the entries it passes over *)

Lemma next_from_id_find wanted msgs m :
  next_from_id wanted msgs = Ok m ->
  find (fun x => match raw_from_id x with
                 | Some fid => String.eqb fid wanted
                 | None => false
                 end) msgs = Some m.
Proof.
  induction msgs as [| msg rest IH]; simpl; [discriminate |].
  destruct (raw_from_id msg) as [fid |]; [| discriminate].
  destruct (String.eqb fid wanted); [now intros [= ->] | exact IH].
Qed.

Lemma load_chat_named st chat st' :
  raw_name chat <> None ->
  load_chat st chat = Ok st' ->
  ld_target_id st' = ld_target_id st /\ ld_target_name st' = ld_target_name st.
Proof.
  intros Hname Hstep. unfold load_chat in Hstep.
  destruct (raw_name chat) as [[nm |] |]; [| | congruence].
  - destruct (is_empty_string nm); [inversion Hstep; subst; now split |].
    destruct (build_messages (ld_heap st) (raw_messages chat)) as [h1 msgs].
    destruct msgs as [| r0 msgs]; [inversion Hstep; subst; now split |].
    destruct (parse_chat_type (raw_type chat)); [| discriminate].
    cbn [bind] in Hstep. inversion Hstep; subst; now split.
  - inversion Hstep; subst; now split.
Qed.

Lemma load_loop_named export :
  Forall (fun c => raw_name c <> None) export ->
  forall st st',
    load_loop st export = Ok st' ->
    ld_target_id st' = ld_target_id st /\ ld_target_name st' = ld_target_name st.
Proof.
  induction 1 as [| chat rest Hchat _ IH]; intros st st' Hrun; simpl in Hrun.
  - inversion Hrun; subst. now split.
  - destruct (load_chat st chat) as [st1 | e] eqn:Hstep; [| discriminate].
    cbn [bind] in Hrun. apply IH in Hrun.
    destruct (load_chat_named st chat st1 Hchat Hstep) as [Hid Hnm].
    destruct Hrun as [Hid' Hnm']. split; congruence.
Qed.

Lemma load_chat_self st chat st' :
  raw_name chat = None ->
  load_chat st chat = Ok st' ->
  exists m nm,
    own_message chat = Some m
    /\ str_of_from m = Ok nm
    /\ ld_target_id st' = Some (raw_id chat)
    /\ ld_target_name st' = Some nm.
Proof.
  intros Hname Hstep. unfold load_chat in Hstep. rewrite Hname in Hstep.
  destruct (next_from_id ("user" +++ str_of_Z (raw_id chat)) (raw_messages chat))
    as [m | e] eqn:Hnext; [| discriminate].
  cbn [bind] in Hstep.
  destruct (str_of_from m) as [nm | e] eqn:Hfrom; [| discriminate].
  cbn [bind] in Hstep. inversion Hstep; subst. simpl.
  exists m, nm. split; [now apply next_from_id_find |]. now repeat split.
Qed.

Lemma build_messages_none msgs h :
  usable_messages msgs = [] -> build_messages h msgs = (h, []).
Proof.
  induction msgs as [| msg rest IH]; simpl; [reflexivity |].
  unfold message_of_raw. destruct (usable_author msg); [discriminate | exact IH].
Qed.

Lemma load_chat_passed_over st chat :
  passed_over chat -> load_chat st chat = Ok st.
Proof.
  unfold passed_over, load_chat. destruct (raw_name chat) as [[nm |] |].
  - intros [-> | Hnone]; [reflexivity |].
    destruct (is_empty_string nm); [reflexivity |].
    rewrite (build_messages_none _ _ Hnone). now destruct st.
  - reflexivity.
  - intros [].
Qed.

(** X11.  An entry of a deleted account (name null or empty) and a chat none
    of whose records is usable are passed over, whatever else they hold: the
    loader returns, or raises, what it does on the export without them. *)
Theorem load_chats_passes_over
    (path : string) (before : list RawChat) (chat : RawChat) (after : list RawChat)
    (h : heap) :
  passed_over chat ->
  load_chats path (before ++ chat :: after) h = load_chats path (before ++ after) h.
Proof.
  intros Hpass. unfold load_chats. rewrite !load_loop_app.
  destruct (load_loop _ before) as [st | e]; [| reflexivity].
  cbn [bind load_loop]. rewrite (load_chat_passed_over st chat Hpass). reflexivity.
Qed.

Lemma load_chats_passes_over_witness :
  load_chats "result.json" ([saved_messages] ++ deleted_account :: [bob_chat]) empty_heap
  = load_chats "result.json" ([saved_messages] ++ [bob_chat]) empty_heap.
Proof.
  apply (load_chats_passes_over "result.json" [saved_messages] deleted_account
           [bob_chat] empty_heap).
  exact I.
Defined.

(** X12.  A chat with a name and a usable record whose type is none of
    [personal_chat], [private_group] and [private_supergroup] makes the
    loader raise the validation error of [Chat], wherever it stands in the
    export, once the entries before it have been loaded. *)
Theorem load_chats_rejects_other_types
    (path : string) (before : list RawChat) (chat : RawChat) (after : list RawChat)
    (h : heap) (st : loader_state) (nm : string) :
  load_loop (initial_state h) before = Ok st ->
  raw_name chat = Some (Some nm) ->
  nm <> EmptyString ->
  usable_messages (raw_messages chat) <> [] ->
  raw_type chat <> "personal_chat"%string ->
  raw_type chat <> "private_group"%string ->
  raw_type chat <> "private_supergroup"%string ->
  load_chats path (before ++ chat :: after) h = Raise ValidationError.
Proof.
  intros Hbefore Hname Hnm Husable H1 H2 H3. unfold load_chats.
  fold (initial_state h). rewrite load_loop_app, Hbefore. cbn [bind load_loop].
  unfold load_chat. rewrite Hname.
  destruct nm as [| c nm]; [congruence |]. cbn [is_empty_string].
  destruct (build_messages (ld_heap st) (raw_messages chat)) as [h1 msgs] eqn:Hb.
  apply build_messages_spec in Hb. destruct Hb as (_ & _ & Hmap & _).
  destruct msgs as [| r0 msgs]; [simpl in Hmap; congruence |].
  unfold parse_chat_type.
  destruct (String.eqb_spec (raw_type chat) "personal_chat"); [contradiction |].
  destruct (String.eqb_spec (raw_type chat) "private_group"); [contradiction |].
  destruct (String.eqb_spec (raw_type chat) "private_supergroup"); [contradiction |].
  reflexivity.
Qed.

Lemma load_chats_rejects_other_types_witness :
  load_chats "result.json" ([saved_messages] ++ bot_chat :: [bob_chat]) empty_heap
  = Raise ValidationError.
Proof.
  eapply (load_chats_rejects_other_types "result.json" [saved_messages] bot_chat
            [bob_chat] empty_heap _ "Weather").
  - reflexivity.
  - reflexivity.
  - discriminate.
  - discriminate.
  - discriminate.
  - discriminate.
  - discriminate.
Defined.

Lemma next_from_id_key_error wanted before m after :
  Forall (fun x => exists fid, raw_from_id x = Some fid /\ fid <> wanted) before ->
  raw_from_id m = None ->
  next_from_id wanted (before ++ m :: after) = Raise (KeyError "from_id").
Proof.
  induction 1 as [| x before [fid [Hfid Hneq]] _ IH]; intros Hm; simpl.
  - now rewrite Hm.
  - rewrite Hfid. destruct (String.eqb_spec fid wanted); [contradiction | now apply IH].
Qed.

(** X13.  In the entry without a name, a record without a sender identifier
    (a service record) that comes before any message of the owner makes the
    loader raise [KeyError] for the key [from_id], even when a message of
    the owner follows. *)
Theorem load_chats_key_error_without_from_id
    (path : string) (before : list RawChat) (self : RawChat) (after : list RawChat)
    (h : heap) (st : loader_state)
    (earlier : list RawMessage) (m : RawMessage) (later : list RawMessage) :
  load_loop (initial_state h) before = Ok st ->
  raw_name self = None ->
  raw_messages self = earlier ++ m :: later ->
  Forall (fun x => exists fid, raw_from_id x = Some fid
                               /\ fid <> "user" +++ str_of_Z (raw_id self)) earlier ->
  raw_from_id m = None ->
  load_chats path (before ++ self :: after) h = Raise (KeyError "from_id").
Proof.
  intros Hbefore Hname Hmsgs Hearlier Hm. unfold load_chats.
  fold (initial_state h). rewrite load_loop_app, Hbefore. cbn [bind load_loop].
  unfold load_chat. rewrite Hname, Hmsgs.
  rewrite (next_from_id_key_error _ _ _ _ Hearlier Hm). reflexivity.
Qed.

Lemma load_chats_key_error_without_from_id_witness :
  load_chats "result.json" ([] ++ saved_with_service :: [bob_chat]) empty_heap
  = Raise (KeyError "from_id").
Proof.
  eapply (load_chats_key_error_without_from_id "result.json" [] saved_with_service
            [bob_chat] empty_heap _ []).
  - reflexivity.
  - reflexivity.
  - reflexivity.
  - constructor.
  - reflexivity.
Defined.

(** ** The inlined variant of [transform_chats] *)

Lemma subseq_refl {A : Type} (l : list A) : subseq l l.
Proof. induction l; constructor; assumption. Qed.

Lemma subseq_nil_l {A : Type} (l : list A) : subseq [] l.
Proof. induction l; constructor; assumption. Qed.

Lemma subseq_app {A : Type} (a b c d : list A) :
  subseq a b -> subseq c d -> subseq (a ++ c) (b ++ d).
Proof.
  intros Hab Hcd. induction Hab; simpl; [exact Hcd | |]; constructor; assumption.
Qed.

Lemma subseq_trans {A : Type} (a b c : list A) :
  subseq a b -> subseq b c -> subseq a c.
Proof.
  intros Hab Hbc. revert a Hab. induction Hbc as [| x b c Hbc IH | x b c Hbc IH];
    intros a Hab.
  - exact Hab.
  - apply subseq_skip. now apply IH.
  - inversion Hab; subst.
    + apply subseq_skip. now apply IH.
    + apply subseq_keep. now apply IH.
Qed.

Lemma subseq_In {A : Type} (a b : list A) (x : A) : subseq a b -> In x a -> In x b.
Proof.
  induction 1 as [| y a b _ IH | y a b _ IH]; simpl; intros Hx.
  - exact Hx.
  - right. now apply IH.
  - destruct Hx as [-> | Hx]; [now left | right; now apply IH].
Qed.

Lemma subseq_NoDup {A : Type} (a b : list A) : subseq a b -> NoDup b -> NoDup a.
Proof.
  induction 1 as [| y a b Hab IH | y a b Hab IH]; intros Hnd.
  - exact Hnd.
  - inversion Hnd; subst. now apply IH.
  - inversion Hnd as [| ? ? Hnot Hnd']; subst. constructor; [| now apply IH].
    intros Hin. apply Hnot. eapply subseq_In; eassumption.
Qed.

Lemma subseq_filter {A : Type} (f : A -> bool) (l : list A) : subseq (filter f l) l.
Proof.
  induction l as [| x l IH]; simpl; [constructor |].
  destruct (f x); [apply subseq_keep | apply subseq_skip]; exact IH.
Qed.

Lemma subseq_concat_filter {A : Type} (f : list A -> bool) (ss : list (list A)) :
  subseq (List.concat (filter f ss)) (List.concat ss).
Proof.
  induction ss as [| s ss IH]; simpl; [constructor |].
  destruct (f s); simpl.
  - apply subseq_app; [apply subseq_refl | exact IH].
  - apply (subseq_app [] s); [apply subseq_nil_l | exact IH].
Qed.

Lemma subseq_concat_map {A : Type} (f : list A -> list A) (ss : list (list A)) :
  (forall s, subseq (f s) s) ->
  subseq (List.concat (map f ss)) (List.concat ss).
Proof.
  intros Hf. induction ss as [| s ss IH]; simpl; [constructor |].
  apply subseq_app; [apply Hf | exact IH].
Qed.

Lemma runs_from_heads_subseq h rest :
  forall a, subseq (map first_of (snd (runs_from h a rest))) rest.
Proof.
  induction rest as [| msg rest IH]; intros a; simpl; [constructor |].
  destruct (String.eqb (author_of h msg) a).
  - specialize (IH a). destruct (runs_from h a rest) as [run later].
    simpl in *. apply subseq_skip. exact IH.
  - specialize (IH (author_of h msg)).
    destruct (runs_from h (author_of h msg) rest) as [run later].
    simpl in *. apply subseq_keep. exact IH.
Qed.

Lemma merge_runs_heads_subseq h s : subseq (map first_of (merge_runs h s)) s.
Proof.
  destruct s as [| first rest]; [constructor |]. unfold merge_runs.
  pose proof (runs_from_heads_subseq h rest (author_of h first)) as Hsub.
  destruct (runs_from h (author_of h first) rest) as [run later].
  simpl in *. apply subseq_keep. exact Hsub.
Qed.

Lemma sessions_loop_ext h h' threshold msgs :
  same_but_text h h' ->
  forall ss cur,
    sessions_loop h' threshold msgs ss cur = sessions_loop h threshold msgs ss cur.
Proof.
  intros Hsame. induction msgs as [| msg rest IH]; intros ss cur; simpl; [reflexivity |].
  destruct cur as [| c cur0]; [apply IH |].
  assert (Hext : extends_session h' (last (c :: cur0) msg) msg threshold
                 = extends_session h (last (c :: cur0) msg) msg threshold).
  { unfold extends_session.
    destruct (Hsame msg) as [_ ->].
    destruct (Hsame (last (c :: cur0) msg)) as [_ ->]. reflexivity. }
  rewrite Hext. destruct (extends_session h _ msg threshold); apply IH.
Qed.

(** The segmenter reads dates only. *)
Lemma create_sessions_ext h h' msgs threshold :
  same_but_text h h' ->
  create_sessions h' msgs threshold = create_sessions h msgs threshold.
Proof.
  intros Hsame. unfold create_sessions. now rewrite (sessions_loop_ext h h').
Qed.

Lemma process_chats_subseq target threshold d chats :
  forall h h' chats',
    process_chats target threshold d h chats = Ok (h', chats') ->
    subseq (List.concat (all_sessions chats')) (List.concat (map messages chats)).
Proof.
  induction chats as [| chat rest IH]; intros h h' chats' Hrun; simpl in Hrun.
  - inversion Hrun; subst. constructor.
  - destruct (process_chat_ok target threshold d h chat)
      as [h1 [chat1 (Hone & _ & Hsess)]].
    rewrite Hone in Hrun. cbn [bind] in Hrun.
    destruct (process_chats target threshold d h1 rest) as [[h2 rest'] | e] eqn:Hrest;
      [| discriminate].
    cbn [bind] in Hrun. inversion Hrun; subst h2 chats'. clear Hrun.
    unfold all_sessions. simpl. rewrite concat_app. apply subseq_app.
    + rewrite Hsess.
      eapply subseq_trans; [apply subseq_concat_filter |].
      rewrite <- (create_sessions_concat h (messages chat) threshold) at 2.
      apply subseq_concat_map. intros s. apply merge_runs_heads_subseq.
    + exact (IH _ _ _ Hrest).
Qed.

Lemma newer_chats_subseq h cutoff chats :
  subseq (List.concat (map messages (newer_chats h cutoff chats)))
         (List.concat (map messages chats)).
Proof.
  unfold newer_chats. induction chats as [| chat rest IH]; simpl; [constructor |].
  destruct (Legacy.has_messages _); simpl.
  - apply subseq_app; [apply subseq_filter | exact IH].
  - apply (subseq_app [] (messages chat)); [apply subseq_nil_l | exact IH].
Qed.

Lemma del_dates_NoDup msgs :
  forall dateless,
    NoDup msgs -> (forall r, In r msgs -> ~ In r dateless) ->
    exists dateless',
      Legacy.del_dates dateless msgs = Some dateless'
      /\ (forall r, In r dateless' <-> In r msgs \/ In r dateless).
Proof.
  induction msgs as [| msg rest IH]; intros dateless Hnd Hdisj; simpl.
  - exists dateless. split; [reflexivity |]. intros r. tauto.
  - inversion Hnd as [| ? ? Hmsg Hnd']; subst.
    destruct (existsb (Nat.eqb msg) dateless) eqn:Hex.
    + apply existsb_exists in Hex. destruct Hex as [x [Hx Heq]].
      apply Nat.eqb_eq in Heq. subst x. exfalso. apply (Hdisj msg); [now left | exact Hx].
    + destruct (IH (msg :: dateless) Hnd') as [dl [Hrun Hin]].
      * intros r Hr [<- | Hd]; [contradiction |]. apply (Hdisj r); [now right | exact Hd].
      * exists dl. split; [exact Hrun |]. intros r. rewrite Hin. simpl. tauto.
Qed.

Lemma write_lines_content path ds :
  forall fs old,
    fs path = Some old ->
    Legacy.write_lines fs path ds path =
    Some (old +++ String.concat EmptyString
                    (map (fun l => l +++ newline) (map json_dump_text ds))).
Proof.
  induction ds as [| d ds IH]; intros fs old Hold; cbn [Legacy.write_lines map].
  - rewrite Hold. simpl. now rewrite append_nil_r.
  - erewrite IH.
    2:{ unfold write. rewrite String.eqb_refl, Hold. reflexivity. }
    rewrite concat_empty_cons, !append_assoc. reflexivity.
Qed.

Lemma write_lines_elsewhere path ds p :
  p <> path -> forall fs, Legacy.write_lines fs path ds p = fs p.
Proof.
  intros Hp. induction ds as [| d ds IH]; intros fs; simpl; [reflexivity |].
  rewrite IH. unfold write.
  destruct (String.eqb_spec p path); [contradiction | reflexivity].
Qed.

Lemma write_lines_write_sessions fs output h chats p :
  Legacy.write_lines (open_w fs output) output
    (map (format_session h) (all_sessions chats)) p
  = write_sessions fs output h chats p.
Proof.
  destruct (String.eqb_spec p output) as [-> | Hp].
  - rewrite write_sessions_content.
    erewrite write_lines_content.
    2:{ unfold open_w. rewrite String.eqb_refl. reflexivity. }
    unfold jsonl_text, jsonl_lines. cbn [String.append]. rewrite !map_map. reflexivity.
  - rewrite write_lines_elsewhere by exact Hp.
    rewrite write_sessions_elsewhere by exact Hp.
    unfold open_w. destruct (String.eqb_spec p output); [contradiction | reflexivity].
Qed.

(** The two middle stages of the inlined variant, run over all the chats one
    stage after the other, against the loop that runs them chat by chat. *)
Lemma legacy_stages_process target threshold d h0 chats :
  forall h,
    same_but_text h0 h ->
    exists h' merged,
      Legacy.merge_chats d h (Legacy.segment_chats h0 threshold chats) = Ok (h', merged)
      /\ same_but_text h h'
      /\ forall h'', same_but_text h' h'' ->
           process_chats target threshold d h chats
           = Ok (h', Legacy.keep_target_sessions h'' target merged).
Proof.
  induction chats as [| chat rest IH]; intros h Hsame; simpl.
  - exists h, []. split; [reflexivity |]. split; [apply same_but_text_refl |].
    intros h'' _. reflexivity.
  - rewrite <- (create_sessions_ext h0 h _ _ Hsame).
    destruct (combine_loop_ok d _ (create_sessions_nonempty h (messages chat) threshold)
                h []) as [h1 [Hrun Hsame1]].
    unfold combine_consecutive_messages at 1. rewrite Hrun. cbn [bind app].
    destruct (IH h1 (same_but_text_trans _ _ _ Hsame Hsame1))
      as [h' [merged (Hrest & Hsame2 & Hproc)]].
    rewrite Hrest. cbn [bind].
    eexists; eexists. split; [reflexivity |].
    split; [eapply same_but_text_trans; eassumption |].
    intros h'' Hsame3.
    unfold process_chat, combine_consecutive_messages. cbn [sessions set_sessions].
    rewrite Hrun. cbn [bind app]. rewrite (Hproc h'' Hsame3). cbn [bind].
    f_equal. f_equal. cbn [map Legacy.keep_target_sessions]. f_equal.
    unfold set_sessions. cbn [name type messages sessions]. f_equal.
    apply filter_ext. intros s.
    symmetry. apply has_target_ext.
    eapply same_but_text_trans; eassumption.
Qed.

Lemma legacy_filter_chats_ticks h now last_x_months cutoff chats :
  cutoff_of now last_x_months = Ok cutoff ->
  forall tick,
    Legacy.filter_chats h (fun _ => now) last_x_months tick chats =
    Ok ((tick + List.length (List.concat (map messages chats)))%nat,
        map (fun chat =>
               with_messages chat (filter (newer_than h cutoff) (messages chat)))
            chats).
Proof.
  intros Hcut. induction chats as [| chat rest IH]; intros tick; simpl.
  - now rewrite Nat.add_0_r.
  - rewrite (legacy_filter_messages_spec h now last_x_months cutoff _ Hcut).
    cbn [bind]. rewrite IH. cbn [bind]. rewrite length_app, Nat.add_assoc. reflexivity.
Qed.

Lemma newer_chats_messages h cutoff chats :
  Forall (fun c => messages c <> []
                   /\ Forall (fun r => cutoff < date (deref h r)) (messages c))
         (newer_chats h cutoff chats).
Proof.
  unfold newer_chats. apply Forall_forall. intros c Hc.
  apply filter_In in Hc. destruct Hc as [Hin Hhas].
  apply in_map_iff in Hin. destruct Hin as [chat [<- _]].
  unfold Legacy.has_messages in Hhas. cbn [with_messages messages] in *.
  split; [destruct (filter _ (messages chat)); [discriminate | discriminate] |].
  apply Forall_forall. intros r Hr. apply filter_In in Hr. destruct Hr as [_ Hr].
  unfold newer_than in Hr. now apply Z.ltb_lt.
Qed.

(** X15.  With a clock that stands still during the run and a cutoff that
    can be computed, the date filter of the inlined variant reads the clock
    once for every message and returns the chats that still have a message
    strictly newer than the cutoff, in order, each with those messages, in
    order, and no others. *)
Theorem legacy_date_filter_keeps_newer
    (h : heap) (now : datetime) (last_x_months : Z) (cutoff : datetime)
    (chats : list Chat) (tick : nat) :
  cutoff_of now last_x_months = Ok cutoff ->
  Legacy.date_filter h (fun _ => now) last_x_months tick chats =
    Ok ((tick + List.length (List.concat (map messages chats)))%nat,
        newer_chats h cutoff chats)
  /\ map messages (newer_chats h cutoff chats) =
     filter (fun ms => match ms with [] => false | _ :: _ => true end)
       (map (fun chat => filter (fun r => cutoff <? date (deref h r)) (messages chat))
            chats)
  /\ map name (newer_chats h cutoff chats) =
     map name (filter (fun chat =>
                         existsb (fun r => cutoff <? date (deref h r)) (messages chat))
                      chats)
  /\ Forall (fun c => messages c <> []
                      /\ Forall (fun r => cutoff < date (deref h r)) (messages c))
            (newer_chats h cutoff chats).
Proof.
  intros Hcut. split; [| split; [| split]].
  - unfold Legacy.date_filter.
    rewrite (legacy_filter_chats_ticks h now last_x_months cutoff chats Hcut).
    reflexivity.
  - unfold newer_chats, Legacy.has_messages, newer_than.
    induction chats as [| chat rest IH]; simpl; [reflexivity |].
    destruct (filter _ (messages chat)); simpl; now rewrite IH.
  - unfold newer_chats, Legacy.has_messages, newer_than.
    induction chats as [| chat rest IH]; simpl; [reflexivity |].
    assert (Hex : forall l,
               match filter (fun r => cutoff <? date (deref h r)) l with
               | [] => false | _ :: _ => true end
               = existsb (fun r => cutoff <? date (deref h r)) l).
    { induction l as [| r l IHl]; simpl; [reflexivity |].
      destruct (cutoff <? date (deref h r)); [reflexivity | exact IHl]. }
    rewrite Hex. destruct (existsb _ (messages chat)); simpl; now rewrite IH.
  - apply newer_chats_messages.
Qed.

Lemma legacy_date_filter_keeps_newer_witness :
  Legacy.date_filter short_talk (fun _ => noon + minutes 10) 60 0 [recent_chat] =
    Ok ((0 + List.length (List.concat (map messages [recent_chat])))%nat,
        newer_chats short_talk (noon + minutes 10 - 1800 * us_per_day) [recent_chat])
  /\ map messages (newer_chats short_talk (noon + minutes 10 - 1800 * us_per_day)
                     [recent_chat]) =
     filter (fun ms => match ms with [] => false | _ :: _ => true end)
       (map (fun chat =>
               filter (fun r => noon + minutes 10 - 1800 * us_per_day
                                <? date (deref short_talk r)) (messages chat))
            [recent_chat])
  /\ map name (newer_chats short_talk (noon + minutes 10 - 1800 * us_per_day)
                 [recent_chat]) =
     map name (filter (fun chat =>
                         existsb (fun r => noon + minutes 10 - 1800 * us_per_day
                                           <? date (deref short_talk r))
                                 (messages chat))
                      [recent_chat])
  /\ Forall (fun c => messages c <> []
                      /\ Forall (fun r => noon + minutes 10 - 1800 * us_per_day
                                          < date (deref short_talk r)) (messages c))
            (newer_chats short_talk (noon + minutes 10 - 1800 * us_per_day)
               [recent_chat]).
Proof.
  apply (legacy_date_filter_keeps_newer short_talk (noon + minutes 10) 60
           (noon + minutes 10 - 1800 * us_per_day) [recent_chat] 0).
  vm_compute. reflexivity.
Defined.

Lemma load_chats_NoDup path export h h' chats target lg :
  load_chats path export h = Ok (h', chats, target, lg) ->
  NoDup (List.concat (map messages chats)).
Proof.
  intros Hrun. apply load_chats_inv in Hrun.
  destruct Hrun as [st (Hloop & -> & -> & _ & _)].
  pose proof (loaded_loop h export [] _ _ (loaded_initial h) Hloop)
    as [_ Hrefs _ _ _].
  rewrite Hrefs. apply seq_NoDup.
Qed.

(** X16.  When the loader returns and the clock stands still at an instant
    whose cutoff can be computed, the inlined variant of [transform_chats]
    runs to its end: no session is empty when it is merged, no date is
    deleted twice.  It leaves the store and the output file that the loop of
    segmenting, merging and filtering of [src/prepare_data.py] and its writer
    give for the chats filtered by date, and has deleted the dates of the
    messages of the sessions kept, of these only. *)
Theorem legacy_transform_chats_agrees
    (input output : string) (export : list RawChat) (h : heap) (fs : files)
    (now : datetime) (tick : nat) (target : option string)
    (months threshold : Z) (delimiter : string)
    (h1 : heap) (chats : list Chat) (target_id : option Z)
    (extracted : option string) (lg1 : log) (cutoff : datetime) :
  load_chats input export h = Ok (h1, chats, (target_id, extracted), lg1) ->
  cutoff_of now months = Ok cutoff ->
  exists h2 chats' fs' dateless lg,
    Legacy.transform_chats input output export h fs (fun _ => now) tick
      target months threshold delimiter
    = Legacy.Done (h2, fs', dateless, lg)
    /\ process_chats (name_or target extracted) threshold delimiter h1
         (newer_chats h1 cutoff chats) = Ok (h2, chats')
    /\ (forall p, fs' p = write_sessions fs output h2 chats' p)
    /\ (forall r, In r dateless <-> In r (List.concat (all_sessions chats'))).
Proof.
  intros Hload Hcut.
  pose proof (load_chats_NoDup _ _ _ _ _ _ _ Hload) as Hnd.
  unfold Legacy.transform_chats. rewrite Hload. cbn [Legacy.run].
  unfold Legacy.date_filter.
  rewrite (legacy_filter_chats_ticks h1 now months cutoff chats Hcut).
  cbn [bind Legacy.run]. fold (newer_chats h1 cutoff chats).
  destruct (legacy_stages_process (name_or target extracted) threshold delimiter h1
              (newer_chats h1 cutoff chats) h1 (same_but_text_refl h1))
    as [h2 [merged (Hmerge & _ & Hproc)]].
  specialize (Hproc h2 (same_but_text_refl h2)).
  rewrite Hmerge. cbn [Legacy.run].
  set (kept := Legacy.keep_target_sessions h2 (name_or target extracted) merged) in *.
  assert (Hkept : NoDup (List.concat (all_sessions kept))).
  { eapply subseq_NoDup; [| exact Hnd].
    eapply subseq_trans; [exact (process_chats_subseq _ _ _ _ _ _ _ Hproc) |].
    apply newer_chats_subseq. }
  destruct (del_dates_NoDup _ [] Hkept) as [dateless [Hdel Hin]];
    [intros r _ [] |].
  rewrite Hdel.
  eexists h2, kept, _, dateless, _. split; [reflexivity |].
  split; [exact Hproc |].
  split; [intros p; apply write_lines_write_sessions |].
  intros r. rewrite Hin. simpl. tauto.
Qed.

Lemma legacy_transform_chats_agrees_witness :
  exists h1 chats target_id extracted lg1 h2 chats' fs' dateless lg,
    load_chats "result.json" small_export empty_heap
      = Ok (h1, chats, (target_id, extracted), lg1)
    /\ Legacy.transform_chats "result.json" "training_data.jsonl" small_export
         empty_heap no_files (fun _ => noon + minutes 10) 0
         None 60 10 marker
       = Legacy.Done (h2, fs', dateless, lg)
    /\ process_chats (name_or None extracted) 10 marker h1
         (newer_chats h1 (noon + minutes 10 - 1800 * us_per_day) chats)
       = Ok (h2, chats')
    /\ (forall p, fs' p = write_sessions no_files "training_data.jsonl" h2 chats' p)
    /\ (forall r, In r dateless <-> In r (List.concat (all_sessions chats'))).
Proof.
  destruct (load_chats "result.json" small_export empty_heap)
    as [[[[h1 chats] [target_id extracted]] lg1] | e] eqn:Hload;
    [| vm_compute in Hload; discriminate Hload].
  assert (Hcut : cutoff_of (noon + minutes 10) 60
                 = Ok (noon + minutes 10 - 1800 * us_per_day))
    by (vm_compute; reflexivity).
  destruct (legacy_transform_chats_agrees "result.json" "training_data.jsonl"
              small_export empty_heap no_files (noon + minutes 10) 0 None 60 10 marker
              h1 chats target_id extracted lg1 _ Hload Hcut)
    as [h2 [chats' [fs' [dateless [lg H]]]]].
  exists h1, chats, target_id, extracted, lg1, h2, chats', fs', dateless, lg.
  split; [reflexivity | exact H].
Defined.

(** ** The model chooser *)

Lemma split_on_nonempty sep s : split_on sep s <> [].
Proof.
  destruct s as [| c s]; simpl; [discriminate |].
  destruct (Ascii.eqb c sep); [discriminate |].
  destruct (split_on sep s); discriminate.
Qed.

Lemma split_on_absent sep s : occurs sep s = false -> split_on sep s = [s].
Proof.
  induction s as [| c s IH]; simpl; [reflexivity |].
  intros H. apply orb_false_iff in H. destruct H as [Hc Hs].
  rewrite Hc, (IH Hs). reflexivity.
Qed.

Lemma last_cons_nonempty {A : Type} (x : A) (l : list A) (d : A) :
  l <> [] -> last (x :: l) d = last l d.
Proof. destruct l; [congruence | reflexivity]. Qed.

Lemma split_on_after_sep sep a b d :
  exists p ps,
    split_on sep (a +++ String sep b) = p :: ps
    /\ ps <> []
    /\ last ps d = last (split_on sep b) d.
Proof.
  induction a as [| x a (p & ps & Heq & Hne & Hlast)]; simpl.
  - rewrite Ascii.eqb_refl. exists EmptyString, (split_on sep b).
    split; [reflexivity |]. split; [apply split_on_nonempty | reflexivity].
  - rewrite Heq. destruct (Ascii.eqb x sep).
    + exists EmptyString, (p :: ps). split; [reflexivity |].
      split; [discriminate |]. now rewrite last_cons_nonempty.
    + exists (String x p), ps. repeat split; assumption.
Qed.

Lemma split_on_cons sep c s :
  split_on sep (String c s) =
  if Ascii.eqb c sep then EmptyString :: split_on sep s
  else match split_on sep s with
       | [] => [String c EmptyString]
       | p :: ps => String c p :: ps
       end.
Proof. reflexivity. Qed.

Lemma last_split_length sep s d :
  (String.length (last (split_on sep s) d) <= String.length s)%nat.
Proof.
  induction s as [| c s IH]; [simpl; lia |].
  rewrite split_on_cons. cbn [String.length].
  destruct (Ascii.eqb c sep).
  - rewrite last_cons_nonempty by apply split_on_nonempty. lia.
  - destruct (split_on sep s) as [| p ps] eqn:Hs.
    + exfalso. eapply split_on_nonempty. exact Hs.
    + destruct ps as [| q ps].
      * cbn [last String.length] in *. lia.
      * rewrite last_cons_nonempty by discriminate.
        rewrite last_cons_nonempty in IH by discriminate. lia.
Qed.

Lemma split_on_single sep s p : split_on sep s = [p] -> occurs sep s = false.
Proof.
  revert p. induction s as [| x s IH]; intros p Hsplit; [reflexivity |].
  rewrite split_on_cons in Hsplit. cbn [occurs].
  destruct (Ascii.eqb x sep).
  - inversion Hsplit as [[Hp Hnil]]. exfalso. eapply split_on_nonempty. exact Hnil.
  - destruct (split_on sep s) as [| p' ps'] eqn:Hs'.
    + exfalso. eapply split_on_nonempty. exact Hs'.
    + inversion Hsplit; subst. simpl. now apply (IH p').
Qed.

Lemma last_split_shorter sep s d :
  occurs sep s = true ->
  (String.length (last (split_on sep s) d) < String.length s)%nat.
Proof.
  induction s as [| c s IH]; [discriminate |].
  rewrite split_on_cons. cbn [occurs String.length].
  destruct (Ascii.eqb c sep); cbn [orb].
  - intros _. rewrite last_cons_nonempty by apply split_on_nonempty.
    pose proof (last_split_length sep s d). lia.
  - intros Hs. specialize (IH Hs).
    destruct (split_on sep s) as [| p ps] eqn:Hsplit.
    + exfalso. eapply split_on_nonempty. exact Hsplit.
    + destruct ps as [| q ps].
      * apply split_on_single in Hsplit. congruence.
      * rewrite last_cons_nonempty by discriminate.
        rewrite last_cons_nonempty in IH by discriminate. lia.
Qed.

(** The path recovered from a label is what follows the last [@] of the
    path the label was made for. *)
Lemma model_path_label dir choice :
  model_path (dir +++ String at_sign choice) =
  last (split_on at_sign choice) EmptyString.
Proof.
  unfold model_path.
  destruct (split_on_after_sep at_sign dir choice EmptyString)
    as (p & ps & Heq & Hne & Hlast).
  rewrite Heq, last_cons_nonempty by exact Hne. exact Hlast.
Qed.

Lemma model_path_label_iff dir choice :
  model_path (dir +++ String at_sign choice) = choice <->
  occurs at_sign choice = false.
Proof.
  rewrite model_path_label. split.
  - intros Heq. destruct (occurs at_sign choice) eqn:Hocc; [| reflexivity].
    pose proof (last_split_shorter at_sign choice EmptyString Hocc) as Hlt.
    rewrite Heq in Hlt. lia.
  - intros Hocc. now rewrite (split_on_absent _ _ Hocc).
Qed.

Lemma insert_sorted_perm x l : Permutation (insert_sorted x l) (x :: l).
Proof.
  induction l as [| y l IH]; simpl; [reflexivity |].
  destruct (String.leb x y); [reflexivity |].
  rewrite IH. apply perm_swap.
Qed.

Lemma sorted_perm l : Permutation (sorted l) l.
Proof.
  induction l as [| x l IH]; simpl; [reflexivity |].
  rewrite insert_sorted_perm. now constructor.
Qed.

Lemma insert_sorted_Sorted x l :
  Sorted (fun a b => String.leb a b = true) l ->
  Sorted (fun a b => String.leb a b = true) (insert_sorted x l).
Proof.
  induction 1 as [| y l Hl IH Hhd]; simpl.
  - repeat constructor.
  - destruct (String.leb x y) eqn:Hxy.
    + constructor; [constructor; assumption | constructor; exact Hxy].
    + constructor; [exact IH |].
      assert (Hyx : String.leb y x = true).
      { destruct (String.leb_total x y) as [H | H]; [congruence | exact H]. }
      destruct l as [| z l]; simpl.
      * constructor. exact Hyx.
      * inversion Hhd; subst. destruct (String.leb x z); constructor; assumption.
Qed.

Lemma sorted_Sorted l : Sorted (fun a b => String.leb a b = true) (sorted l).
Proof.
  induction l as [| x l IH]; simpl; [constructor | now apply insert_sorted_Sorted].
Qed.

Lemma Sorted_rev_snoc (R : string -> string -> Prop) l x :
  Sorted (fun a b => R b a) l ->
  match l with [] => True | _ :: _ => R x (last l x) end ->
  Sorted (fun a b => R b a) (l ++ [x]).
Proof.
  induction 1 as [| y l Hl IH Hhd]; simpl; intros Hlast.
  - repeat constructor.
  - destruct l as [| z l].
    + simpl in *. repeat constructor. exact Hlast.
    + constructor.
      * apply IH. exact Hlast.
      * inversion Hhd; subst. simpl. constructor. assumption.
Qed.

Lemma Sorted_rev (R : string -> string -> Prop) l :
  Sorted R l -> Sorted (fun a b => R b a) (rev l).
Proof.
  induction 1 as [| y l Hl IH Hhd]; simpl; [constructor |].
  apply Sorted_rev_snoc; [exact IH |].
  destruct (rev l) as [| z r] eqn:Hrev; [exact I |].
  assert (Hlast : last (z :: r) y = hd y l).
  { rewrite <- Hrev. clear. destruct l as [| a l]; [reflexivity |].
    simpl. rewrite last_last. reflexivity. }
  rewrite Hlast. destruct l as [| a l]; [discriminate |].
  inversion Hhd; subst. assumption.
Qed.

Lemma model_labels_spec choices labels :
  model_labels choices = Ok labels ->
  Forall2 (fun choice label => model_label choice = Ok label) choices labels.
Proof.
  revert labels. induction choices as [| choice rest IH]; intros labels Hrun;
    simpl in Hrun.
  - inversion Hrun. constructor.
  - destruct (model_label choice) as [label | e] eqn:Hlabel; [| discriminate].
    cbn [bind] in Hrun.
    destruct (model_labels rest) as [labels' | e]; [| discriminate].
    cbn [bind] in Hrun. inversion Hrun; subst.
    constructor; [exact Hlabel | now apply IH].
Qed.

(** X17.  The choices of the model chooser are one label for each path
    found, in decreasing order: a label is the third component of its path,
    an [@] and the path, and the path that [process_inference] takes back out
    of a label is the path it was made for exactly when that path holds no
    [@]. *)
Theorem get_model_choices_labels
    (runs pretrained : list string) (choices : list string) :
  get_model_choices runs pretrained = Ok choices ->
  exists labels,
    Forall2 (fun path label =>
               exists dir,
                 nth_error (split_on slash path) 2 = Some dir
                 /\ label = dir +++ String at_sign path
                 /\ (model_path label = path <-> occurs at_sign path = false))
            (runs ++ pretrained) labels
    /\ Permutation choices labels
    /\ Sorted (fun a b => String.leb b a = true) choices.
Proof.
  unfold get_model_choices. intros Hrun.
  destruct (model_labels (runs ++ pretrained)) as [labels | e] eqn:Hlabels;
    [| discriminate].
  cbn [bind] in Hrun. inversion Hrun; subst choices. clear Hrun.
  exists labels. split; [| split].
  - apply model_labels_spec in Hlabels.
    eapply Forall2_impl; [| exact Hlabels].
    intros path label Hlabel. unfold model_label in Hlabel.
    destruct (nth_error (split_on slash path) 2) as [dir |]; [| discriminate].
    inversion Hlabel; subst. exists dir.
    split; [reflexivity |]. split; [reflexivity | apply model_path_label_iff].
  - rewrite <- Permutation_rev. apply sorted_perm.
  - apply (Sorted_rev (fun a b => String.leb a b = true)). apply sorted_Sorted.
Qed.

Lemma get_model_choices_labels_witness :
  exists choices labels,
    get_model_choices ["/runs/axo-1/lora-out/merged"%string]
                      ["/pretrained/models--m/snapshots/s"%string] = Ok choices
    /\ Forall2 (fun path label =>
                  exists dir,
                    nth_error (split_on slash path) 2 = Some dir
                    /\ label = dir +++ String at_sign path
                    /\ (model_path label = path <-> occurs at_sign path = false))
               (["/runs/axo-1/lora-out/merged"%string]
                ++ ["/pretrained/models--m/snapshots/s"%string]) labels
    /\ Permutation choices labels
    /\ Sorted (fun a b => String.leb b a = true) choices.
Proof.
  destruct (get_model_choices ["/runs/axo-1/lora-out/merged"%string]
                              ["/pretrained/models--m/snapshots/s"%string])
    as [choices | e] eqn:Hrun; [| vm_compute in Hrun; discriminate Hrun].
  destruct (get_model_choices_labels _ _ _ Hrun) as [labels H].
  exists choices, labels. split; [reflexivity | exact H].
Defined.

(** ** The texts shown and the events streamed *)

Lemma running_texts_nth chunks :
  forall text k,
    (k < List.length chunks)%nat ->
    nth_error (running_texts text chunks) k =
    Some (text +++ String.concat EmptyString (firstn (S k) chunks)).
Proof.
  induction chunks as [| chunk rest IH]; intros text k Hk; [simpl in Hk; lia |].
  destruct k as [| k].
  - cbn [running_texts nth_error firstn]. rewrite concat_empty_cons.
    simpl. now rewrite append_nil_r.
  - cbn [running_texts nth_error]. rewrite IH by (simpl in Hk; lia).
    change (firstn (S (S k)) (chunk :: rest)) with (chunk :: firstn (S k) rest).
    rewrite concat_empty_cons, append_assoc. reflexivity.
Qed.

Lemma running_texts_length chunks :
  forall text, List.length (running_texts text chunks) = List.length chunks.
Proof.
  induction chunks as [| chunk rest IH]; intros text; simpl; [reflexivity |].
  now rewrite IH.
Qed.

Lemma running_texts_last chunks :
  forall text d,
    chunks <> [] ->
    last (running_texts text chunks) d = text +++ String.concat EmptyString chunks.
Proof.
  induction chunks as [| chunk rest IH]; intros text d Hne; [congruence |].
  cbn [running_texts]. destruct rest as [| chunk' rest'].
  - reflexivity.
  - rewrite last_cons_nonempty by discriminate.
    rewrite IH by discriminate.
    rewrite (concat_empty_cons chunk), append_assoc. reflexivity.
Qed.

(** X18.  [process_inference] shows first the prompt with the loading note,
    then one text for each chunk received; the text shown after a chunk is
    the prompt followed by all the chunks received so far, so that the last
    one is the prompt followed by the whole completion. *)
Theorem process_inference_texts (input_text : string) (chunks : list string) :
  List.length (process_inference input_text chunks) = S (List.length chunks)
  /\ nth_error (process_inference input_text chunks) 0
     = Some (input_text +++ "... (model loading)")
  /\ (forall k, (k < List.length chunks)%nat ->
        nth_error (process_inference input_text chunks) (S k) =
        Some (input_text +++ String.concat EmptyString (firstn (S k) chunks)))
  /\ (chunks <> [] ->
      last (process_inference input_text chunks) EmptyString =
      input_text +++ String.concat EmptyString chunks).
Proof.
  unfold process_inference. split; [simpl; now rewrite running_texts_length |].
  split; [reflexivity |].
  split; [intros k Hk; now apply running_texts_nth |].
  intros Hne. rewrite last_cons_nonempty.
  - now apply running_texts_last.
  - intros Hnil. apply (f_equal (@List.length string)) in Hnil.
    rewrite running_texts_length in Hnil. destruct chunks; [congruence | discriminate].
Qed.

Lemma no_control_app a b : no_control (a +++ b) = no_control a && no_control b.
Proof.
  induction a as [| c a IH]; simpl; [reflexivity |].
  now rewrite IH, andb_assoc.
Qed.

Lemma json_escape_char_no_control c : no_control (json_escape_char c) = true.
Proof.
  destruct c as [[] [] [] [] [] [] [] []]; reflexivity.
Qed.

Lemma json_escape_no_control s : no_control (json_escape s) = true.
Proof.
  induction s as [| c s IH]; simpl; [reflexivity |].
  now rewrite no_control_app, json_escape_char_no_control, IH.
Qed.

Lemma json_dump_text_no_control s : no_control (json_dump_text s) = true.
Proof.
  unfold json_dump_text. rewrite !no_control_app, json_escape_no_control. reflexivity.
Qed.

Lemma no_control_no_newline s : no_control s = true -> has_newline s = false.
Proof.
  induction s as [| c s IH]; simpl; [reflexivity |].
  intros H. apply andb_true_iff in H. destruct H as [Hc Hs].
  rewrite (IH Hs), orb_false_r.
  apply negb_true_iff, Nat.ltb_ge in Hc. apply Nat.eqb_neq. lia.
Qed.

Lemma sse_event_lines chunk rest :
  split_lines (sse_event chunk +++ rest) =
  (("data: " +++ json_dump_text chunk) :: EmptyString :: fst (split_lines rest),
   snd (split_lines rest)).
Proof.
  unfold sse_event. rewrite !append_assoc.
  rewrite <- (append_assoc "data: " (json_dump_text chunk)).
  rewrite split_lines_line.
  2:{ apply no_control_no_newline. rewrite no_control_app, json_dump_text_no_control.
      reflexivity. }
  change (newline +++ rest) with (EmptyString +++ newline +++ rest).
  rewrite split_lines_line by reflexivity. reflexivity.
Qed.

(** X19.  The stream of [completion] is, for each chunk received, one line
    [data: ] followed by the JSON record of the chunk, and one empty line:
    a chunk never breaks its event, for its line has no control character
    (no line feed, no carriage return), and the record reads back as the
    chunk. *)
Theorem sse_stream_events (chunks : list string) :
  split_lines (sse_stream chunks) =
    (flat_map (fun chunk => ["data: " +++ json_dump_text chunk; EmptyString]) chunks,
     EmptyString)
  /\ (forall chunk, no_control ("data: " +++ json_dump_text chunk) = true)
  /\ (forall chunk,
        match strip_prefix "data: " ("data: " +++ json_dump_text chunk) with
        | Some record => read_text_record record
        | None => None
        end = Some chunk).
Proof.
  split; [| split].
  - unfold sse_stream. induction chunks as [| chunk rest IH]; [reflexivity |].
    cbn [map flat_map]. rewrite concat_empty_cons, sse_event_lines, IH. reflexivity.
  - intros chunk. rewrite no_control_app, json_dump_text_no_control. reflexivity.
  - intros chunk. rewrite strip_prefix_app. apply read_text_record_dump.
Qed.

(** ** The run as a whole: bounds and what is left untouched *)

(** X14.  Once the export is loaded, [transform_chats] raises
    [OverflowError] when the cutoff cannot be computed: when the window is of
    more than 999999999 days, or reaches beyond the first or the last instant
    a [datetime] can hold. *)
Theorem transform_chats_overflow
    (input output : string) (export : list RawChat) (h : heap) (fs : files)
    (now : datetime) (target : option string) (months threshold : Z)
    (delimiter : string)
    (h1 : heap) (chats : list Chat) (found : option Z * option string) (lg1 : log) :
  load_chats input export h = Ok (h1, chats, found, lg1) ->
  timedelta_max_days < Z.abs (months * 30)
  \/ now - months * 30 * us_per_day < 0
  \/ datetime_max_days * us_per_day <= now - months * 30 * us_per_day ->
  transform_chats input output export h fs now target months threshold delimiter
  = Raise OverflowError.
Proof.
  intros Hload Hrange. unfold transform_chats. rewrite Hload.
  destruct found as [target_id extracted]. cbn [bind].
  assert (Hcut : cutoff_of now months = Raise OverflowError).
  { unfold cutoff_of, timedelta_of_days.
    destruct (Z.leb_spec (Z.abs (months * 30)) timedelta_max_days) as [Hle | Hgt];
      [| reflexivity].
    cbn [bind]. unfold datetime_minus.
    destruct Hrange as [H | [H | H]]; [lia | |].
    - destruct (Z.leb_spec 0 (now - months * 30 * us_per_day)); [lia | reflexivity].
    - destruct (Z.leb_spec 0 (now - months * 30 * us_per_day)); [| reflexivity].
      destruct (Z.ltb_spec (now - months * 30 * us_per_day)
                           (datetime_max_days * us_per_day)); [lia | reflexivity]. }
  rewrite Hcut. reflexivity.
Qed.

Lemma transform_chats_overflow_witness :
  transform_chats "result.json" "training_data.jsonl" small_export empty_heap
    no_files noon None 40000000 10 marker
  = Raise OverflowError.
Proof.
  eapply (transform_chats_overflow "result.json" "training_data.jsonl" small_export
            empty_heap no_files noon None 40000000 10 marker).
  - reflexivity.
  - left. vm_compute. reflexivity.
Defined.

(** X6.  The loop over the chats drops no chat and touches nothing but the
    sessions and the texts: the chats come back in the same number and order
    with their names, types and lists of messages, and every message of the
    store keeps its author and its date. *)
Theorem process_chats_keeps_chats
    (target : option string) (threshold : Z) (delimiter : string)
    (h : heap) (chats : list Chat) (h' : heap) (chats' : list Chat) :
  process_chats target threshold delimiter h chats = Ok (h', chats') ->
  map name chats' = map name chats
  /\ map type chats' = map type chats
  /\ map messages chats' = map messages chats
  /\ same_but_text h h'.
Proof.
  revert h h' chats'. induction chats as [| chat rest IH]; intros h h' chats' Hrun;
    simpl in Hrun.
  - inversion Hrun; subst. repeat split; try reflexivity; apply same_but_text_refl.
  - unfold process_chat in Hrun. cbn [sessions set_sessions] in Hrun.
    destruct (combine_consecutive_messages h
                (create_sessions h (messages chat) threshold) delimiter)
      as [[h1 merged] | e] eqn:Hmerge; [| discriminate].
    cbn [bind] in Hrun.
    destruct (process_chats target threshold delimiter h1 rest) as [[h2 rest'] | e]
      eqn:Hrest; [| discriminate].
    cbn [bind] in Hrun. inversion Hrun; subst h2 chats'. clear Hrun.
    apply combine_consecutive_messages_inv in Hmerge.
    destruct Hmerge as (_ & _ & Hsame1).
    destruct (IH _ _ _ Hrest) as (Hn & Ht & Hm & Hsame2).
    cbn [map name type messages]. rewrite Hn, Ht, Hm.
    repeat split; try reflexivity.
    + apply (same_but_text_trans _ _ _ Hsame1 Hsame2).
    + apply (same_but_text_trans _ _ _ Hsame1 Hsame2).
Qed.

Lemma process_chats_keeps_chats_witness :
  exists h' chats',
    process_chats (Some "Alice"%string) 10 marker short_talk [recent_chat]
      = Ok (h', chats')
    /\ map name chats' = map name [recent_chat]
    /\ map type chats' = map type [recent_chat]
    /\ map messages chats' = map messages [recent_chat]
    /\ same_but_text short_talk h'.
Proof.
  destruct (process_chats (Some "Alice"%string) 10 marker short_talk [recent_chat])
    as [[h' chats'] | e] eqn:Hrun; [| vm_compute in Hrun; discriminate Hrun].
  exists h', chats'. split; [reflexivity |].
  exact (process_chats_keeps_chats (Some "Alice"%string) 10 marker short_talk
           [recent_chat] h' chats' Hrun).
Defined.

(** * The claims and properties restated on the code's results *)

(** ** The target filter inside the loop over the chats *)

Lemma process_chats_kept target threshold d h0 chats :
  forall h,
    same_but_text h0 h ->
    exists h' chats',
      process_chats target threshold d h chats = Ok (h', chats')
      /\ same_but_text h h'
      /\ Forall2
           (fun chat chat' =>
              exists hc,
                same_but_text h0 hc
                /\ sessions chat' =
                   filter (has_target hc target)
                     (map (fun s => map first_of (merge_runs h0 s))
                          (create_sessions h0 (messages chat) threshold)))
           chats chats'.
Proof.
  induction chats as [| chat rest IH]; intros h Hsame; simpl.
  - exists h, []. split; [reflexivity |]. split; [apply same_but_text_refl | constructor].
  - destruct (process_chat_ok target threshold d h chat)
      as [h1 [chat1 (Hone & Hsame1 & Hsess)]].
    rewrite Hone. cbn [bind].
    destruct (IH h1 (same_but_text_trans _ _ _ Hsame Hsame1))
      as [h2 [rest' (Hrest & Hsame2 & Hall)]].
    rewrite Hrest. cbn [bind].
    exists h2, (chat1 :: rest'). split; [reflexivity |].
    split; [eapply same_but_text_trans; eassumption |].
    constructor; [| exact Hall].
    exists h1. split; [eapply same_but_text_trans; eassumption |].
    rewrite Hsess. rewrite (create_sessions_ext h0 h _ _ Hsame).
    f_equal. apply map_ext. intros s. now rewrite (merge_runs_ext h0 h s Hsame).
Qed.

Lemma kept_sessions_spec h hc target merged kept :
  same_but_text hc h ->
  kept = filter (has_target hc target) merged ->
  subseq kept merged
  /\ forall s,
       In s kept <->
       In s merged
       /\ exists i msg,
            (1 <= i)%nat /\ nth_error s i = Some msg
            /\ target = Some (author (deref h msg)).
Proof.
  intros Hsame ->. split; [apply subseq_filter |].
  intros s. rewrite filter_In, <- (has_target_ext hc h target s Hsame), has_target_spec.
  reflexivity.
Qed.

(** C3.  In the loop over the chats the filter keeps, of the merged sessions
    of a chat and in their order, exactly the sessions in which some message
    at a position of 1 or more is by the target: for one chat, against the
    sessions that [combine_consecutive_messages] returns for it, and for the
    whole list of chats.  With no target ([None]) no session is kept, the
    loop returns normally and the output file is written empty; so does
    [transform_chats] whenever the loader returns with no target name and
    none is given. *)
Theorem session_filter_keeps_target_sessions
    (target : option string) (threshold : Z) (delimiter : string)
    (h : heap) (chats : list Chat) :
  (forall chat,
     exists h1 merged chat',
       combine_consecutive_messages h
         (create_sessions h (messages chat) threshold) delimiter = Ok (h1, merged)
       /\ process_chat target threshold delimiter h chat = Ok (h1, chat')
       /\ subseq (sessions chat') merged
       /\ forall s,
            In s (sessions chat') <->
            In s merged
            /\ exists i msg,
                 (1 <= i)%nat /\ nth_error s i = Some msg
                 /\ target = Some (author (deref h1 msg)))
  /\ (exists h' chats',
        process_chats target threshold delimiter h chats = Ok (h', chats')
        /\ Forall2
             (fun chat chat' =>
                subseq (sessions chat')
                  (map (fun s => map first_of (merge_runs h s))
                       (create_sessions h (messages chat) threshold))
                /\ forall s,
                     In s (sessions chat') <->
                     In s (map (fun s0 => map first_of (merge_runs h s0))
                               (create_sessions h (messages chat) threshold))
                     /\ exists i msg,
                          (1 <= i)%nat /\ nth_error s i = Some msg
                          /\ target = Some (author (deref h' msg)))
             chats chats'
        /\ (target = None ->
            List.concat (map sessions chats') = []
            /\ forall fs output,
                 write_sessions fs output h' chats' output = Some EmptyString))
  /\ (forall input output export fs now months cutoff
             h1 loaded_chats target_id lg,
        target = None ->
        load_chats input export h = Ok (h1, loaded_chats, (target_id, None), lg) ->
        cutoff_of now months = Ok cutoff ->
        exists h2 fs' lg',
          transform_chats input output export h fs now None months threshold delimiter
          = Ok (h2, fs', lg')
          /\ fs' output = Some EmptyString).
Proof.
  split; [| split].
  - intros chat.
    destruct (combine_loop_ok delimiter _
                (create_sessions_nonempty h (messages chat) threshold) h [])
      as [h1 [Hrun _]].
    cbn [app] in Hrun.
    eexists h1, _, _. split; [exact Hrun |].
    unfold process_chat, combine_consecutive_messages. cbn [sessions set_sessions].
    rewrite Hrun. cbn [bind]. split; [reflexivity |].
    cbn [sessions set_sessions].
    apply (kept_sessions_spec h1 h1 target); [apply same_but_text_refl | reflexivity].
  - destruct (process_chats_kept target threshold delimiter h chats h
                (same_but_text_refl h)) as [h' [chats' (Hrun & Hsame & Hall)]].
    exists h', chats'. split; [exact Hrun |]. split.
    + pose proof (process_chats_ok target threshold delimiter chats h)
        as [h2 [chats2 (Hrun2 & _ & _ & _)]].
      clear Hrun2.
      assert (Hframe : forall hc, same_but_text h hc -> same_but_text hc h').
      { intros hc Hhc r. destruct (Hhc r) as [Ha Hd]. destruct (Hsame r) as [Ha' Hd'].
        split; congruence. }
      eapply Forall2_impl; [| exact Hall].
      intros chat chat' [hc [Hhc Hsess]]. cbv beta.
      apply (kept_sessions_spec h' hc target); [now apply Hframe | exact Hsess].
    + intros ->.
      destruct (process_chats_no_target threshold delimiter chats h)
        as [h2 [chats2 [Hrun2 Hnone]]].
      rewrite Hrun in Hrun2. inversion Hrun2; subst h2 chats2.
      split.
      * unfold all_sessions in Hnone. now rewrite flat_map_concat_map in Hnone.
      * intros fs output. now apply write_sessions_nothing.
  - intros input output export fs now months cutoff h1 loaded_chats target_id lg
           -> Hload Hcut.
    unfold transform_chats. rewrite Hload. cbn [bind name_or falsy_name].
    rewrite Hcut. cbn [bind].
    destruct (process_chats_no_target threshold delimiter
                (date_filter h1 cutoff loaded_chats) h1) as [h2 [chats' [Hrun Hnone]]].
    rewrite Hrun. cbn [bind].
    eexists; eexists; eexists. split; [reflexivity |].
    now apply write_sessions_nothing.
Qed.

(** ** The merger applied twice: which texts change *)

Lemma length_append a b :
  String.length (a +++ b) = (String.length a + String.length b)%nat.
Proof. induction a as [| c a IH]; simpl; [reflexivity | now rewrite IH]. Qed.

Lemma prepend_times_length n p t :
  String.length (prepend_times n p t) = (n * String.length p + String.length t)%nat.
Proof.
  unfold prepend_times. induction n as [| n IH]; simpl; [reflexivity |].
  rewrite length_append, IH. lia.
Qed.

Lemma prepend_times_changes n p t :
  (0 < n)%nat -> p <> EmptyString -> prepend_times n p t <> t.
Proof.
  intros Hn Hp Heq. apply (f_equal String.length) in Heq.
  rewrite prepend_times_length in Heq.
  destruct p as [| c p]; [congruence |]. simpl in Heq. nia.
Qed.

(** C5, amended.  Applied to its own result with the same delimiter, the
    merger returns normally the same sessions, made of the same messages,
    with authors and dates as they were; the text of a message has the
    stripped delimiter in front once more for each of its occurrences in the
    sessions.  So the texts of the messages outside the sessions are as they
    were; the texts of all messages are as they were when the stripped
    delimiter is empty; and when it is not empty the text of every message of
    the sessions has changed. *)
Theorem combine_twice_prefixes_again
    (h0 : heap) (ss : list session) (delimiter : string)
    (h1 : heap) (out1 : list session) :
  combine_consecutive_messages h0 ss delimiter = Ok (h1, out1) ->
  exists h2,
    combine_consecutive_messages h1 out1 delimiter = Ok (h2, out1)
    /\ same_but_text h1 h2
    /\ (forall r,
          text (deref h2 r) =
          prepend_times (count_occ Nat.eq_dec (List.concat out1) r)
                        (lstrip delimiter) (text (deref h1 r)))
    /\ (forall r, ~ In r (List.concat out1) -> text (deref h2 r) = text (deref h1 r))
    /\ (lstrip delimiter = EmptyString ->
        forall r, text (deref h2 r) = text (deref h1 r))
    /\ (lstrip delimiter <> EmptyString ->
        forall r, In r (List.concat out1) -> text (deref h2 r) <> text (deref h1 r)).
Proof.
  intros Hrun. apply combine_consecutive_messages_inv in Hrun.
  destruct Hrun as (Hne & Hout & Hsame).
  assert (Hall : Forall (fun o => o <> [] /\ alternating h1 o) out1).
  { subst out1. apply Forall_forall. intros o Ho.
    apply in_map_iff in Ho. destruct Ho as [s [<- Hs]].
    rewrite Forall_forall in Hne. split.
    - apply merge_runs_nonempty. now apply Hne.
    - eapply alternating_ext; [exact Hsame | apply merge_runs_alternating]. }
  exists (prefix_sessions delimiter h1 out1).
  split; [exact (combine_loop_alternating delimiter out1 h1 [] Hall) |].
  split; [apply prefix_sessions_same_but_text |].
  split; [intros r; apply prefix_sessions_text |].
  split; [| split].
  - intros r Hr. rewrite prefix_sessions_text.
    apply (count_occ_not_In Nat.eq_dec) in Hr. rewrite Hr. reflexivity.
  - intros Hempty r. rewrite prefix_sessions_text, Hempty. apply prepend_times_empty.
  - intros Hp r Hr. rewrite prefix_sessions_text.
    apply prepend_times_changes; [| exact Hp].
    now apply (count_occ_In Nat.eq_dec).
Qed.

Lemma combine_twice_prefixes_again_witness :
  exists h1 out1 h2,
    combine_consecutive_messages short_talk [[0%nat; 1%nat; 2%nat]] marker
      = Ok (h1, out1)
    /\ combine_consecutive_messages h1 out1 marker = Ok (h2, out1)
    /\ same_but_text h1 h2
    /\ (forall r,
          text (deref h2 r) =
          prepend_times (count_occ Nat.eq_dec (List.concat out1) r)
                        (lstrip marker) (text (deref h1 r)))
    /\ (forall r, ~ In r (List.concat out1) -> text (deref h2 r) = text (deref h1 r))
    /\ (lstrip marker = EmptyString ->
        forall r, text (deref h2 r) = text (deref h1 r))
    /\ (lstrip marker <> EmptyString ->
        forall r, In r (List.concat out1) -> text (deref h2 r) <> text (deref h1 r)).
Proof.
  destruct (combine_consecutive_messages short_talk [[0%nat; 1%nat; 2%nat]] marker)
    as [[h1 out1] | e] eqn:Hrun; [| vm_compute in Hrun; discriminate Hrun].
  destruct (combine_twice_prefixes_again short_talk [[0%nat; 1%nat; 2%nat]] marker
              h1 out1 Hrun) as [h2 H2].
  exists h1, out1, h2. split; [reflexivity | exact H2].
Defined.

(** ** The writer: one line for each session of the chats *)

Lemma split_lines_jsonl_text h ss :
  split_lines (jsonl_text h ss) = (jsonl_lines h ss, EmptyString).
Proof.
  unfold jsonl_text. apply split_lines_jsonl. apply jsonl_lines_no_newline.
Qed.

Lemma jsonl_lines_read_back h ss :
  Forall2
    (fun s line =>
       has_newline line = false
       /\ read_text_record line =
          Some (String.concat newline
                  (map (fun msg =>
                          "<|im_start|>" +++ author (deref h msg) +++ newline
                          +++ text (deref h msg) +++ "<|im_end|>") s)))
    ss (jsonl_lines h ss).
Proof.
  induction ss as [| s ss IH]; simpl; constructor; [| exact IH].
  split; [apply json_dump_text_no_newline | apply read_text_record_dump].
Qed.

(** C9.  The file written for a working set holds, whatever was in it
    before, one line for each session of the chats, in the order of the chats
    and of their sessions, and nothing else: split at the newlines it has as
    many lines as the chats have sessions, and the line of a session is a
    JSON record with the single key [text] that reads back as the blocks of
    the messages of the session joined by newlines, a block being the start
    marker, the author, a newline, the text and the end marker; other files
    are not touched.  A normal run of [transform_chats] leaves in the output
    file the lines of the sessions that the filter kept in its chats. *)
Theorem write_sessions_one_line_per_session
    (fs : files) (output : string) (h : heap) (chats : list Chat) :
  (exists content lines,
     (forall before, write_sessions before output h chats output = Some content)
     /\ split_lines content = (lines, EmptyString)
     /\ List.length lines = List.length (List.concat (map sessions chats))
     /\ Forall2
          (fun s line =>
             has_newline line = false
             /\ read_text_record line =
                Some (String.concat newline
                        (map (fun msg =>
                                "<|im_start|>" +++ author (deref h msg) +++ newline
                                +++ text (deref h msg) +++ "<|im_end|>") s)))
          (List.concat (map sessions chats)) lines)
  /\ (forall p, p <> output -> write_sessions fs output h chats p = fs p)
  /\ (forall input export h0 now target months threshold delimiter h2 fs' lg,
        transform_chats input output export h0 fs now target months threshold delimiter
          = Ok (h2, fs', lg) ->
        exists h1 chats0 target_id extracted lg1 cutoff chats' content lines,
          load_chats input export h0 = Ok (h1, chats0, (target_id, extracted), lg1)
          /\ cutoff_of now months = Ok cutoff
          /\ process_chats (name_or target extracted) threshold delimiter h1
               (date_filter h1 cutoff chats0) = Ok (h2, chats')
          /\ fs' output = Some content
          /\ split_lines content = (lines, EmptyString)
          /\ List.length lines = List.length (List.concat (map sessions chats'))
          /\ Forall2
               (fun s line =>
                  has_newline line = false
                  /\ read_text_record line =
                     Some (String.concat newline
                             (map (fun msg =>
                                     "<|im_start|>" +++ author (deref h2 msg) +++ newline
                                     +++ text (deref h2 msg) +++ "<|im_end|>") s)))
               (List.concat (map sessions chats')) lines).
Proof.
  assert (Hwritten : forall h' chats',
             exists content lines,
               (forall before,
                  write_sessions before output h' chats' output = Some content)
               /\ split_lines content = (lines, EmptyString)
               /\ List.length lines = List.length (List.concat (map sessions chats'))
               /\ Forall2
                    (fun s line =>
                       has_newline line = false
                       /\ read_text_record line =
                          Some (String.concat newline
                                  (map (fun msg =>
                                          "<|im_start|>" +++ author (deref h' msg)
                                          +++ newline +++ text (deref h' msg)
                                          +++ "<|im_end|>") s)))
                    (List.concat (map sessions chats')) lines).
  { intros h' chats'.
    exists (jsonl_text h' (all_sessions chats')), (jsonl_lines h' (all_sessions chats')).
    split; [intros before; apply write_sessions_content |].
    split; [apply split_lines_jsonl_text |].
    unfold all_sessions. rewrite flat_map_concat_map.
    split; [unfold jsonl_lines; apply length_map | apply jsonl_lines_read_back]. }
  split; [apply Hwritten |].
  split; [intros p Hp; now apply write_sessions_elsewhere |].
  intros input export h0 now target months threshold delimiter h2 fs' lg Hrun.
  apply transform_chats_inv in Hrun.
  destruct Hrun as (h1 & chats0 & target_id & extracted & lg1 & cutoff & chats'
                    & Hload & Hcut & Hproc & Hfs).
  destruct (Hwritten h2 chats') as (content & lines & Hcontent & Hsplit & Hlen & Hlines).
  exists h1, chats0, target_id, extracted, lg1, cutoff, chats', content, lines.
  split; [exact Hload |]. split; [exact Hcut |]. split; [exact Hproc |].
  split; [subst fs'; apply Hcontent |].
  split; [exact Hsplit |]. split; [exact Hlen | exact Hlines].
Qed.

(** ** The loader's result against the records of the export *)

Lemma fragments_text_concat fragments :
  fragments_text fragments = String.concat EmptyString (map entity_text fragments).
Proof.
  induction fragments as [| fragment rest IH]; [reflexivity |].
  cbn [fragments_text map]. rewrite concat_empty_cons, IH. reflexivity.
Qed.

Lemma record_text_message_text msg : record_text msg = message_text msg.
Proof.
  unfold record_text, message_text. rewrite fragments_text_concat.
  destruct (raw_sticker_emoji msg); [reflexivity | now rewrite append_nil_r].
Qed.

Lemma expected_messages_usable msgs : expected_messages msgs = usable_messages msgs.
Proof.
  induction msgs as [| msg rest IH]; [reflexivity |].
  cbn [expected_messages usable_messages].
  unfold message_of_raw, record_sender, record_has_content, usable_author.
  rewrite record_text_message_text, IH.
  destruct (raw_from msg) as [[[| c a] |] |]; cbn [is_empty_string]; try reflexivity.
  destruct (raw_text_entities msg), (raw_sticker_emoji msg); reflexivity.
Qed.

Lemma expected_chats_loaded export :
  expected_chats export = flat_map loaded_chat export.
Proof.
  induction export as [| chat rest IH]; [reflexivity |].
  cbn [expected_chats flat_map]. unfold loaded_chat.
  rewrite expected_messages_usable, IH.
  destruct (raw_name chat) as [[[| c nm] |] |]; cbn [is_empty_string]; try reflexivity.
  destruct (usable_messages (raw_messages chat)); reflexivity.
Qed.

Lemma expected_messages_authors msgs :
  Forall (fun m => author m <> EmptyString) (expected_messages msgs).
Proof.
  induction msgs as [| msg rest IH]; cbn [expected_messages]; [constructor |].
  unfold record_sender. destruct (raw_from msg) as [[[| c a] |] |]; try exact IH.
  destruct (record_has_content msg); [| exact IH].
  constructor; [discriminate | exact IH].
Qed.

Lemma expected_chats_In view export :
  In view (expected_chats export) ->
  exists chat c nm m ms,
    In chat export
    /\ raw_name chat = Some (Some (String c nm))
    /\ expected_messages (raw_messages chat) = m :: ms
    /\ view = (String c nm, raw_type chat, m :: ms).
Proof.
  induction export as [| chat rest IH]; cbn [expected_chats]; [intros [] |].
  intros Hin.
  assert (Hrest : In view (expected_chats rest) ->
                  exists chat0 c nm m ms,
                    In chat0 (chat :: rest)
                    /\ raw_name chat0 = Some (Some (String c nm))
                    /\ expected_messages (raw_messages chat0) = m :: ms
                    /\ view = (String c nm, raw_type chat0, m :: ms)).
  { intros H. destruct (IH H) as (chat0 & c & nm & m & ms & H0 & H1).
    exists chat0, c, nm, m, ms. split; [now right | exact H1]. }
  destruct (raw_name chat) as [[[| c nm] |] |] eqn:Hname; try (now apply Hrest).
  destruct (expected_messages (raw_messages chat)) as [| m ms] eqn:Hmsgs;
    [now apply Hrest |].
  destruct Hin as [<- | Hin]; [| now apply Hrest].
  exists chat, c, nm, m, ms. split; [now left |]. now repeat split.
Qed.

(** X8.  A normal return of the loader gives, in the order of the export,
    one chat for every entry whose name is a text that is not empty and that
    has at least one record to keep, with that name, that type and one
    message for each record kept, in order.  A record is kept when its sender
    is a text that is not empty and it has a text fragment or a sticker
    emoji; its message has the date and the sender of the record and, as
    text, the fragments put end to end followed by the emoji when there is
    one.  Every chat returned has a name and at least one message, no session
    yet, and no message without an author. *)
Theorem load_chats_content
    (path : string) (export : list RawChat) (h h' : heap) (chats : list Chat)
    (target : option Z * option string) (lg : log) :
  load_chats path export h = Ok (h', chats, target, lg) ->
  map (fun chat =>
         (name chat,
          match type chat with
          | personal_chat => "personal_chat"%string
          | private_group => "private_group"%string
          | private_supergroup => "private_supergroup"%string
          end,
          map (deref h') (messages chat)))
      chats
  = expected_chats export
  /\ Forall (fun c =>
               name c <> EmptyString
               /\ messages c <> []
               /\ sessions c = []
               /\ Forall (fun r => author (deref h' r) <> EmptyString) (messages c))
            chats.
Proof.
  intros Hrun. apply load_chats_inv in Hrun.
  destruct Hrun as [st (Hloop & -> & -> & _ & _)].
  pose proof (loaded_loop h export [] _ _ (loaded_initial h) Hloop)
    as [Hviews _ _ _ Hsess].
  cbn [app] in Hviews. rewrite <- expected_chats_loaded in Hviews.
  split; [exact Hviews |].
  apply Forall_forall. intros c Hc.
  assert (Hview : In (chat_view (ld_heap st) c) (expected_chats export)).
  { rewrite <- Hviews. now apply in_map. }
  apply expected_chats_In in Hview.
  destruct Hview as (raw & x & nm & m & ms & _ & _ & Hmsgs & Hview).
  pose proof (expected_messages_authors (raw_messages raw)) as Hauthors.
  rewrite Hmsgs in Hauthors.
  unfold chat_view in Hview. injection Hview as Hn _ Hms.
  split; [rewrite Hn; discriminate |].
  split; [intros Hnil; rewrite Hnil in Hms; discriminate |].
  split; [rewrite Forall_forall in Hsess; now apply Hsess |].
  rewrite <- Hms in Hauthors. apply Forall_forall. intros r Hr.
  rewrite Forall_forall in Hauthors. apply Hauthors. now apply in_map.
Qed.

Lemma load_chats_content_witness :
  exists h' chats target lg,
    load_chats "result.json" small_export empty_heap = Ok (h', chats, target, lg)
    /\ map (fun chat =>
              (name chat,
               match type chat with
               | personal_chat => "personal_chat"%string
               | private_group => "private_group"%string
               | private_supergroup => "private_supergroup"%string
               end,
               map (deref h') (messages chat)))
           chats
       = expected_chats small_export
    /\ Forall (fun c =>
                 name c <> EmptyString
                 /\ messages c <> []
                 /\ sessions c = []
                 /\ Forall (fun r => author (deref h' r) <> EmptyString) (messages c))
              chats.
Proof.
  destruct (load_chats "result.json" small_export empty_heap)
    as [[[[h' chats] target] lg] | e] eqn:Hrun; [| vm_compute in Hrun; discriminate Hrun].
  exists h', chats, target, lg. split; [reflexivity |].
  exact (load_chats_content "result.json" small_export empty_heap h' chats target lg Hrun).
Defined.

(** ** The target the loader reads from the owner's saved messages *)

Lemma str_of_from_cases msg nm :
  str_of_from msg = Ok nm ->
  raw_from msg = Some (Some nm)
  \/ (raw_from msg = Some None /\ nm = "None"%string).
Proof.
  unfold str_of_from. destruct (raw_from msg) as [[s |] |]; intros Heq.
  - injection Heq as ->. now left.
  - injection Heq as <-. right. now split.
  - discriminate.
Qed.

Lemma falsy_name_cases nm :
  falsy_name nm = true <-> nm = None \/ nm = Some EmptyString.
Proof.
  destruct nm as [[| c s] |]; cbn [falsy_name is_empty_string]; split.
  - intros _. now right.
  - reflexivity.
  - discriminate.
  - intros [H | H]; discriminate.
  - intros _. now left.
  - reflexivity.
Qed.

(** X10.  After a normal return of the loader the target is the one of the
    last entry of the export without a name: the identifier is the one of
    that entry, and the name is the sender of the first message of that entry
    whose sender identifier is the text "user" followed by the identifier
    (the text "None" when that sender is null); with no entry without a name
    in the export both are unset.  The log holds the warning that the target
    name was not detected exactly when the name returned is unset or is the
    empty text, and it holds it at most as its last entry, after the two
    information entries. *)
Theorem load_chats_target
    (path : string) (export : list RawChat) (h h' : heap) (chats : list Chat)
    (target_id : option Z) (target_name : option string) (lg : log) :
  load_chats path export h = Ok (h', chats, (target_id, target_name), lg) ->
  (Forall (fun c => raw_name c <> None) export ->
     target_id = None /\ target_name = None)
  /\ (forall before self after,
        export = before ++ self :: after ->
        raw_name self = None ->
        Forall (fun c => raw_name c <> None) after ->
        exists m,
          own_message self = Some m
          /\ target_id = Some (raw_id self)
          /\ ((exists nm, raw_from m = Some (Some nm) /\ target_name = Some nm)
              \/ (raw_from m = Some None /\ target_name = Some "None"%string)))
  /\ (In (WARNING,
          "Was not able to detect target name from 'Saved Messages'!"%string) lg
      <-> target_name = None \/ target_name = Some EmptyString)
  /\ (exists found,
        lg = [(INFO, "Loading chats from '" +++ path +++ "'..."); (INFO, found)]
             ++ (if match target_name with
                    | None => true
                    | Some EmptyString => true
                    | Some (String _ _) => false
                    end
                 then [(WARNING,
                        "Was not able to detect target name from 'Saved Messages'!"%string)]
                 else [])).
Proof.
  intros Hrun. apply load_chats_inv in Hrun.
  destruct Hrun as [st (Hloop & _ & _ & Htarget & Hlog)].
  injection Htarget as Hid Hnm.
  split; [| split; [| split]].
  - intros Hall. destruct (load_loop_named export Hall _ _ Hloop) as [Hid' Hnm'].
    simpl in Hid', Hnm'. split; congruence.
  - intros before self after -> Hself Hafter.
    rewrite load_loop_app in Hloop.
    destruct (load_loop (initial_state h) before) as [st0 | e]; [| discriminate].
    cbn [bind load_loop] in Hloop.
    destruct (load_chat st0 self) as [st1 | e] eqn:Hstep; [| discriminate].
    cbn [bind] in Hloop.
    destruct (load_chat_self st0 self st1 Hself Hstep) as [m [nm (Hown & Hfrom & Hi & Hn)]].
    destruct (load_loop_named after Hafter _ _ Hloop) as [Hid' Hnm'].
    exists m. split; [exact Hown |]. split; [congruence |].
    assert (Hname : target_name = Some nm) by congruence.
    destruct (str_of_from_cases m nm Hfrom) as [Hsender | [Hnull ->]].
    + left. exists nm. now split.
    + right. now split.
  - rewrite <- falsy_name_cases. subst lg target_name.
    destruct (falsy_name (ld_target_name st)); simpl.
    + split; [reflexivity |]. intros _. right. right. now left.
    + split; [| discriminate]. intros [H | [H | []]]; discriminate.
  - subst lg target_name. eexists.
    destruct (ld_target_name st) as [[| c s] |]; reflexivity.
Qed.

Lemma load_chats_target_witness :
  exists h' chats target_id target_name lg,
    load_chats "result.json" small_export empty_heap
      = Ok (h', chats, (target_id, target_name), lg)
    /\ (Forall (fun c => raw_name c <> None) small_export ->
          target_id = None /\ target_name = None)
    /\ (forall before self after,
          small_export = before ++ self :: after ->
          raw_name self = None ->
          Forall (fun c => raw_name c <> None) after ->
          exists m,
            own_message self = Some m
            /\ target_id = Some (raw_id self)
            /\ ((exists nm, raw_from m = Some (Some nm) /\ target_name = Some nm)
                \/ (raw_from m = Some None /\ target_name = Some "None"%string)))
    /\ (In (WARNING,
            "Was not able to detect target name from 'Saved Messages'!"%string) lg
        <-> target_name = None \/ target_name = Some EmptyString)
    /\ (exists found,
          lg = [(INFO, "Loading chats from '" +++ "result.json" +++ "'...");
                (INFO, found)]
               ++ (if match target_name with
                      | None => true
                      | Some EmptyString => true
                      | Some (String _ _) => false
                      end
                   then [(WARNING,
                          "Was not able to detect target name from 'Saved Messages'!"%string)]
                   else [])).
Proof.
  destruct (load_chats "result.json" small_export empty_heap)
    as [[[[h' chats] [target_id target_name]] lg] | e] eqn:Hrun;
    [| vm_compute in Hrun; discriminate Hrun].
  exists h', chats, target_id, target_name, lg. split; [reflexivity |].
  exact (load_chats_target "result.json" small_export empty_heap h' chats
           target_id target_name lg Hrun).
Defined.
